(** * Spack specs: a shallow embedding of [lib/spack/spack/spec.py]

    The development follows the layout of the Python module:

    - versions (the part of [spack.version] that [spec.py] calls),
    - [Compiler], [Variant], [VariantMap], [DependencyMap],
    - the object store in which [Spec] objects live (a [Spec] is a mutable
      object that other specs point to through [dependencies] and
      [dependents], so a spec is a location in a heap),
    - the error classes at the end of the module,
    - traversal, [format] and [__str__], which [_add_dependency] needs
      for its message,
    - [SpecLexer] and [SpecParser],
    - the other methods of [Spec]: copy, constrain, satisfies,
      [normalized], [__init__],
    - more of the module ([index_specs], [root], [concrete],
      [flat_dependencies], [flatten], [_replace_with], [__contains__],
      [parse_anonymous_spec]), [allowed_archive] of
      [spack/util/compression.py] and [hline] of [spack/cmd/find.py].

    Python exceptions are values of type [exn]; a method returns
    [Ok v] or [Raise e].  Methods that recurse over the DAG take the
    remaining recursion depth of the interpreter as their first argument
    and raise [RuntimeError] when it is used up, like CPython does.

    An object of the store holds its name, versions, variants,
    architecture and compiler by value, and its dependencies and
    dependents as references to other objects. *)

From stdpp Require Import base option list gmap strings sorting.
From Stdlib Require Import String Ascii NArith ZArith Lia.

Open Scope string_scope.
Open Scope list_scope.

(** ** Small string helpers *)

Definition is_digit (c : ascii) : bool :=
  let n := nat_of_ascii c in (48 <=? n)%nat && (n <=? 57)%nat.

Definition is_alpha (c : ascii) : bool :=
  let n := nat_of_ascii c in
  ((65 <=? n)%nat && (n <=? 90)%nat) || ((97 <=? n)%nat && (n <=? 122)%nat).

(** [\w] of Python 2's [re] without flags: letters, digits, underscore. *)
Definition is_word (c : ascii) : bool :=
  is_alpha c || is_digit c || Ascii.eqb c "_".

(** [\s]: space, tab, newline, carriage return, form feed, vertical tab. *)
Definition is_space (c : ascii) : bool :=
  let n := nat_of_ascii c in
  (n =? 32)%nat || ((9 <=? n)%nat && (n <=? 13)%nat).

Fixpoint string_contains (c : ascii) (s : string) : bool :=
  match s with
  | EmptyString => false
  | String a rest => Ascii.eqb a c || string_contains c rest
  end.

Fixpoint string_forall (p : ascii -> bool) (s : string) : bool :=
  match s with
  | EmptyString => true
  | String a rest => p a && string_forall p rest
  end.

(** [sep.join(l)] *)
Fixpoint join (sep : string) (l : list string) : string :=
  match l with
  | [] => ""
  | [x] => x
  | x :: rest => x +:+ sep +:+ join sep rest
  end.

(** [''.join(l)] *)
Definition concat_strings (l : list string) : string :=
  foldr String.append "" l.

(** [sorted] on strings: Python 2 compares [str] byte by byte. *)
Definition str_le (a b : string) : Prop := String.leb a b = true.

#[global] Instance str_le_dec a b : Decision (str_le a b).
Proof. unfold str_le. apply _. Defined.

Definition sorted_strings (l : list string) : list string :=
  merge_sort str_le l.

(** ** Versions

    [spack.version] is imported by [spec.py] but is not part of the
    sources at hand.  The definitions of this section follow the data
    model of the specification. *)

Module Version.

(** Modelled from the spec: the module [spack.version] is missing.  A
    version is a sequence of dotted components, numeric or alphabetic. *)
Inductive component :=
| Num (n : N)
| Alpha (s : string).

(** Modelled from the spec: [Version(string)] of the missing module
    [spack.version]; the text is kept for printing. *)
Record t := Version { text : string }.

#[global] Instance component_eq_dec : EqDecision component.
Proof. solve_decision. Defined.
#[global] Instance t_eq_dec : EqDecision t.
Proof. solve_decision. Defined.

Fixpoint split_dots (cur : string) (s : string) : list string :=
  match s with
  | EmptyString => [cur]
  | String c rest =>
      if Ascii.eqb c "." then cur :: split_dots "" rest
      else split_dots (cur +:+ String c "") rest
  end.

Fixpoint digits_value (acc : N) (s : string) : N :=
  match s with
  | EmptyString => acc
  | String c rest =>
      digits_value (10 * acc + N.of_nat (nat_of_ascii c - 48)) rest
  end.

Definition component_of (s : string) : component :=
  if string_forall is_digit s && negb (String.eqb s "")
  then Num (digits_value 0 s) else Alpha s.

(** Modelled from the spec: the components a version is compared by. *)
Definition components (v : t) : list component :=
  map component_of (split_dots "" (text v)).

(** Modelled from the spec: numeric components sort before alphabetic
    ones, equal kinds compare by value. *)
Definition compare_component (a b : component) : comparison :=
  match a, b with
  | Num x, Num y => N.compare x y
  | Num _, Alpha _ => Lt
  | Alpha _, Num _ => Gt
  | Alpha x, Alpha y => String.compare x y
  end.

Fixpoint compare_components (a b : list component) : comparison :=
  match a, b with
  | [], [] => Eq
  | [], _ :: _ => Lt
  | _ :: _, [] => Gt
  | x :: a', y :: b' =>
      match compare_component x y with
      | Eq => compare_components a' b'
      | c => c
      end
  end.

(** Modelled from the spec: versions are compared component-wise. *)
Definition compare (a b : t) : comparison :=
  compare_components (components a) (components b).

Definition leb (a b : t) : bool :=
  match compare a b with Gt => false | _ => true end.

Definition eqb (a b : t) : bool :=
  match compare a b with Eq => true | _ => false end.

Definition str (v : t) : string := text v.

End Version.

Module VersionList.

(** Modelled from the spec: the classes [Version] and [VersionRange] of
    the missing module [spack.version] as the elements of a version
    list.  A range is the inclusive interval [[lo, hi]]; [None] is an
    open end. *)
Inductive elem :=
| Point (v : Version.t)
| Range (lo hi : option Version.t).

#[global] Instance elem_eq_dec : EqDecision elem.
Proof. solve_decision. Defined.

(** Modelled from the spec: [VersionList] of the missing module
    [spack.version], the list of its elements in ascending order. *)
Definition t := list elem.

Definition lo (e : elem) : option Version.t :=
  match e with Point v => Some v | Range l _ => l end.

Definition hi (e : elem) : option Version.t :=
  match e with Point v => Some v | Range _ h => h end.

(** [l <= h] for a lower end [l] and an upper end [h]: an open end is
    below, respectively above, everything. *)
Definition lo_le_hi (l h : option Version.t) : bool :=
  match l, h with
  | Some a, Some b => Version.leb a b
  | _, _ => true
  end.

(** order of two lower ends ([None] is minus infinity) *)
Definition lo_le (a b : option Version.t) : bool :=
  match a, b with
  | None, _ => true
  | Some _, None => false
  | Some x, Some y => Version.leb x y
  end.

(** order of two upper ends ([None] is plus infinity) *)
Definition hi_le (a b : option Version.t) : bool :=
  match a, b with
  | _, None => true
  | None, Some _ => false
  | Some x, Some y => Version.leb x y
  end.

(** Modelled from the spec: two elements overlap when their
    intersection is not empty. *)
Definition elem_overlaps (a b : elem) : bool :=
  lo_le_hi (lo a) (hi b) && lo_le_hi (lo b) (hi a).

(** Modelled from the spec: [inner] is covered by [outer]: a version
    is covered by an equal version and by a range it lies in. *)
Definition elem_covers (outer inner : elem) : bool :=
  lo_le (lo outer) (lo inner) && hi_le (hi inner) (hi outer).

Definition mk (l h : option Version.t) : elem :=
  match l, h with
  | Some a, Some b => if Version.eqb a b then Point a else Range l h
  | _, _ => Range l h
  end.

Definition elem_hull (a b : elem) : elem :=
  mk (if lo_le (lo a) (lo b) then lo a else lo b)
     (if hi_le (hi a) (hi b) then hi b else hi a).

Definition elem_meet (a b : elem) : elem :=
  mk (if lo_le (lo a) (lo b) then lo b else lo a)
     (if hi_le (hi a) (hi b) then hi a else hi b).

(** Modelled from the spec: [VersionList.add] of the missing module
    [spack.version]: the element is put at its place in ascending
    order, and elements it overlaps are coalesced with it. *)
Fixpoint add (v : elem) (l : t) : t :=
  match l with
  | [] => [v]
  | x :: xs =>
      if elem_overlaps v x then add (elem_hull v x) xs
      else if negb (lo_le_hi (lo x) (hi v)) then v :: x :: xs
      else x :: add v xs
  end.

(** [VersionList()] *)
Definition empty : t := [].

(** [VersionList(':')], also the constant [_any_version] of [spec.py] *)
Definition any : t := [Range None None].

(** Modelled from the spec: the empty list denotes [:], any version. *)
Definition elems (l : t) : list elem :=
  match l with [] => any | _ => l end.

(** Modelled from the spec: [VersionList.overlaps] of the missing module
    [spack.version]: the intersection is not empty. *)
Definition overlaps (a b : t) : bool :=
  existsb (fun x => existsb (elem_overlaps x) (elems b)) (elems a).

(** Modelled from the spec: [VersionList.satisfies] of the missing
    module [spack.version]: every element of [a] is covered by some
    element of [b], and the lists overlap. *)
Definition satisfies (a b : t) : bool :=
  forallb (fun x => existsb (fun y => elem_covers y x) (elems b)) (elems a)
  && overlaps a b.

(** Modelled from the spec: [VersionList.intersect] of the missing
    module [spack.version]: the element-wise intersection. *)
Definition intersect (a b : t) : t :=
  foldr add []
    (flat_map (fun x =>
       flat_map (fun y => if elem_overlaps x y then [elem_meet x y] else [])
                (elems b)) (elems a)).

(** Modelled from the spec: concrete iff the list is a single version. *)
Definition concrete (l : t) : bool :=
  match l with [Point _] => true | _ => false end.

(** truth value of the list object: it is not empty *)
Definition truthy (l : t) : bool :=
  match l with [] => false | _ => true end.

Definition opt_str (o : option Version.t) : string :=
  match o with Some v => Version.str v | None => "" end.

Definition elem_str (e : elem) : string :=
  match e with
  | Point v => Version.str v
  | Range l h => opt_str l +:+ ":" +:+ opt_str h
  end.

(** Modelled from the spec: [str] of a version list, its elements
    separated by commas. *)
Definition str (l : t) : string := join "," (map elem_str l).

(** A range that denotes a non-empty interval; a single version always
    does. *)
Definition elem_ok (e : elem) : bool := lo_le_hi (lo e) (hi e).

Definition ok (l : t) : bool := forallb elem_ok l.

End VersionList.


(** ** Compiler *)

Module Compiler.

Record t := Compiler { name : string; versions : VersionList.t }.

#[global] Instance t_eq_dec : EqDecision t.
Proof. solve_decision. Defined.

(** [Compiler(name)]: the version list starts empty. *)
Definition new (n : string) : t :=
  {| name := n; versions := VersionList.empty |}.

Definition _add_version (c : t) (v : VersionList.elem) : t :=
  {| name := name c; versions := VersionList.add v (versions c) |}.

Definition satisfies (self other : t) : bool :=
  bool_decide (name self = name other)
  && VersionList.overlaps (versions self) (versions other).

Definition concrete (c : t) : bool := VersionList.concrete (versions c).

Definition copy (c : t) : t :=
  {| name := name c; versions := versions c |}.

Definition str (c : t) : string :=
  if VersionList.truthy (versions c)
     && negb (bool_decide (versions c = VersionList.any))
  then name c +:+ "@" +:+ join "," (map VersionList.elem_str (versions c))
  else name c.

End Compiler.

(** ** Variant and VariantMap *)

Module Variant.

Record t := Variant { name : string; enabled : bool }.

#[global] Instance t_eq_dec : EqDecision t.
Proof. solve_decision. Defined.

Definition copy (v : t) : t := {| name := name v; enabled := enabled v |}.

Definition str (v : t) : string :=
  (if enabled v then "+" else "~") +:+ name v.

End Variant.

Module VariantMap.

(** [HashableMap] is a [dict]; a [VariantMap] maps a variant's name to
    the [Variant]. *)
Abbreviation t := (gmap string Variant.t).

(** [all(self[key].enabled == other[key].enabled
         for key in other if key in self)] *)
Definition satisfies (self other : t) : bool :=
  forallb (fun kv : string * Variant.t =>
             match self !! kv.1 with
             | Some mine => Bool.eqb (Variant.enabled mine) (Variant.enabled kv.2)
             | None => true
             end)
          (map_to_list other).

Definition str (self : t) : string :=
  let sorted_keys := sorted_strings (map fst (map_to_list self)) in
  concat_strings
    (omap (fun key => Variant.str <$> self !! key) sorted_keys).

(** Modelled from the spec: [HashableMap.copy] of the missing module
    [spack.util.lang] copies every value. *)
Definition copy (self : t) : t := Variant.copy <$> self.

(** truth value of a [dict]: it is not empty *)
Definition truthy (self : t) : bool :=
  match map_to_list self with [] => false | _ => true end.

End VariantMap.

(** ** Spec objects and the object store *)

(** A reference to a [Spec] object. *)
Abbreviation loc := nat.

(** A [DependencyMap] is a [dict] from a package name to a [Spec]
    object.  [dependencies] holds the outgoing edges of a node and
    [dependents] the incoming ones. *)
Abbreviation DependencyMap := (gmap string loc).

Record Spec := mkSpec {
  name : string;
  versions : VersionList.t;
  variants : VariantMap.t;
  architecture : option string;
  compiler : option Compiler.t;
  dependents : DependencyMap;
  dependencies : DependencyMap;
}.

#[global] Instance Spec_eq_dec : EqDecision Spec.
Proof. solve_decision. Defined.

(** The store of all [Spec] objects: the object at reference [l] is
    [h !! l]; [Spec.__new__] takes the next free reference. *)
Abbreviation heap := (list Spec).

(** truth value of a [dict] *)
Definition dict_truthy (m : DependencyMap) : bool :=
  match map_to_list m with [] => false | _ => true end.

(** truth value of [architecture]: [None] and [''] are false *)
Definition arch_truthy (a : option string) : bool :=
  match a with Some s => negb (String.eqb s "") | None => false end.

(** ** Exceptions *)

(** The error classes of the end of [spec.py], with the built-in ones the
    module raises. *)
Inductive error_class :=
| SpackError | SpecError | SpecParseError
| DuplicateDependencyError | DuplicateVariantError | DuplicateCompilerError
| UnknownCompilerError | DuplicateArchitectureError | InconsistentSpecError
| InvalidDependencyException | NoProviderError | MultipleProviderError
| UnsatisfiableSpecError | UnsatisfiableSpecNameError
| UnsatisfiableVersionSpecError | UnsatisfiableCompilerSpecError
| UnsatisfiableVariantSpecError | UnsatisfiableArchitectureSpecError
| UnsatisfiableProviderSpecError | UnsatisfiableDependencySpecError
| ParseError | StandardError
| TypeError | ValueError | KeyError | RuntimeError.

#[global] Instance error_class_eq_dec : EqDecision error_class.
Proof. solve_decision. Defined.

(** The base class in each [class C(B)] statement. *)
Definition base (c : error_class) : option error_class :=
  match c with
  | SpackError => None
  | SpecError => Some SpackError
  | UnsatisfiableSpecError => Some SpecError
  | UnsatisfiableSpecNameError | UnsatisfiableVersionSpecError
  | UnsatisfiableCompilerSpecError | UnsatisfiableVariantSpecError
  | UnsatisfiableArchitectureSpecError | UnsatisfiableProviderSpecError
  | UnsatisfiableDependencySpecError => Some UnsatisfiableSpecError
  | SpecParseError | DuplicateDependencyError | DuplicateVariantError
  | DuplicateCompilerError | UnknownCompilerError
  | DuplicateArchitectureError | InconsistentSpecError
  | InvalidDependencyException | NoProviderError | MultipleProviderError =>
      Some SpecError
  | ParseError => Some SpackError
  | StandardError => None
  | TypeError | ValueError | KeyError | RuntimeError => Some StandardError
  end.

Fixpoint mro_from (n : nat) (c : error_class) : list error_class :=
  match n with
  | O => []
  | S n' => c :: match base c with Some b => mro_from n' b | None => [] end
  end.

(** The method resolution order of a class (single inheritance). *)
Definition mro (c : error_class) : list error_class := mro_from 5 c.

Definition issubclass (c d : error_class) : bool := bool_decide (d ∈ mro c).

(** What an [UnsatisfiableSpecError] is given as [provided] and
    [required]. *)
Inductive payload :=
| PName (n : string)
| PVersions (v : VersionList.t)
| PVariant (v : Variant.t)
| PArchitecture (a : string)
| PCompiler (c : Compiler.t)
| PSpec (s : loc).

(** An exception object: its class and what [__init__] stored in it. *)
Inductive exn :=
| Exception (cls : error_class) (message : string)
| Unsatisfiable (cls : error_class) (provided required : payload)
                (constraint_type : string).

Definition class_of (e : exn) : error_class :=
  match e with
  | Exception c _ => c
  | Unsatisfiable c _ _ _ => c
  end.

Inductive result (A : Type) :=
| Ok (a : A)
| Raise (e : exn).
Arguments Ok {A} a.
Arguments Raise {A} e.

#[global] Instance result_ret : MRet result := fun A a => Ok a.
#[global] Instance result_bind : MBind result :=
  fun A B f r => match r with Ok a => f a | Raise e => Raise e end.
#[global] Instance result_fmap : FMap result :=
  fun A B f r => match r with Ok a => Ok (f a) | Raise e => Raise e end.

(** [RuntimeError: maximum recursion depth exceeded] *)
Definition recursion_error : exn :=
  Exception RuntimeError "maximum recursion depth exceeded".

(** Reading an object through a reference. *)
Definition deref (h : heap) (l : loc) : result Spec :=
  match h !! l with
  | Some s => Ok s
  | None => Raise (Exception RuntimeError "dangling reference")
  end.

(** [Spec.__new__(Spec)] followed by the assignments that fill the new
    object in: the object gets the next free reference. *)
Definition alloc (h : heap) (s : Spec) : loc * heap := (List.length h, h ++ [s]).

(** *** The constructors of the error classes

    [super(C, self).__init__(...)] looks [C] up in the method resolution
    order of the class of [self] and calls the [__init__] of the class
    after it; when [self] is not an instance of [C], [super] raises
    [TypeError]. *)
Definition super (c self_class : error_class) : result unit :=
  if issubclass self_class c then Ok ()
  else Raise (Exception TypeError
    "super(type, obj): obj must be an instance or subtype of type").

(** [UnsatisfiableSpecError.__init__(self, provided, required,
    constraint_type)], for [self] of class [self_class] *)
Definition UnsatisfiableSpecError_init (self_class : error_class)
    (provided required : payload) (constraint_type : string) : result exn :=
  _ ← super UnsatisfiableSpecError self_class;
  Ok (Unsatisfiable self_class provided required constraint_type).

(** [UnsatisfiableSpecNameError(provided, required)]: its [__init__]
    calls [super(UnsatisfiableVersionSpecError, self)]. *)
Definition new_UnsatisfiableSpecNameError (provided required : payload)
  : result exn :=
  _ ← super UnsatisfiableVersionSpecError UnsatisfiableSpecNameError;
  UnsatisfiableSpecError_init UnsatisfiableSpecNameError
    provided required "name".

Definition new_UnsatisfiableVersionSpecError (provided required : payload)
  : result exn :=
  _ ← super UnsatisfiableVersionSpecError UnsatisfiableVersionSpecError;
  UnsatisfiableSpecError_init UnsatisfiableVersionSpecError
    provided required "version".

Definition new_UnsatisfiableCompilerSpecError (provided required : payload)
  : result exn :=
  _ ← super UnsatisfiableCompilerSpecError UnsatisfiableCompilerSpecError;
  UnsatisfiableSpecError_init UnsatisfiableCompilerSpecError
    provided required "compiler".

Definition new_UnsatisfiableVariantSpecError (provided required : payload)
  : result exn :=
  _ ← super UnsatisfiableVariantSpecError UnsatisfiableVariantSpecError;
  UnsatisfiableSpecError_init UnsatisfiableVariantSpecError
    provided required "variant".

Definition new_UnsatisfiableArchitectureSpecError
    (provided required : payload) : result exn :=
  _ ← super UnsatisfiableArchitectureSpecError
            UnsatisfiableArchitectureSpecError;
  UnsatisfiableSpecError_init UnsatisfiableArchitectureSpecError
    provided required "architecture".

Definition new_UnsatisfiableDependencySpecError
    (provided required : payload) : result exn :=
  _ ← super UnsatisfiableDependencySpecError UnsatisfiableDependencySpecError;
  UnsatisfiableSpecError_init UnsatisfiableDependencySpecError
    provided required "dependency".

(** [raise C(...)]: the exception object is built first; when building
    it raises, that exception is the one that propagates. *)
Definition raise {A} (e : result exn) : result A :=
  match e with
  | Ok x => Raise x
  | Raise x => Raise x
  end.

(** [Compiler.constrain].  Python intersects [self.versions] in place;
    here the narrowed compiler is returned and the caller stores it in
    the spec it belongs to. *)
Definition Compiler_constrain (self other : Compiler.t) : result Compiler.t :=
  if negb (Compiler.satisfies self other) then
    raise (new_UnsatisfiableCompilerSpecError (PCompiler self) (PCompiler other))
  else
    Ok {| Compiler.name := Compiler.name self;
          Compiler.versions :=
            VersionList.intersect (Compiler.versions self)
                                  (Compiler.versions other) |}.

(** ** Private routines of [Spec], called by the parser

    The parser calls the first four on the object it is building, which
    nothing else refers to yet; they are functions on the object. *)

Definition new_Spec (n : string) : Spec :=
  {| name := n; versions := VersionList.empty; variants := ∅;
     architecture := None; compiler := None;
     dependents := ∅; dependencies := ∅ |}.

Definition set_versions (s : Spec) (v : VersionList.t) : Spec :=
  {| name := name s; versions := v; variants := variants s;
     architecture := architecture s; compiler := compiler s;
     dependents := dependents s; dependencies := dependencies s |}.

Definition set_variants (s : Spec) (v : VariantMap.t) : Spec :=
  {| name := name s; versions := versions s; variants := v;
     architecture := architecture s; compiler := compiler s;
     dependents := dependents s; dependencies := dependencies s |}.

Definition set_architecture (s : Spec) (a : option string) : Spec :=
  {| name := name s; versions := versions s; variants := variants s;
     architecture := a; compiler := compiler s;
     dependents := dependents s; dependencies := dependencies s |}.

Definition set_compiler (s : Spec) (c : option Compiler.t) : Spec :=
  {| name := name s; versions := versions s; variants := variants s;
     architecture := architecture s; compiler := c;
     dependents := dependents s; dependencies := dependencies s |}.

Definition set_dependents (s : Spec) (m : DependencyMap) : Spec :=
  {| name := name s; versions := versions s; variants := variants s;
     architecture := architecture s; compiler := compiler s;
     dependents := m; dependencies := dependencies s |}.

Definition set_dependencies (s : Spec) (m : DependencyMap) : Spec :=
  {| name := name s; versions := versions s; variants := variants s;
     architecture := architecture s; compiler := compiler s;
     dependents := dependents s; dependencies := m |}.

Definition _add_version (self : Spec) (version : VersionList.elem) : Spec :=
  set_versions self (VersionList.add version (versions self)).

Definition _add_variant (self : Spec) (n : string) (enabled : bool)
  : result Spec :=
  if bool_decide (is_Some (variants self !! n)) then
    Raise (Exception DuplicateVariantError
             ("Cannot specify variant '" +:+ n +:+ "' twice"))
  else
    Ok (set_variants self
          (<[n := {| Variant.name := n; Variant.enabled := enabled |}]>
             (variants self))).

(** [if self.compiler:] a [Compiler] object is always true. *)
Definition _set_compiler (self : Spec) (c : Compiler.t) : result Spec :=
  if bool_decide (is_Some (compiler self)) then
    Raise (Exception DuplicateCompilerError
             ("Spec for '" +:+ name self +:+ "' cannot have two compilers."))
  else Ok (set_compiler self (Some c)).

Definition _set_architecture (self : Spec) (a : string) : result Spec :=
  if arch_truthy (architecture self) then
    Raise (Exception DuplicateArchitectureError
             ("Spec for '" +:+ name self
              +:+ "' cannot have two architectures."))
  else Ok (set_architecture self (Some a)).

(** ** [Spec.preorder_traversal]

    The generator is run to its end: the result is the list of what it
    yields and the [visited] set it leaves.  It yields [(d, self)]; with
    [depth=False] the caller reads the second component. *)

(** [sorted(self.dependencies)] *)
Definition sorted_names (s : Spec) : list string :=
  sorted_strings (map fst (map_to_list (dependencies s))).

(** [for name in sorted(self.dependencies): child = self.dependencies[name]] *)
Definition sorted_children (s : Spec) : list loc :=
  omap (fun n => dependencies s !! n) (sorted_names s).

Section traversal.
Context {K : Type} `{Countable K}.
Variable key_fun : loc -> Spec -> K.
Variable yield_root : bool.
Variable cover : string.

Fixpoint visit_children
    (rec : gset K -> loc -> result (list (nat * loc) * gset K))
    (children : list loc) (visited : gset K)
  : result (list (nat * loc) * gset K) :=
  match children with
  | [] => Ok ([], visited)
  | child :: rest =>
      '(ys, v1) ← rec visited child;
      '(zs, v2) ← visit_children rec rest v1;
      Ok (ys ++ zs, v2)
  end.

Fixpoint preorder_traversal (depth_left : nat) (h : heap)
    (visited : gset K) (d : nat) (self : loc)
  : result (list (nat * loc) * gset K) :=
  match depth_left with
  | O => Raise recursion_error
  | S depth_left' =>
      if negb (bool_decide (cover ∈ ["nodes"; "edges"; "paths"])) then
        Raise (Exception ValueError "Invalid value for cover")
      else
        s ← deref h self;
        let key := key_fun self s in
        let here := if yield_root || (0 <? d)%nat then [(d, self)] else [] in
        let seen := bool_decide (key ∈ visited) in
        if seen && bool_decide (cover = "nodes") then Ok ([], visited)
        else if seen && bool_decide (cover = "edges") then Ok (here, visited)
        else
          '(ys, v) ← visit_children
                       (fun v child =>
                          preorder_traversal depth_left' h v (S d) child)
                       (sorted_children s) ({[key]} ∪ visited);
          Ok (here ++ ys, v)
  end.

End traversal.

(** [key=id], the default *)
Definition by_id (l : loc) (_ : Spec) : loc := l.

(** [by_name = lambda d: d.name] *)
Definition by_name (_ : loc) (s : Spec) : string := name s.

(** [self.preorder_traversal()] with the defaults, as a list of nodes *)
Definition traverse (depth_left : nat) (h : heap) (self : loc)
  : result (list loc) :=
  '(ys, _) ← preorder_traversal by_id true "nodes" depth_left h ∅ 0 self;
  Ok (ys.*2).

(** [self.preorder_traversal(root=False)] *)
Definition traverse_deps (depth_left : nat) (h : heap) (self : loc)
  : result (list loc) :=
  '(ys, _) ← preorder_traversal by_id false "nodes" depth_left h ∅ 0 self;
  Ok (ys.*2).

Definition deref_all (h : heap) (ls : list loc) : result (list Spec) :=
  foldr (fun l acc => s ← deref h l; rest ← acc; Ok (s :: rest)) (Ok []) ls.

(** ** [Spec.format] and [Spec.__str__] *)

Section formatting.
(** [hashlib.sha1(s).hexdigest()] *)
Variable sha1_hexdigest : string -> string.

(** The default [format_string] of [Spec.format]. *)
Definition default_format : string := "$_$@$%@$+$=".

(** [DependencyMap.__str__]; [str_of] is [str] on a [Spec]. *)
Definition DependencyMap_str (str_of : loc -> result string)
    (m : DependencyMap) : result string :=
  foldr (fun n acc =>
           match m !! n with
           | Some l => s ← str_of l; rest ← acc; Ok ("^" +:+ s +:+ rest)
           | None => acc
           end)
        (Ok "") (sorted_strings (map fst (map_to_list m))).

(** What a directive [$c] writes ([color] is off, so [write(s, c)] is
    [out.write(s)]). *)
Definition format_directive (str_of : loc -> result string) (self : Spec)
    (c : ascii) : result string :=
  if Ascii.eqb c "_" then Ok (name self)
  else if Ascii.eqb c "@" then
    Ok (if VersionList.truthy (versions self)
           && negb (bool_decide (versions self = VersionList.any))
        then "@" +:+ VersionList.str (versions self) else "")
  else if Ascii.eqb c "%" then
    Ok (match compiler self with
        | Some cc => "%" +:+ Compiler.name cc
        | None => ""
        end)
  else if Ascii.eqb c "+" then
    Ok (if VariantMap.truthy (variants self)
        then VariantMap.str (variants self) else "")
  else if Ascii.eqb c "=" then
    Ok (match architecture self with
        | Some a => if arch_truthy (Some a) then "=" +:+ a else ""
        | None => ""
        end)
  else if Ascii.eqb c "#" then
    if dict_truthy (dependencies self) then
      d ← DependencyMap_str str_of (dependencies self);
      Ok ("-" +:+ substring 0 6 (sha1_hexdigest d))
    else Ok ""
  else if Ascii.eqb c "$" then Ok "$"
  else Ok "".

(** The loop [for i, c in enumerate(format_string)] with its two flags;
    [out] is what has been written. *)
Fixpoint format_loop (str_of : loc -> result string) (self : Spec)
    (fmt : string) (escape compiler_flag : bool) (out : string)
  : result string :=
  match fmt with
  | EmptyString => Ok out
  | String c rest =>
      if escape then
        w ← format_directive str_of self c;
        format_loop str_of self rest false
          (if Ascii.eqb c "%" then true else compiler_flag) (out +:+ w)
      else if compiler_flag then
        if Ascii.eqb c "@" then
          format_loop str_of self rest false false
            (out +:+ match compiler self with
                     | Some cc =>
                         if VersionList.truthy (Compiler.versions cc)
                         then "@" +:+ VersionList.str (Compiler.versions cc)
                         else ""
                     | None => ""
                     end)
        else if Ascii.eqb c "$" then
          format_loop str_of self rest true false out
        else format_loop str_of self rest false false (out +:+ String c "")
      else if Ascii.eqb c "$" then
        match rest with
        | EmptyString =>
            Raise (Exception ValueError "Error: unterminated $ in format")
        | _ => format_loop str_of self rest true false out
        end
      else format_loop str_of self rest false false (out +:+ String c "")
  end.

Definition format (str_of : loc -> result string) (self : Spec)
    (format_string : string) : result string :=
  format_loop str_of self format_string false false "".

Definition name_le (a b : Spec) : Prop := str_le (name a) (name b).

#[global] Instance name_le_dec a b : Decision (name_le a b).
Proof. unfold name_le. apply _. Defined.

(** [Spec.__str__] *)
Fixpoint Spec_str (depth_left : nat) (h : heap) (self : loc) : result string :=
  match depth_left with
  | O => Raise recursion_error
  | S depth_left' =>
      s ← deref h self;
      '(ys, _) ← preorder_traversal by_name false "nodes"
                   depth_left' h ∅ 0 self;
      deps ← deref_all h (ys.*2);
      let sorted_deps := merge_sort name_le deps in
      dep_string ←
        foldr (fun dep acc =>
                 f ← format (Spec_str depth_left' h) dep default_format;
                 rest ← acc;
                 Ok ("^" +:+ f +:+ rest))
              (Ok "") sorted_deps;
      root ← format (Spec_str depth_left' h) s default_format;
      Ok (root +:+ dep_string)
  end.

End formatting.

(** What stands in for [hashlib.sha1] where no format string asks for
    a hash. *)
Definition no_sha1 (s : string) : string := "".

(** ['%s' % spec], that is [str(spec)], where a message names a spec.
    [__str__] uses the default format string, which has no [$#], so
    [hashlib.sha1] is not called; its traversal is keyed by name and
    goes down at most once for every object of the store, which the
    depth given here allows. *)
Definition str_of_spec (h : heap) (spec : loc) : result string :=
  Spec_str no_sha1 (S (S (List.length h))) h spec.

(** [_add_dependency] writes to two objects: the edge in [self] and the
    back-reference in [spec]. *)
Definition _add_dependency (h : heap) (self spec : loc) : result heap :=
  s ← deref h self;
  d ← deref h spec;
  if bool_decide (is_Some (dependencies s !! name d)) then
    text ← str_of_spec h spec;
    Raise (Exception DuplicateDependencyError
             ("Cannot depend on '" +:+ text +:+ "' twice"))
  else
    let h1 :=
      <[self := set_dependencies s (<[name d := spec]> (dependencies s))]> h in
    d1 ← deref h1 spec;
    Ok (<[spec := set_dependents d1 (<[name s := self]> (dependents d1))]> h1).

(** ** [SpecLexer] *)

Inductive toktype := DEP | AT | COLON | COMMA | ON | OFF | PCT | EQ | ID.

#[global] Instance toktype_eq_dec : EqDecision toktype.
Proof. solve_decision. Defined.

Record token := Token { ttype : toktype; value : string }.

(** The one-character patterns of [SpecLexer.__init__]. *)
Definition punctuation (c : ascii) : option toktype :=
  if Ascii.eqb c "^" then Some DEP
  else if Ascii.eqb c "@" then Some AT
  else if Ascii.eqb c ":" then Some COLON
  else if Ascii.eqb c "," then Some COMMA
  else if Ascii.eqb c "+" then Some ON
  else if Ascii.eqb c "-" then Some OFF
  else if Ascii.eqb c "~" then Some OFF
  else if Ascii.eqb c "%" then Some PCT
  else if Ascii.eqb c "=" then Some EQ
  else None.

(** The characters an identifier goes on with: [[\w.-]]. *)
Definition is_id_char (c : ascii) : bool :=
  is_word c || Ascii.eqb c "." || Ascii.eqb c "-".

Definition flush (cur : option string) : list token :=
  match cur with Some w => [Token ID w] | None => [] end.

(** Modelled from the spec: the scanner of the missing module
    [spack.parse], run on the patterns of [SpecLexer]: at each position
    the first pattern that matches wins, an identifier [\w[\w.-]*] is
    taken as long as it goes, white space is skipped, and any other
    character is a syntax error.  [cur] is the identifier being read. *)
Fixpoint lex (cur : option string) (s : string) : result (list token) :=
  match s with
  | EmptyString => Ok (flush cur)
  | String c rest =>
      match cur with
      | Some w =>
          if is_id_char c then lex (Some (w +:+ String c "")) rest
          else
            match punctuation c with
            | Some ty =>
                toks ← lex None rest;
                Ok (Token ID w :: Token ty (String c "") :: toks)
            | None =>
                if is_space c then
                  toks ← lex None rest; Ok (Token ID w :: toks)
                else Raise (Exception SpecParseError "Invalid character")
            end
      | None =>
          match punctuation c with
          | Some ty => toks ← lex None rest; Ok (Token ty (String c "") :: toks)
          | None =>
              if is_word c then lex (Some (String c "")) rest
              else if is_space c then lex None rest
              else Raise (Exception SpecParseError "Invalid character")
          end
      end
  end.


(** ** [SpecParser]

    The parser object holds the tokens still to read ([self.next] is the
    first of them) and the token accepted last ([self.token]); the
    methods below take the tokens to read and return, with their result,
    the tokens left. *)

Abbreviation tokens := (list token).

(** Modelled from the spec: [Parser.accept] of the missing module
    [spack.parse]: take the next token when it has the given type. *)
Definition accept (ty : toktype) (toks : tokens) : option (string * tokens) :=
  match toks with
  | t :: rest => if bool_decide (ttype t = ty) then Some (value t, rest) else None
  | [] => None
  end.

Definition parse_error {A} (msg : string) : result A :=
  Raise (Exception ParseError msg).

(** Modelled from the spec: [Parser.expect] of the missing module
    [spack.parse]: the next token must have the given type. *)
Definition expect (ty : toktype) (toks : tokens) : result (string * tokens) :=
  match accept ty toks with
  | Some r => Ok r
  | None =>
      match toks with
      | [] => parse_error "Unexpected end of input"
      | _ => parse_error "Unexpected token"
      end
  end.

(** The loops of the parser read at least one token in each round; they
    are run for at most as many rounds as there are tokens, plus one. *)
Definition loop_bound_error : exn :=
  Exception RuntimeError "loop bound".

Definition str_truthy (s : option string) : bool :=
  match s with Some v => negb (String.eqb v "") | None => false end.

Definition check_identifier (v : string) : result unit :=
  if string_contains "." v then parse_error "Identifier cannot contain '.'"
  else Ok ().

Definition to_version (s : option string) : option Version.t :=
  if str_truthy s then Version.Version <$> s else None.

Definition version (toks : tokens) : result (VersionList.elem * tokens) :=
  let '(start, toks1) :=
    match accept ID toks with
    | Some (v, r) => (Some v, r)
    | None => (None, toks)
    end in
  match accept COLON toks1 with
  | Some (_, toks2) =>
      let '(end_, toks3) :=
        match accept ID toks2 with
        | Some (v, r) => (Some v, r)
        | None => (None, toks2)
        end in
      Ok (VersionList.Range (to_version start) (to_version end_), toks3)
  | None =>
      match to_version start with
      | Some v => Ok (VersionList.Point v, toks1)
      | None => parse_error "Invalid version specifier"
      end
  end.

Fixpoint version_list_rest (rounds : nat) (vlist : list VersionList.elem)
    (toks : tokens) : result (list VersionList.elem * tokens) :=
  match rounds with
  | O => Raise loop_bound_error
  | S rounds' =>
      match accept COMMA toks with
      | Some (_, toks1) =>
          '(v, toks2) ← version toks1;
          version_list_rest rounds' (vlist ++ [v]) toks2
      | None => Ok (vlist, toks)
      end
  end.

Definition version_list (toks : tokens)
  : result (list VersionList.elem * tokens) :=
  '(v, toks1) ← version toks;
  version_list_rest (S (List.length toks1)) [v] toks1.

Definition parse_variant (toks : tokens) : result (string * tokens) :=
  '(v, toks1) ← expect ID toks;
  _ ← check_identifier v;
  Ok (v, toks1).

Definition parse_architecture (toks : tokens) : result (string * tokens) :=
  expect ID toks.

Definition parse_compiler (toks : tokens) : result (Compiler.t * tokens) :=
  '(v, toks1) ← expect ID toks;
  _ ← check_identifier v;
  let compiler := Compiler.new v in
  match accept AT toks1 with
  | Some (_, toks2) =>
      '(vlist, toks3) ← version_list toks2;
      Ok (foldl Compiler._add_version compiler vlist, toks3)
  | None =>
      Ok ({| Compiler.name := v; Compiler.versions := VersionList.any |},
          toks1)
  end.

(** One round of the [while self.next:] loop of [SpecParser.spec]:
    [None] is the [break]. *)
Definition spec_clause (spec : Spec) (added_version : bool) (toks : tokens)
  : result (option (Spec * bool * tokens)) :=
  match accept AT toks with
  | Some (_, toks1) =>
      '(vlist, toks2) ← version_list toks1;
      Ok (Some (foldl _add_version spec vlist, true, toks2))
  | None =>
  match accept ON toks with
  | Some (_, toks1) =>
      '(v, toks2) ← parse_variant toks1;
      spec' ← _add_variant spec v true;
      Ok (Some (spec', added_version, toks2))
  | None =>
  match accept OFF toks with
  | Some (_, toks1) =>
      '(v, toks2) ← parse_variant toks1;
      spec' ← _add_variant spec v false;
      Ok (Some (spec', added_version, toks2))
  | None =>
  match accept PCT toks with
  | Some (_, toks1) =>
      '(c, toks2) ← parse_compiler toks1;
      spec' ← _set_compiler spec c;
      Ok (Some (spec', added_version, toks2))
  | None =>
  match accept EQ toks with
  | Some (_, toks1) =>
      '(a, toks2) ← parse_architecture toks1;
      spec' ← _set_architecture spec a;
      Ok (Some (spec', added_version, toks2))
  | None => Ok None
  end end end end end.

Fixpoint spec_loop (rounds : nat) (spec : Spec) (added_version : bool)
    (toks : tokens) : result (Spec * bool * tokens) :=
  match rounds with
  | O => Raise loop_bound_error
  | S rounds' =>
      match toks with
      | [] => Ok (spec, added_version, toks)
      | _ =>
          r ← spec_clause spec added_version toks;
          match r with
          | Some (spec', added', toks') => spec_loop rounds' spec' added' toks'
          | None => Ok (spec, added_version, toks)
          end
      end
  end.

(** [SpecParser.spec]: [n] is the value of the identifier accepted just
    before the call. *)
Definition parse_spec (n : string) (toks : tokens) : result (Spec * tokens) :=
  _ ← check_identifier n;
  '(spec, added_version, toks1) ←
    spec_loop (S (List.length toks)) (new_Spec n) false toks;
  let spec' : Spec :=
    if (added_version : bool) then spec
    else set_versions spec VersionList.any in
  Ok (spec', toks1).

(** The [while self.next:] loop of [SpecParser.do_parse]; a spec the
    parser has finished becomes an object of the store. *)
Fixpoint do_parse_loop (rounds : nat) (h : heap) (specs : list loc)
    (toks : tokens) : result (list loc * heap) :=
  match rounds with
  | O => Raise loop_bound_error
  | S rounds' =>
      match toks with
      | [] => Ok (specs, h)
      | _ =>
          match accept ID toks with
          | Some (n, toks1) =>
              '(spec, toks2) ← parse_spec n toks1;
              let '(l, h1) := alloc h spec in
              do_parse_loop rounds' h1 (specs ++ [l]) toks2
          | None =>
              match accept DEP toks with
              | Some (_, toks1) =>
                  match last specs with
                  | None => parse_error "Dependency has no package"
                  | Some parent =>
                      '(n, toks2) ← expect ID toks1;
                      '(spec, toks3) ← parse_spec n toks2;
                      let '(l, h1) := alloc h spec in
                      h2 ← _add_dependency h1 parent l;
                      do_parse_loop rounds' h2 specs toks3
                  end
              | None => parse_error "Unexpected token"
              end
          end
      end
  end.

(** [except spack.parse.ParseError, e: raise SpecParseError(e)] *)
Definition do_parse (h : heap) (toks : tokens) : result (list loc * heap) :=
  match do_parse_loop (S (List.length toks)) h [] toks with
  | Raise e =>
      if issubclass (class_of e) ParseError then
        match e with
        | Exception _ msg => Raise (Exception SpecParseError msg)
        | _ => Raise e
        end
      else Raise e
  | r => r
  end.

(** [SpecParser().parse(string)], which is also [spack.spec.parse]: the
    new objects are added to the store. *)
Definition parse (h : heap) (text : string) : result (list loc * heap) :=
  toks ← lex None text;
  do_parse h toks.


(** ** [Spec._dup] and [Spec.copy] *)

(** Modelled from the spec: [HashableMap.copy] of the missing module
    [spack.util.lang], on a [DependencyMap]: copies are deep, the copy
    of the map holds a copy of every value. *)
Fixpoint copy_values (copy_one : heap -> loc -> result (loc * heap))
    (items : list (string * loc)) (h : heap)
  : result (DependencyMap * heap) :=
  match items with
  | [] => Ok (∅, h)
  | (key, v) :: rest =>
      '(v', h1) ← copy_one h v;
      '(m, h2) ← copy_values copy_one rest h1;
      Ok (<[key := v']> m, h2)
  end.

(** [clone = Spec.__new__(Spec); clone._dup(self, **kwargs); return clone] *)
Definition copy_with (dup : heap -> loc -> loc -> result heap)
    (h : heap) (self : loc) : result (loc * heap) :=
  let '(clone, h1) := alloc h (new_Spec "") in
  h2 ← dup h1 clone self;
  Ok (clone, h2).

Fixpoint _dup (depth_left : nat) (copy_deps : bool) (h : heap)
    (self other : loc) : result heap :=
  match depth_left with
  | O => Raise recursion_error
  | S depth_left' =>
      o ← deref h other;
      '(deps, h1) ←
        (if copy_deps then
           copy_values (copy_with (_dup depth_left' true))
                       (map_to_list (dependencies o)) h
         else Ok (∅, h));
      Ok (<[self := {| name := name o;
                       versions := versions o;
                       variants := VariantMap.copy (variants o);
                       architecture := architecture o;
                       compiler := Compiler.copy <$> compiler o;
                       dependents := ∅;
                       dependencies := deps |}]> h1)
  end.

(** [self.copy(dependencies=copy_deps)] *)
Definition copy (depth_left : nat) (copy_deps : bool) (h : heap) (self : loc)
  : result (loc * heap) :=
  copy_with (_dup depth_left copy_deps) h self.

(** ** The package registry

    [spec.py] consults the module [spack.packages], which is not part of
    the sources at hand, through [packages.exists] and through provider
    indexes.  The methods of [Spec] are stated over this interface. *)

Class Packages := {
  (** [packages.exists(name)] *)
  pkg_exists : string -> bool;
  ProviderIndex : Type;
  (** [packages.ProviderIndex(specs, restrict=True)] *)
  new_ProviderIndex : heap -> list loc -> ProviderIndex;
  (** [name in index] *)
  index_contains : string -> ProviderIndex -> bool;
  (** [index.providers_for(vspec)] *)
  providers_for : ProviderIndex -> Spec -> list loc;
  (** [self_index.satisfies(other_index)] *)
  index_satisfies : ProviderIndex -> ProviderIndex -> bool;
}.

(** [Spec.__getitem__]: the first node of the traversal with that name *)
Fixpoint find_named (h : heap) (n : string) (nodes : list loc) : result loc :=
  match nodes with
  | [] => Raise (Exception KeyError ("No spec with name " +:+ n))
  | l :: rest =>
      s ← deref h l;
      if bool_decide (name s = n) then Ok l else find_named h n rest
  end.

Definition getitem (depth_left : nat) (h : heap) (self : loc) (n : string)
  : result loc :=
  nodes ← traverse depth_left h self;
  find_named h n nodes.

(** [set(s.name for s in self.preorder_traversal(root=False))] *)
Definition dep_names (depth_left : nat) (h : heap) (self : loc)
  : result (gset string) :=
  nodes ← traverse_deps depth_left h self;
  specs ← deref_all h nodes;
  Ok (list_to_set (map name specs)).

Definition common_dependencies (depth_left : nat) (h : heap)
    (self other : loc) : result (gset string) :=
  common ← dep_names depth_left h self;
  theirs ← dep_names depth_left h other;
  Ok (common ∩ theirs).

Definition dep_difference (depth_left : nat) (h : heap)
    (self other : loc) : result (gset string) :=
  mine ← dep_names depth_left h self;
  theirs ← dep_names depth_left h other;
  Ok (mine ∖ theirs).

Section spec_methods.
Context `{Packages}.

(** [Spec.virtual] *)
Definition virtual (s : Spec) : bool := negb (pkg_exists (name s)).

Definition virtual_dependencies (depth_left : nat) (h : heap) (self : loc)
  : result (list Spec) :=
  nodes ← traverse depth_left h self;
  specs ← deref_all h nodes;
  Ok (filter (fun s => virtual s = true) specs).

(** ** [Spec.satisfies]

    [_autospec] returns a [Spec] argument as it is; the methods here are
    given [Spec] objects. *)

(** [check(attribute, op)] of [satisfies]: [not s or not o or op(s, o)] *)
Definition check {A} (truthy : A -> bool) (op : A -> A -> bool) (s o : A)
  : bool :=
  negb (truthy s) || negb (truthy o) || op s o.

(** The attributes [satisfies] compares before it looks at the
    dependencies: versions, variants, compiler, architecture. *)
Definition satisfies_attributes (s o : Spec) : bool :=
  check VersionList.truthy VersionList.satisfies (versions s) (versions o)
  && check VariantMap.truthy VariantMap.satisfies (variants s) (variants o)
  && match compiler s, compiler o with
     | Some a, Some b => Compiler.satisfies a b
     | _, _ => true
     end
  && check arch_truthy (fun a b => bool_decide (a = b))
           (architecture s) (architecture o).

(** [for name in self.common_dependencies(other):
       if not self[name].satisfies(other[name]): return False] *)
Fixpoint all_satisfy (sat : loc -> loc -> result bool)
    (get_self get_other : string -> result loc) (names : list string)
  : result bool :=
  match names with
  | [] => Ok true
  | n :: rest =>
      a ← get_self n;
      b ← get_other n;
      r ← sat a b;
      if (r : bool) then all_satisfy sat get_self get_other rest
      else Ok false
  end.

(** The body of [satisfies_dependencies]; [sat] is [Spec.satisfies] with
    its default [deps=True]. *)
Definition satisfies_dependencies_with (sat : loc -> loc -> result bool)
    (depth_left : nat) (h : heap) (self other : loc) : result bool :=
  s ← deref h self;
  o ← deref h other;
  if negb (dict_truthy (dependencies s)) || negb (dict_truthy (dependencies o))
  then Ok true
  else
    common ← common_dependencies depth_left h self other;
    first_order ← all_satisfy sat (getitem depth_left h self)
                     (getitem depth_left h other) (elements common);
    if negb first_order then Ok false
    else
      self_nodes ← traverse depth_left h self;
      other_nodes ← traverse depth_left h other;
      let self_index := new_ProviderIndex h self_nodes in
      let other_index := new_ProviderIndex h other_nodes in
      if negb (index_satisfies self_index other_index) then Ok false
      else
        mine ← virtual_dependencies depth_left h self;
        if existsb (fun v => index_contains (name v) other_index
                             && bool_decide (providers_for other_index v = []))
                   mine
        then Ok false
        else
          theirs ← virtual_dependencies depth_left h other;
          if existsb (fun v => index_contains (name v) self_index
                               && bool_decide (providers_for self_index v = []))
                     theirs
          then Ok false
          else Ok true.

Fixpoint satisfies (depth_left : nat) (h : heap) (self other : loc)
    (deps : bool) : result bool :=
  match depth_left with
  | O => Raise recursion_error
  | S depth_left' =>
      s ← deref h self;
      o ← deref h other;
      if negb (bool_decide (name s = name o)) then Ok false
      else if negb (satisfies_attributes s o) then Ok false
      else if deps then
        satisfies_dependencies_with
          (fun a b => satisfies depth_left' h a b true)
          depth_left' h self other
      else Ok true
  end.

Definition satisfies_dependencies (depth_left : nat) (h : heap)
    (self other : loc) : result bool :=
  satisfies_dependencies_with (fun a b => satisfies depth_left h a b true)
    depth_left h self other.

(** ** [Spec.constrain] *)

(** [for v in other.variants: if v in self.variants and
    self.variants[v].enabled != other.variants[v].enabled: raise ...] *)
Fixpoint variant_conflict (mine : VariantMap.t)
    (theirs : list (string * Variant.t)) : option (Variant.t * Variant.t) :=
  match theirs with
  | [] => None
  | (v, theirs_v) :: rest =>
      match mine !! v with
      | Some mine_v =>
          if negb (Bool.eqb (Variant.enabled mine_v) (Variant.enabled theirs_v))
          then Some (mine_v, theirs_v)
          else variant_conflict mine rest
      | None => variant_conflict mine rest
      end
  end.

(** [self.constrain(other, deps=False)]: everything before
    [if kwargs.get('deps', True)].

    A spec of the store holds its versions, its variants and its
    compiler by value.  In Python [self.compiler = other.compiler] lets
    the two specs share one [Compiler] object, and
    [Compiler.constrain], [VersionList.intersect] and [dict.update]
    write to objects in place, so that a later [constrain] of one spec
    also shows in a spec that shares the object.  The store does not
    follow that: what is stated of [constrain] is stated of [self], and
    of the name, architecture, dependencies and dependents of other
    objects. *)
Definition constrain_node (h : heap) (self other : loc) : result heap :=
  s ← deref h self;
  o ← deref h other;
  if negb (bool_decide (name s = name o)) then
    raise (new_UnsatisfiableSpecNameError (PName (name s)) (PName (name o)))
  else if negb (VersionList.overlaps (versions s) (versions o)) then
    raise (new_UnsatisfiableVersionSpecError
             (PVersions (versions s)) (PVersions (versions o)))
  else
    match variant_conflict (variants s) (map_to_list (variants o)) with
    | Some (mine, theirs) =>
        raise (new_UnsatisfiableVariantSpecError
                 (PVariant mine) (PVariant theirs))
    | None =>
        _ ← match architecture s, architecture o return result unit with
            | Some a, Some b =>
                if negb (bool_decide (a = b)) then
                  raise (new_UnsatisfiableArchitectureSpecError
                           (PArchitecture a) (PArchitecture b))
                else Ok ()
            | _, _ => Ok ()
            end;
        c ← match compiler s, compiler o with
            | Some mine, Some theirs =>
                Some <$> Compiler_constrain mine theirs
            | None, theirs => Ok theirs
            | mine, None => Ok mine
            end;
        Ok (<[self := {| name := name s;
                         versions :=
                           VersionList.intersect (versions s) (versions o);
                         variants := variants o ∪ variants s;
                         architecture :=
                           if arch_truthy (architecture s)
                           then architecture s else architecture o;
                         compiler := c;
                         dependents := dependents s;
                         dependencies := dependencies s |}]> h)
    end.

Definition _constrain_dependencies (depth_left : nat) (h : heap)
    (self other : loc) : result heap :=
  s ← deref h self;
  o ← deref h other;
  if negb (dict_truthy (dependencies s)) || negb (dict_truthy (dependencies o))
  then Ok h
  else
    sat ← satisfies_dependencies depth_left h self other;
    if negb sat then
      raise (new_UnsatisfiableDependencySpecError (PSpec self) (PSpec other))
    else
      common ← common_dependencies depth_left h self other;
      h1 ← foldl (fun acc n =>
                    h' ← acc;
                    a ← getitem depth_left h' self n;
                    b ← getitem depth_left h' other n;
                    constrain_node h' a b)
                 (Ok h) (elements common);
      extra ← dep_difference depth_left h1 other self;
      foldl (fun acc n =>
               h' ← acc;
               b ← getitem depth_left h' other n;
               '(c, h'') ← copy depth_left true h' b;
               _add_dependency h'' self c)
            (Ok h1) (elements extra).

Definition constrain (depth_left : nat) (h : heap) (self other : loc)
    (deps : bool) : result heap :=
  h1 ← constrain_node h self other;
  if deps then _constrain_dependencies depth_left h1 self other else Ok h1.

End spec_methods.

(** ** [Spec.normalized] *)

(** [clone = self.copy(); clone.normalized(); return clone] *)
Fixpoint normalized (depth_left : nat) (h : heap) (self : loc)
  : result (loc * heap) :=
  match depth_left with
  | O => Raise recursion_error
  | S depth_left' =>
      '(clone, h1) ← copy depth_left' true h self;
      '(_, h2) ← normalized depth_left' h1 clone;
      Ok (clone, h2)
  end.

(** ** [Spec.__init__] *)

(** What the constructor can be given: a [Spec], a string, or an object
    of another type. *)
Inductive pyobject :=
| PySpec (l : loc)
| PyStr (s : string)
| PyOther.

(** [Spec(spec_like)], up to the loop over [dep_like]; the second
    component tells whether the constructor has returned already.

    For a string, Python takes the attributes of the spec the parser
    has made without copying them: the new object and the object of the
    parser share [dependents], [versions], [variants], [compiler] and
    [dependencies], and the dependencies go on referring to the object
    of the parser as their dependent.  Here the new object is allocated
    with the values of these attributes, and the object of the parser
    stays in the store; a later write through one of the two does not
    show in the other. *)
Definition Spec_init_head (depth_left : nat) (h : heap) (spec_like : pyobject)
  : result (loc * bool * heap) :=
  match spec_like with
  | PySpec other =>
      '(self, h1) ← copy depth_left true h other;
      Ok (self, true, h1)
  | PyOther => Raise (Exception TypeError "Can't make spec out of object")
  | PyStr text =>
      '(spec_list, h1) ← parse h text;
      if (1 <? List.length spec_list)%nat then
        Raise (Exception ValueError ("More than one spec in string: " +:+ text))
      else if (List.length spec_list <? 1)%nat then
        Raise (Exception ValueError ("String contains no specs: " +:+ text))
      else
        match spec_list with
        | other :: _ =>
            o ← deref h1 other;
            let '(self, h2) := alloc h1 o in
            Ok (self, false, h2)
        | [] => Raise (Exception ValueError "String contains no specs")
        end
  end.

(** [Spec(spec_like, *dep_like)] *)
Definition Spec_init (depth_left : nat) (h : heap) (spec_like : pyobject)
    (dep_like : list pyobject) : result (loc * heap) :=
  '(self, returned, h1) ← Spec_init_head depth_left h spec_like;
  if (returned : bool) then Ok (self, h1)
  else
    h2 ← foldl (fun acc dep =>
                  h' ← acc;
                  '(spec, h'') ←
                    match dep with
                    | PySpec l => Ok (l, h')
                    | _ =>
                        '(l, _, h'') ← Spec_init_head depth_left h' dep;
                        Ok (l, h'')
                    end;
                  _add_dependency h'' self spec)
               (Ok h1) dep_like;
    Ok (self, h2).

(** ** A package registry with provider indexes

    The module [spack.packages] is not part of the sources at hand; this
    instance of the interface follows the specification.  The packages
    declared are those of [test/mock_packages]. *)

(** Modelled from the spec: what a package declares with
    [provides(virtual_spec, when=condition_spec)]; the module
    [spack.packages] that holds the declarations is missing. *)
Record PackageDecl := {
  provided : list (Spec * option Spec);
}.

Abbreviation registry := (gmap string PackageDecl).

(** [a.satisfies(b, deps=False)] on two objects *)
Definition satisfies_node (a b : Spec) : bool :=
  bool_decide (name a = name b) && satisfies_attributes a b.

(** An entry of a provider index: the virtual spec a candidate provides,
    the candidate (a reference and the object it refers to). *)
Record provider_entry := {
  entry_virtual : Spec;
  entry_provider : loc;
  entry_candidate : Spec;
}.

(** Modelled from the spec: the entries a candidate adds to a
    [ProviderIndex] of the missing module [spack.packages]: one for each
    [provides] of its package whose [when] clause is satisfied by the
    candidate's own spec; [restrict=True] intersects the provided range
    with the candidate's current versions. *)
Definition entries_of (reg : registry) (l : loc) (s : Spec)
  : list provider_entry :=
  match reg !! name s with
  | None => []
  | Some decl =>
      flat_map (fun pw : Spec * option Spec =>
                  let '(v, when) := pw in
                  if match when with
                     | Some w => satisfies_node s w
                     | None => true
                     end
                  then [{| entry_virtual :=
                             set_versions v
                               (VersionList.intersect (versions v) (versions s));
                           entry_provider := l;
                           entry_candidate := s |}]
                  else [])
               (provided decl)
  end.

(** Modelled from the spec: [ProviderIndex(specs, restrict=True)] of the
    missing module [spack.packages], built from a set of candidate
    specs. *)
Definition build_index (reg : registry) (h : heap) (nodes : list loc)
  : list provider_entry :=
  flat_map (fun l => match h !! l with
                     | Some s => entries_of reg l s
                     | None => []
                     end) nodes.

(** Modelled from the spec: [providers_for(vpkg)] of the missing module
    [spack.packages] returns the candidates whose declared virtual range
    satisfies the requested constraint. *)
Definition registry_providers_for (index : list provider_entry) (v : Spec)
  : list loc :=
  entry_provider <$>
    filter (fun e => satisfies_node (entry_virtual e) v = true) index.

Definition registry_index_contains (n : string) (index : list provider_entry)
  : bool :=
  existsb (fun e => bool_decide (name (entry_virtual e) = n)) index.

(** [Spec._cmp_key], the dependencies compared by the objects they refer
    to *)
Definition cmp_key_eqb (a b : Spec) : bool :=
  bool_decide ((name a, versions a, variants a, architecture a, compiler a,
                dependencies a)
               = (name b, versions b, variants b, architecture b, compiler b,
                  dependencies b)).

(** Modelled from the spec: [self_index.satisfies(other_index)] of the
    missing module [spack.packages]: for each virtual in both, the
    provider sets must overlap. *)
Definition registry_index_satisfies (a b : list provider_entry) : bool :=
  forallb (fun e =>
             let n := name (entry_virtual e) in
             negb (registry_index_contains n b)
             || existsb (fun x =>
                  existsb (fun y =>
                    bool_decide (name (entry_virtual x) = n)
                    && bool_decide (name (entry_virtual y) = n)
                    && cmp_key_eqb (entry_candidate x) (entry_candidate y)) b)
                  a)
          a.

Definition registry_packages (reg : registry) : Packages :=
  {| pkg_exists := fun n => bool_decide (is_Some (reg !! n));
     ProviderIndex := list provider_entry;
     new_ProviderIndex := build_index reg;
     index_contains := registry_index_contains;
     providers_for := registry_providers_for;
     index_satisfies := registry_index_satisfies |}.

(** The object a spec string denotes, for the declarations of packages. *)
Definition declared (text : string) : Spec :=
  match parse [] text with
  | Ok (l :: _, h) => default (new_Spec "") (h !! l)
  | _ => new_Spec ""
  end.

(** [test/mock_packages/mpich2.py]:
    [provides('mpi@:2.0')], [provides('mpi@:2.1', when='@1.1:')],
    [provides('mpi@:2.2', when='@1.2:')];
    [callpath.py] and [libdwarf.py] provide nothing. *)
Definition mock_registry : registry :=
  {[ "mpich2" :=
       {| provided :=
            [ (declared "mpi@:2.0", None);
              (declared "mpi@:2.1", Some (declared "mpich2@1.1:"));
              (declared "mpi@:2.2", Some (declared "mpich2@1.2:")) ] |};
     "callpath" := {| provided := [] |};
     "libdwarf" := {| provided := [] |} ]}.

Definition mock_packages : Packages := registry_packages mock_registry.

(** Two specs made from strings, in one store. *)
Definition two_specs (x y : string) : result (loc * loc * heap) :=
  '(a, h1) ← Spec_init 0 [] (PyStr x) [];
  '(b, h2) ← Spec_init 0 h1 (PyStr y) [];
  Ok (a, b, h2).

(** ** Notions for stating the properties *)

(** An edge of the DAG: [c] is a dependency of the object at [l]. *)
Definition edge (h : heap) (l c : loc) : Prop :=
  exists s n, h !! l = Some s /\ dependencies s !! n = Some c.

(** Every dependency refers to an object of the store. *)
Definition closed (h : heap) : Prop :=
  forall l c, edge h l c -> is_Some (h !! c).

(** The store is acyclic: the edges go down along a rank. *)
Definition acyclic (h : heap) (rank : loc -> nat) : Prop :=
  forall l c, edge h l c -> rank c < rank l.

(** A check of [closed] and [acyclic] that can be computed. *)
Definition dag_check (h : heap) (rank : loc -> nat) : bool :=
  forallb (fun ls : loc * Spec =>
             forallb (fun nc : string * loc =>
                        bool_decide (is_Some (h !! nc.2))
                        && (rank nc.2 <? rank ls.1)%nat)
                     (map_to_list (dependencies ls.2)))
          (imap pair h).

Section traversal_notions.
Context {K : Type} `{Countable K}.
Variable key_fun : loc -> Spec -> K.
Variable yield_root : bool.
Variable h : heap.

(** The key of the object at a reference. *)
Definition key_of (l : loc) : K :=
  key_fun l (default (new_Spec "") (h !! l)).

Definition keys (ys : list (nat * loc)) : list K := map key_of ys.*2.

(** The key tells the objects of the store apart. *)
Definition key_injective : Prop :=
  forall l1 l2, is_Some (h !! l1) -> is_Some (h !! l2) ->
                key_of l1 = key_of l2 -> l1 = l2.

(** The key tells the nodes of the DAG under [root] apart. *)
Definition key_injective_below (root : loc) : Prop :=
  forall l1 l2, rtc (edge h) root l1 -> rtc (edge h) root l2 ->
                key_of l1 = key_of l2 -> l1 = l2.

(** What a call of the traversal with [cover='nodes'] leaves: [ys] is
    what it yields and [V'] the visited set, for a call at depth [d] on
    [self] with the set [visited]. *)
Definition visit_post (visited : gset K) (d : nat) (self : loc)
    (ys : list (nat * loc)) (V' : gset K) : Prop :=
  visited ⊆ V'
  /\ key_of self ∈ V'
  /\ (forall dl, dl ∈ ys ->
        is_Some (h !! dl.2) /\ rtc (edge h) self dl.2
        /\ (key_of dl.2 ∉ visited) /\ key_of dl.2 ∈ V')
  /\ NoDup (keys ys)
  /\ (forall k, k ∈ V' ->
        k ∈ visited \/ k ∈ keys ys
        \/ (k = key_of self /\ (yield_root || (0 <? d)%nat) = false))
  /\ (key_of self ∉ visited -> (yield_root || (0 <? d)%nat) = true ->
      head ys = Some (d, self))
  /\ ((yield_root || (0 <? d)%nat) = false ->
      forall dl, dl ∈ ys -> key_of dl.2 <> key_of self)
  /\ (forall root,
        rtc (edge h) root self -> key_injective_below root ->
        forall x c, rtc (edge h) root x ->
                    key_of x ∈ V' -> key_of x ∉ visited ->
                    edge h x c -> key_of c ∈ V').

(** The same for the loop over the children [cs] of a node. *)
Definition children_post (visited : gset K) (cs : list loc)
    (ys : list (nat * loc)) (V' : gset K) : Prop :=
  visited ⊆ V'
  /\ (forall c, c ∈ cs -> key_of c ∈ V')
  /\ (forall dl, dl ∈ ys ->
        is_Some (h !! dl.2) /\ (exists c, c ∈ cs /\ rtc (edge h) c dl.2)
        /\ (key_of dl.2 ∉ visited) /\ key_of dl.2 ∈ V')
  /\ NoDup (keys ys)
  /\ (forall k, k ∈ V' -> k ∈ visited \/ k ∈ keys ys)
  /\ (forall root,
        (forall c, c ∈ cs -> rtc (edge h) root c) ->
        key_injective_below root ->
        forall x c, rtc (edge h) root x ->
                    key_of x ∈ V' -> key_of x ∉ visited ->
                    edge h x c -> key_of c ∈ V').

End traversal_notions.

(** The diamond [a -> b, c; b -> d; c -> d]. *)
Definition diamond : heap :=
  [ set_dependencies (new_Spec "a") {[ "b" := 1; "c" := 2 ]};
    set_dependencies (new_Spec "b") {[ "d" := 3 ]};
    set_dependencies (new_Spec "c") {[ "d" := 3 ]};
    new_Spec "d" ].

Definition diamond_rank (l : loc) : nat :=
  match l with 0 => 2 | 1 => 1 | 2 => 1 | _ => 0 end.



(** Invariant 2 of the data model on the DAG under [root]:
    for every edge [A -> B], [B.dependents[A.name]] is [A]. *)
Definition back_references (h : heap) (root : loc) : Prop :=
  forall a b sa sb,
    rtc (edge h) root a -> edge h a b ->
    h !! a = Some sa -> h !! b = Some sb ->
    dependents sb !! name sa = Some a.

(** The same for all the edges of the store, as a check that can be
    computed. *)
Definition back_references_check (h : heap) : bool :=
  forallb (fun ls : loc * Spec =>
             forallb (fun nc : string * loc =>
                        match h !! nc.2 with
                        | Some sb =>
                            bool_decide (dependents sb !! name ls.2 = Some ls.1)
                        | None => true
                        end)
                     (map_to_list (dependencies ls.2)))
          (imap pair h).

(** Every [dependents] entry of the DAG under [root] refers to a node of
    that DAG. *)
Definition dependents_within (h : heap) (root : loc) : Prop :=
  forall b sb n a,
    rtc (edge h) root b -> h !! b = Some sb ->
    dependents sb !! n = Some a -> rtc (edge h) root a.

(** What [format] writes for the default format string: the name, the
    versions, the compiler with its versions, the variants and the
    architecture of a node. *)
Definition node_format (s : Spec) : string :=
  name s
  +:+ (if VersionList.truthy (versions s)
          && negb (bool_decide (versions s = VersionList.any))
       then "@" +:+ VersionList.str (versions s) else "")
  +:+ match compiler s with
      | Some c => "%" +:+ Compiler.name c
      | None => ""
      end
  +:+ match compiler s with
      | Some c =>
          if VersionList.truthy (Compiler.versions c)
          then "@" +:+ VersionList.str (Compiler.versions c) else ""
      | None => ""
      end
  +:+ (if VariantMap.truthy (variants s)
       then VariantMap.str (variants s) else "")
  +:+ match architecture s with
      | Some a => if arch_truthy (Some a) then "=" +:+ a else ""
      | None => ""
      end.

(** The format string the specification names for [str(spec)]. *)
Definition canonical_format : string := "$_$@$+$=".

(** [str(spec)] in the words of the specification: [format] with
    [canonical_format] of the root followed, in sorted order of the
    names, by [^] and the same format of each dependency. *)
Definition specified_str (depth_left : nat) (h : heap) (self : loc)
  : result string :=
  s ← deref h self;
  '(ys, _) ← preorder_traversal by_name false "nodes" depth_left h ∅ 0 self;
  deps ← deref_all h (ys.*2);
  dep_string ←
    foldr (fun dep acc =>
             f ← format no_sha1 (Spec_str no_sha1 depth_left h) dep
                   canonical_format;
             rest ← acc;
             Ok ("^" +:+ f +:+ rest))
          (Ok "") (merge_sort name_le deps);
  root ← format no_sha1 (Spec_str no_sha1 depth_left h) s canonical_format;
  Ok (root +:+ dep_string).

(** A spec with a compiler and two dependencies, as the parser builds
    it: the root is the object 0, its dependencies are 1 and 2. *)
Definition mpileaks_heap : heap :=
  match parse [] "mpileaks%intel@12.1 ^mpich2@1.5 ^callpath" with
  | Ok (_, h) => h
  | Raise _ => []
  end.

Definition flat_rank (l : loc) : nat :=
  match l with 0 => 1 | _ => 0 end.

(** The same spec made by the constructor: the store holds the object
    of the parser, its two dependencies and, last, the new [Spec]. *)
Definition constructed_mpileaks : heap :=
  match Spec_init 0 [] (PyStr "mpileaks%intel@12.1 ^mpich2@1.5 ^callpath") []
  with
  | Ok (_, h) => h
  | Raise _ => []
  end.

Definition constructed_rank (l : loc) : nat :=
  match l with 0 => 1 | 3 => 1 | _ => 0 end.

(** The version ranges of a node are not empty: its own, and those of
    its compiler. *)
Definition versions_ok (x : Spec) : Prop :=
  VersionList.ok (versions x) = true
  /\ forall c, compiler x = Some c -> VersionList.ok (Compiler.versions c) = true.

(** [b] is below [a] in the DAG, at least one edge away. *)
Definition proper_descendant (h : heap) (a b : loc) : Prop :=
  exists c, edge h a c /\ rtc (edge h) c b.

(** No node below [a] has the name of [a]. *)
Definition names_differ_below (h : heap) (a : loc) : Prop :=
  forall b x y, proper_descendant h a b ->
                h !! a = Some x -> h !! b = Some y -> name y <> name x.

(** The cross-check of virtual dependencies and providers that
    [satisfies_dependencies] makes, for the DAG under [a] against
    itself: the index of its nodes satisfies itself, and every virtual
    node whose name the index knows has a provider in it. *)
Definition provider_consistent `{Packages} (h : heap) (rank : loc -> nat)
    (a : loc) : Prop :=
  forall nodes,
    traverse (S (rank a)) h a = Ok nodes ->
    let index := new_ProviderIndex h nodes in
    index_satisfies index index = true
    /\ forall l v, l ∈ nodes -> h !! l = Some v -> virtual v = true ->
                   index_contains (name v) index = true ->
                   providers_for index v <> [].

(** The store of the spec ["callpath ^mpi@3: ^mpich2"]: the root is the
    object 0. *)
Definition callpath_heap : heap :=
  match parse [] "callpath ^mpi@3: ^mpich2" with
  | Ok (_, h) => h
  | Raise _ => []
  end.

(** The same with a requirement on [mpi] that [mpich2] provides. *)
Definition callpath_heap_ok : heap :=
  match parse [] "callpath ^mpi@:2.0 ^mpich2" with
  | Ok (_, h) => h
  | Raise _ => []
  end.

(** Checks of the three conditions above that can be computed, over all
    the nodes of a store. *)
Definition versions_check (h : heap) : bool :=
  forallb (fun x =>
             VersionList.ok (versions x)
             && match compiler x with
                | Some c => VersionList.ok (Compiler.versions c)
                | None => true
                end) h.

Definition names_check (h : heap) (rank : loc -> nat) : bool :=
  forallb (fun ax : loc * Spec =>
             match traverse_deps (S (rank ax.1)) h ax.1 with
             | Ok deps =>
                 forallb (fun l =>
                            match h !! l with
                            | Some y => negb (bool_decide (name y = name ax.2))
                            | None => true
                            end) deps
             | Raise _ => false
             end)
          (imap pair h).

Definition providers_check `{Packages} (h : heap) (rank : loc -> nat) : bool :=
  forallb (fun ax : loc * Spec =>
             negb (dict_truthy (dependencies ax.2))
             || match traverse (S (rank ax.1)) h ax.1 with
                | Ok nodes =>
                    let index := new_ProviderIndex h nodes in
                    index_satisfies index index
                    && forallb (fun l =>
                         match h !! l with
                         | Some v =>
                             negb (virtual v
                                   && index_contains (name v) index
                                   && bool_decide (providers_for index v = []))
                         | None => true
                         end) nodes
                | Raise _ => false
                end)
          (imap pair h).

(** The store of the spec ["a ^a"], a package that depends on a package
    of its own name. *)
Definition self_named_heap : heap :=
  match parse [] "a ^a" with
  | Ok (_, h) => h
  | Raise _ => []
  end.

(** What a copy adds to a store [h0]: the objects of [h0] stay as they
    are, and every object added has an empty [dependents] and
    dependencies among the objects added. *)
Definition fresh_region (h0 h' : heap) : Prop :=
  List.length h0 <= List.length h'
  /\ (forall l, l < List.length h0 -> h' !! l = h0 !! l)
  /\ (forall l, List.length h0 <= l < List.length h' ->
        exists y, h' !! l = Some y /\ dependents y = ∅
                  /\ forall n c, dependencies y !! n = Some c ->
                                 List.length h0 <= c < List.length h').

(** A method of the parser that reads at least one token when it
    returns, and that does not stop at the bound of a loop. *)
Definition consumes {A} (toks : tokens) (r : result (A * tokens)) : Prop :=
  match r with
  | Ok (_, rest) => List.length rest < List.length toks
  | Raise e => e <> loop_bound_error
  end.

(** The same for a method that may return without reading. *)
Definition keeps {A} (toks : tokens) (r : result (A * tokens)) : Prop :=
  match r with
  | Ok (_, rest) => List.length rest <= List.length toks
  | Raise e => e <> loop_bound_error
  end.

(** ** Notions for what the parser has read *)

(** The spec the loop of [SpecParser.spec] is building, its flag and
    the tokens left when the loop has read [k] clauses; [None] when the
    loop ends or raises before that. *)
Fixpoint after_clauses (k : nat) (spec : Spec) (added_version : bool)
    (toks : tokens) : option (Spec * bool * tokens) :=
  match k with
  | O => Some (spec, added_version, toks)
  | S k' =>
      match toks with
      | [] => None
      | _ =>
          match spec_clause spec added_version toks with
          | Ok (Some (spec', added', toks')) =>
              after_clauses k' spec' added' toks'
          | _ => None
          end
      end
  end.

(** One round of the loop of [SpecParser.do_parse], on tokens that are
    left: the store, the specs and the tokens after it. *)
Definition parse_round (h : heap) (specs : list loc) (toks : tokens)
  : result (heap * list loc * tokens) :=
  match accept ID toks with
  | Some (n, toks1) =>
      '(spec, toks2) ← parse_spec n toks1;
      let '(l, h1) := alloc h spec in
      Ok (h1, specs ++ [l], toks2)
  | None =>
      match accept DEP toks with
      | Some (_, toks1) =>
          match last specs with
          | None => parse_error "Dependency has no package"
          | Some parent =>
              '(n, toks2) ← expect ID toks1;
              '(spec, toks3) ← parse_spec n toks2;
              let '(l, h1) := alloc h spec in
              h2 ← _add_dependency h1 parent l;
              Ok (h2, specs, toks3)
          end
      | None => parse_error "Unexpected token"
      end
  end.

(** The store, the specs and the tokens left when the loop of
    [do_parse] has gone round [k] times; [None] when it ends or raises
    before that. *)
Fixpoint after_rounds (k : nat) (h : heap) (specs : list loc)
    (toks : tokens) : option (heap * list loc * tokens) :=
  match k with
  | O => Some (h, specs, toks)
  | S k' =>
      match toks with
      | [] => None
      | _ =>
          match parse_round h specs toks with
          | Ok (h', specs', toks') => after_rounds k' h' specs' toks'
          | Raise _ => None
          end
      end
  end.

(** The tokens left are at the start of a spec: a name, or [^] and a
    name when there is a spec the dependency belongs to.  The result is
    the name and the tokens [SpecParser.spec] is called on. *)
Definition spec_begins (specs : list loc) (toks : tokens)
  : option (string * tokens) :=
  match toks with
  | Token ID n :: ts => Some (n, ts)
  | Token DEP _ :: Token ID n :: ts =>
      if last specs then Some (n, ts) else None
  | _ => None
  end.

(** The tokens of the lexer: an identifier is not empty. *)
Definition lexed (toks : tokens) : Prop :=
  Forall (fun t => ttype t = ID -> value t <> "") toks.
(** * More of the code *)

(** ** [index_specs] *)

(** One round of the loop of [index_specs]: [spec_dict[spec.name]] is
    made an empty list when the name is new, then the spec is appended
    to it. *)
Definition index_specs_step (spec_dict : gmap string (list loc))
    (l : loc) (s : Spec) : gmap string (list loc) :=
  let spec_dict1 :=
    if negb (bool_decide (is_Some (spec_dict !! name s)))
    then <[name s := []]> spec_dict else spec_dict in
  <[name s := default [] (spec_dict1 !! name s) ++ [l]]> spec_dict1.

(** [index_specs(specs)]: a dict of lists of references, keyed by the
    name of the specs. *)
Definition index_specs (h : heap) (specs : list loc)
  : result (gmap string (list loc)) :=
  foldl (fun acc l =>
           spec_dict ← acc;
           s ← deref h l;
           Ok (index_specs_step spec_dict l s))
        (Ok ∅) specs.

(** ** [spack/util/compression.py] *)

Definition PRE_EXTS : list string := ["tar"].
Definition EXTS : list string := ["gz"; "bz2"; "xz"; "Z"; "zip"; "tgz"].

(** [itertools.product(a, b)], each pair as the list [join] is given *)
Definition product (a b : list string) : list (list string) :=
  flat_map (fun x => map (fun y => [x; y]) b) a.

Definition ALLOWED_ARCHIVE_TYPES : list string :=
  map (join ".") (product PRE_EXTS EXTS) ++ EXTS.

(** [s.endswith(t)]: [t] is [s] or the end of the rest of [s]. *)
Fixpoint endswith (s t : string) : bool :=
  String.eqb s t
  || match s with
     | EmptyString => false
     | String _ rest => endswith rest t
     end.

(** [any(path.endswith(t) for t in ALLOWED_ARCHIVE_TYPES)] *)
Definition allowed_archive (path : string) : bool :=
  existsb (endswith path) ALLOWED_ARCHIVE_TYPES.

(** ** [hline] of [spack/cmd/find.py] *)

(** [s * n] on a string: no copy at all when [n] is not positive. *)
Definition repeat_str (s : string) (n : Z) : string :=
  concat_strings (replicate (Z.to_nat n) s).

Section hline.
(** [cescape] and [cwrite(s, stream=out, color=True)] of the module
    [spack.color], which is not part of the sources at hand: what
    [cwrite] puts on the stream for [s]. *)
Variable cescape : string -> string.
Variable cwrite : string -> string.

(** [hline(label, char, color)]; [terminal_cols] is the first component
    of what [spack.colify.get_terminal_size()] returns, [None] or a
    number. *)
Definition hline (terminal_cols : option Z) (label char color : string)
  : string :=
  let max_width := 64%Z in
  let cols :=
    match terminal_cols with
    | None => max_width
    | Some c => if (c =? 0)%Z then max_width else (c - 2)%Z
    end in
  let cols := Z.min max_width cols in
  let prefix := repeat_str char 2 +:+ " " +:+ label +:+ " " in
  let suffix := repeat_str char (cols - Z.of_nat (String.length prefix)) in
  if negb (String.eqb color "") then
    cwrite (repeat_str char 2 +:+ " " +:+ color +:+ cescape label +:+ "@. ")
    +:+ suffix
  else prefix +:+ suffix.

End hline.
(** ** Notions for the store the parser builds *)

(** Invariant 2 of the data model on the whole store: every edge
    [a -> b] has its back-reference, [b.dependents[a.name]] is [a]. *)
Definition back_referenced (h : heap) : Prop :=
  forall a b sa sb,
    edge h a b -> h !! a = Some sa -> h !! b = Some sb ->
    dependents sb !! name sa = Some a.

(** What the parser has added to a store [h0] when it has read the
    specs [specs]: the objects of [h0] are as they were; the specs are
    new objects without dependents; each of their dependencies is a new
    object that is not one of the specs, bears the name it is filed
    under, has no dependencies and has the spec as its only dependent;
    a new object that is not one of the specs has no dependencies. *)
Definition parsed (h0 h : heap) (specs : list loc) : Prop :=
  List.length h0 <= List.length h
  /\ (forall l, l < List.length h0 -> h !! l = h0 !! l)
  /\ NoDup specs
  /\ (forall l, l ∈ specs -> List.length h0 <= l < List.length h)
  /\ (forall l y, l ∈ specs -> h !! l = Some y ->
        dependents y = ∅
        /\ forall n c, dependencies y !! n = Some c ->
             List.length h0 <= c /\ (c ∉ specs)
             /\ exists yc, h !! c = Some yc /\ name yc = n
                  /\ dependencies yc = ∅
                  /\ dependents yc = {[name y := l]})
  /\ (forall c yc, List.length h0 <= c -> (c ∉ specs) -> h !! c = Some yc ->
        dependencies yc = ∅).

(** A check of [back_referenced] is [back_references_check].  The
    dependents of [spec] that bear the name [n] are all [self], as a
    check that can be computed. *)
Definition sole_dependent_check (h : heap) (spec : loc) (n : string)
    (self : loc) : bool :=
  forallb (fun ls : loc * Spec =>
             negb (existsb (fun nc : string * loc => bool_decide (nc.2 = spec))
                           (map_to_list (dependencies ls.2))
                   && bool_decide (name ls.2 = n))
             || bool_decide (ls.1 = self))
          (imap pair h).

(** ** [Spec.root] *)

(** What a failed [assert] raises.  [AssertionError] is not one of the
    classes listed above; it derives from [StandardError], and the
    exception is written as one of that class with the name of its own
    class as the message. *)
Definition assertion_error : exn := Exception StandardError "AssertionError".

(** [all(first_root is d.root for d in depiter)]: [all] stops at the
    first dependent whose root is another object. *)
Fixpoint all_roots_are (root_of : loc -> result loc) (first_root : loc)
    (ds : list loc) : result bool :=
  match ds with
  | [] => Ok true
  | d :: rest =>
      r ← root_of d;
      if bool_decide (r = first_root)
      then all_roots_are root_of first_root rest
      else Ok false
  end.

(** [Spec.root]: [self.dependents.values()] is read in the order of the
    dict; a spec without dependents is its own root. *)
Fixpoint root (depth_left : nat) (h : heap) (self : loc) : result loc :=
  match depth_left with
  | O => Raise recursion_error
  | S depth_left' =>
      s ← deref h self;
      match (map_to_list (dependents s)).*2 with
      | [] => Ok self
      | first :: depiter =>
          first_root ← root depth_left' h first;
          same ← all_roots_are (root depth_left' h) first_root depiter;
          if (same : bool) then Ok first_root else Raise assertion_error
      end
  end.

(** [b] is a dependent of [a]: a value of [a.dependents]. *)
Definition dependent (h : heap) (a b : loc) : Prop :=
  exists sa n, h !! a = Some sa /\ dependents sa !! n = Some b.

(** A path of [k] edges from [a] to [b]. *)
Inductive path (h : heap) : nat -> loc -> loc -> Prop :=
| path_here (a : loc) : path h 0 a a
| path_step (k : nat) (a b c : loc) :
    edge h a b -> path h k b c -> path h (S k) a c.

(** The classes of the exceptions the methods of the parser raise while
    they read a spec: the [ParseError] of the missing module
    [spack.parse] and the errors of the private routines of [Spec]. *)
Definition clause_errors : list error_class :=
  [ParseError; DuplicateVariantError; DuplicateCompilerError;
   DuplicateArchitectureError].

(** An exception made with a message, of one of the classes [cs]. *)
Definition raised_as (cs : list error_class) (e : exn) : Prop :=
  exists c msg, e = Exception c msg /\ c ∈ cs.

(** ** [Spec.flat_dependencies] and [Spec.flatten] *)

Section flat_dependencies.
Context `{Packages}.
(** [self.package.validate_dependencies()] for the package of a name;
    the module that defines it is not part of the sources at hand. *)
Variable validate_dependencies : string -> result unit.
(** [str(spec)] where a message names a spec. *)
Variable spec_text : loc -> string.

(** ['%s' % x] for what an [UnsatisfiableSpecError] is given *)
Definition payload_str (p : payload) : string :=
  match p with
  | PName n => n
  | PVersions v => VersionList.str v
  | PVariant v => Variant.str v
  | PArchitecture a => a
  | PCompiler c => Compiler.str c
  | PSpec l => spec_text l
  end.

(** [e.message]: [UnsatisfiableSpecError.__init__] passes
    ["%s does not satisfy %s" % (provided, required)] on. *)
Definition message (e : exn) : string :=
  match e with
  | Exception _ m => m
  | Unsatisfiable _ provided required _ =>
      payload_str provided +:+ " does not satisfy " +:+ payload_str required
  end.

(** One round of the loop of [flat_dependencies]. *)
Definition flat_dependencies_step (depth_left : nat)
    (acc : result (DependencyMap * heap)) (l : loc)
  : result (DependencyMap * heap) :=
  '(flat_deps, h1) ← acc;
  spec ← deref h1 l;
  match flat_deps !! name spec with
  | None =>
      '(new_spec, h2) ← copy depth_left false h1 l;
      Ok (<[name spec := new_spec]> flat_deps, h2)
  | Some mine =>
      h2 ← constrain depth_left h1 mine l true;
      Ok (flat_deps, h2)
  end.

(** [Spec.flat_dependencies]: the nodes are those the traversal yields;
    an [UnsatisfiableSpecError] of the loop is raised again as an
    [InconsistentSpecError]. *)
Definition flat_dependencies (depth_left : nat) (h : heap) (self : loc)
  : result (DependencyMap * heap) :=
  s ← deref h self;
  _ ← (if negb (virtual s) then validate_dependencies (name s) else Ok ());
  match (nodes ← traverse depth_left h self;
         foldl (flat_dependencies_step depth_left) (Ok (∅, h)) nodes) with
  | Raise e =>
      if issubclass (class_of e) UnsatisfiableSpecError then
        Raise (Exception InconsistentSpecError
                 ("Invalid Spec DAG: " +:+ message e))
      else Raise e
  | Ok r => Ok r
  end.

(** [Spec.flatten]: [self.dependencies = self.flat_dependencies()] *)
Definition flatten (depth_left : nat) (h : heap) (self : loc) : result heap :=
  '(flat_deps, h1) ← flat_dependencies depth_left h self;
  s ← deref h1 self;
  Ok (<[self := set_dependencies s flat_deps]> h1).

End flat_dependencies.

(** What [flat_dependencies] has made when the map is [m] and the store
    [h1], from a store [h0]: the objects of [h0] are as they were in the
    store (the compilers are held by value, see [constrain_node]); every
    value of the map is a new object that bears the name it is filed
    under and has neither dependencies nor dependents. *)
Definition flat_copies (h0 h1 : heap) (m : DependencyMap) : Prop :=
  List.length h0 <= List.length h1
  /\ (forall l, l < List.length h0 -> h1 !! l = h0 !! l)
  /\ forall k c, m !! k = Some c ->
       List.length h0 <= c
       /\ exists sc, h1 !! c = Some sc /\ name sc = k
            /\ dependencies sc = ∅ /\ dependents sc = ∅.

(** ** Notions for what [copy] adds *)

(** The number of paths of dependencies that start at [a], each node
    counted once for every path that reaches it, followed to the depth
    [n]. *)
Fixpoint paths_from (n : nat) (h : heap) (a : loc) : nat :=
  match n with
  | O => 0
  | S n' =>
      match h !! a with
      | None => 0
      | Some s =>
          S (sum_list_with (paths_from n' h)
               (map_to_list (dependencies s)).*2)
      end
  end.

(** The DAG under [a] is less than [n] edges deep, and every reference
    in it is to an object. *)
Fixpoint deep_enough (n : nat) (h : heap) (a : loc) : Prop :=
  match n with
  | O => False
  | S n' =>
      exists s, h !! a = Some s
                /\ forall k c, dependencies s !! k = Some c ->
                               deep_enough n' h c
  end.

(** The store [h1] holds the store [h] and more objects after it. *)
Definition extends (h h1 : heap) : Prop :=
  List.length h <= List.length h1
  /\ forall l, l < List.length h -> h1 !! l = h !! l.

(** ** [Spec.concrete] and [DependencyMap.concrete] *)

Section concrete.
Context `{Packages}.

(** [all(d.concrete for d in self.values())]: [all] stops at the first
    dependency that is not concrete. *)
Fixpoint all_concrete (concrete_of : loc -> result bool) (ds : list loc)
  : result bool :=
  match ds with
  | [] => Ok true
  | d :: rest =>
      c ← concrete_of d;
      if (c : bool) then all_concrete concrete_of rest else Ok false
  end.

(** [Spec.concrete]: the operands of [and] are evaluated from the left,
    the dependencies only when the node itself is concrete. *)
Fixpoint concrete (depth_left : nat) (h : heap) (self : loc) : result bool :=
  match depth_left with
  | O => Raise recursion_error
  | S depth_left' =>
      s ← deref h self;
      if negb (virtual s)
         && VersionList.concrete (versions s)
         && arch_truthy (architecture s)
         && match compiler s with
            | Some c => Compiler.concrete c
            | None => false
            end
      then all_concrete (concrete depth_left' h)
             (map_to_list (dependencies s)).*2
      else Ok false
  end.

(** What [concrete] asks of a node by itself. *)
Definition concrete_node (s : Spec) : Prop :=
  virtual s = false
  /\ VersionList.concrete (versions s) = true
  /\ arch_truthy (architecture s) = true
  /\ exists c, compiler s = Some c /\ Compiler.concrete c = true.

End concrete.

(** ** [parse_anonymous_spec] *)

(** [parse_anonymous_spec(spec_like, pkg_name)]; a string is a [str].
    What a [Spec(...)] that raises has put in the store is not referred
    to by anything. *)
Definition parse_anonymous_spec (depth_left : nat) (h : heap)
    (spec_like : pyobject) (pkg_name : string) : result (loc * heap) :=
  match spec_like with
  | PyOther =>
      Raise (Exception TypeError "spec must be Spec or spec string.")
  | _ =>
      '(anon_spec, h1) ←
        match spec_like with
        | PyStr text =>
            match Spec_init depth_left h (PyStr text) [] with
            | Raise e =>
                if issubclass (class_of e) SpecParseError then
                  '(anon_spec, h1) ←
                    Spec_init depth_left h (PyStr (pkg_name +:+ text)) [];
                  a ← deref h1 anon_spec;
                  if negb (bool_decide (name a = pkg_name)) then
                    Raise (Exception ValueError
                             ("Invalid spec for package " +:+ pkg_name
                              +:+ ": " +:+ text))
                  else Ok (anon_spec, h1)
                else Raise e
            | Ok r => Ok r
            end
        | _ =>
            match spec_like with
            | PySpec l => copy depth_left true h l
            | _ => Raise (Exception TypeError "spec must be Spec or spec string.")
            end
        end;
      a ← deref h1 anon_spec;
      if negb (bool_decide (name a = pkg_name)) then
        Raise (Exception ValueError
                 ("Spec name '" +:+ name a +:+ "' must match package name '"
                  +:+ pkg_name +:+ "'"))
      else Ok (anon_spec, h1)
  end.

(** ** [Spec.__contains__] *)

Section contains.
Context `{Packages}.

(** [for s in self.preorder_traversal(): if s.satisfies(spec): return True] *)
Fixpoint any_satisfies (sat : loc -> result bool) (nodes : list loc)
  : result bool :=
  match nodes with
  | [] => Ok false
  | s :: rest =>
      r ← sat s;
      if (r : bool) then Ok true else any_satisfies sat rest
  end.

(** [spec in self], for a [Spec] object [spec], which [_autospec]
    returns as it is. *)
Definition contains (depth_left : nat) (h : heap) (self spec : loc)
  : result bool :=
  nodes ← traverse depth_left h self;
  any_satisfies (fun s => satisfies depth_left h s spec true) nodes.

End contains.

(** ** [Spec._replace_with] *)

Section replace_with.
Context `{Packages}.

(** One round of the loop of [_replace_with] for the name [n] of the
    spec that is replaced: [del dependent.dependencies[n]] raises
    [KeyError] when the key is missing. *)
Definition replace_in_dependent (n : string) (concrete : loc)
    (acc : result heap) (item : string * loc) : result heap :=
  h1 ← acc;
  dependent ← deref h1 item.2;
  if bool_decide (is_Some (dependencies dependent !! n)) then
    _add_dependency
      (<[item.2 := set_dependencies dependent
                     (delete n (dependencies dependent))]> h1)
      item.2 concrete
  else Raise (Exception KeyError n).

(** [Spec._replace_with]: [self.dependents.items()] is a list made
    before the loop; the name of [self] does not change in the loop. *)
Definition _replace_with (h : heap) (self concrete : loc) : result heap :=
  s ← deref h self;
  if negb (virtual s) then Raise assertion_error
  else
    foldl (replace_in_dependent (name s) concrete) (Ok h)
          (map_to_list (dependents s)).

End replace_with.

(** What a round of [_replace_with] keeps of the store [h1] in the
    store [h2]: the objects and their names, the dependencies of every
    object but [p], and every object but [p] and [concrete]. *)
Definition round_keeps (h1 h2 : heap) (p concrete : loc) : Prop :=
  List.length h2 = List.length h1
  /\ forall l y1, h1 !! l = Some y1 ->
       exists y2, h2 !! l = Some y2 /\ name y2 = name y1
                  /\ (l <> p -> dependencies y2 = dependencies y1)
                  /\ (l <> p -> l <> concrete -> y2 = y1).
(** * Properties *)

(** ** The model on examples of the module's docstring *)

Example version_order :
  Version.leb (Version.Version "1.1") (Version.Version "2.1") = true
  /\ Version.leb (Version.Version "2.1") (Version.Version "1.1") = false
  /\ Version.leb (Version.Version "1.9") (Version.Version "1.10") = true.
Proof. repeat split; vm_compute; reflexivity. Qed.

Example lex_example :
  lex None "mpileaks%intel@12.1@1.5"
  = Ok [Token ID "mpileaks"; Token PCT "%"; Token ID "intel"; Token AT "@";
        Token ID "12.1"; Token AT "@"; Token ID "1.5"].
Proof. reflexivity. Qed.

Example parse_example :
  parse [] "mpileaks ^openmpi @1.2:1.4 +debug %intel @12.1 =bgqos_0"
  = Ok ([0],
        [ {| name := "mpileaks"; versions := VersionList.any; variants := ∅;
             architecture := None; compiler := None; dependents := ∅;
             dependencies := {[ "openmpi" := 1 ]} |};
          {| name := "openmpi";
             versions := [VersionList.Range (Some (Version.Version "1.2"))
                                            (Some (Version.Version "1.4"))];
             variants := {[ "debug" := Variant.Variant "debug" true ]};
             architecture := Some "bgqos_0";
             compiler := Some (Compiler.Compiler "intel"
                          [VersionList.Point (Version.Version "12.1")]);
             dependents := {[ "mpileaks" := 0 ]}; dependencies := ∅ |} ]).
Proof. vm_compute. reflexivity. Qed.

(** ** Reading the store *)

Lemma deref_Some (h : heap) (l : loc) (s : Spec) :
  h !! l = Some s -> deref h l = Ok s.
Proof. intros Hl. unfold deref. rewrite Hl. reflexivity. Qed.

Lemma deref_Ok (h : heap) (l : loc) (s : Spec) :
  deref h l = Ok s -> h !! l = Some s.
Proof. unfold deref. destruct (h !! l); intros E; congruence. Qed.

Lemma bind_ok {A B} (a : A) (f : A -> result B) : Ok a ≫= f = f a.
Proof. reflexivity. Qed.

Lemma bind_raise {A B} (e : exn) (f : A -> result B) :
  Raise e ≫= f = Raise e.
Proof. reflexivity. Qed.

Lemma bind_Ok {A B} (m : result A) (f : A -> result B) (b : B) :
  m ≫= f = Ok b -> exists a, m = Ok a /\ f a = Ok b.
Proof. destruct m as [a|e]; simpl; intros E; [eauto | discriminate]. Qed.

(** ** The text of a spec *)

Lemma string_app_assoc (a b c : string) :
  (a +:+ b) +:+ c = a +:+ (b +:+ c).
Proof.
  induction a as [|x a IH]; [reflexivity |].
  change (String x ((a +:+ b) +:+ c) = String x (a +:+ (b +:+ c))).
  rewrite IH. reflexivity.
Qed.

Lemma string_app_empty_r (s : string) : s +:+ "" = s.
Proof.
  induction s as [|c s IH]; [reflexivity |].
  change (String c (s +:+ "") = String c s). rewrite IH. reflexivity.
Qed.

(** [format] on the default format string writes the name, the versions,
    the compiler and its versions, the variants and the architecture. *)
Lemma format_default (sha : string -> string)
    (str_of : loc -> result string) (x : Spec) :
  format sha str_of x default_format = Ok (node_format x).
Proof.
  unfold format, default_format, node_format.
  cbn [format_loop format_directive Ascii.eqb Bool.eqb mbind result_bind].
  rewrite !string_app_assoc. reflexivity.
Qed.

Lemma format_each_default (sha : string -> string)
    (str_of : loc -> result string) (deps : list Spec) :
  foldr (fun dep acc =>
           f ← format sha str_of dep default_format;
           rest ← acc;
           Ok ("^" +:+ f +:+ rest))
        (Ok "") deps
  = Ok (concat_strings (map (fun d => "^" +:+ node_format d) deps)).
Proof.
  induction deps as [|d deps IH]; [reflexivity |].
  cbn [foldr map]. rewrite IH, format_default, !bind_ok. reflexivity.
Qed.

Lemma Spec_str_S (sha : string -> string) (n : nat) (h : heap) (self : loc) :
  Spec_str sha (S n) h self
  = (s ← deref h self;
     '(ys, _) ← preorder_traversal by_name false "nodes" n h ∅ 0 self;
     deps ← deref_all h (ys.*2);
     dep_string ←
       foldr (fun dep acc =>
                f ← format sha (Spec_str sha n h) dep default_format;
                rest ← acc;
                Ok ("^" +:+ f +:+ rest))
             (Ok "") (merge_sort name_le deps);
     root ← format sha (Spec_str sha n h) s default_format;
     Ok (root +:+ dep_string)).
Proof. reflexivity. Qed.

(** [str(spec)] does not depend on the hash function: the default
    format string does not ask for a hash. *)
Lemma Spec_str_hash_free (sha1 sha2 : string -> string) (depth_left : nat)
    (h : heap) (l : loc) :
  Spec_str sha1 depth_left h l = Spec_str sha2 depth_left h l.
Proof.
  destruct depth_left as [|n]; [reflexivity |]. rewrite !Spec_str_S.
  destruct (deref h l) as [s|e]; [|reflexivity]. rewrite !bind_ok.
  destruct (preorder_traversal _ _ _ _ _ _ _ _) as [[ys V]|e]; [|reflexivity].
  rewrite !bind_ok. cbv beta iota.
  destruct (deref_all h ys.*2) as [deps|e]; [|reflexivity]. rewrite !bind_ok.
  rewrite !format_each_default, !bind_ok, !format_default. reflexivity.
Qed.

(** [str(spec)] of a spec without dependencies is what [format]
    writes. *)
Lemma str_of_spec_leaf (h : heap) (l : loc) (d : Spec) :
  h !! l = Some d -> dependencies d = ∅ ->
  str_of_spec h l = Ok (node_format d).
Proof.
  intros Hl Hd. unfold str_of_spec. rewrite Spec_str_S.
  cbn [preorder_traversal].
  rewrite (deref_Some _ _ _ Hl), !bind_ok.
  rewrite bool_decide_eq_true_2 by (left). cbn [negb].
  rewrite (bool_decide_eq_false_2 (by_name l d ∈ (∅ : gset string)))
    by set_solver.
  cbn [andb orb]. unfold sorted_children, sorted_names.
  rewrite Hd, map_to_list_empty.
  change (sorted_strings (map fst [])) with (@nil string).
  change (omap _ []) with (@nil loc).
  cbn [visit_children]. rewrite !bind_ok. cbv beta iota.
  change (deref_all h _) with (@Ok (list Spec) []).
  rewrite bind_ok.
  change (merge_sort name_le []) with (@nil Spec). cbn [foldr].
  rewrite bind_ok, format_default, bind_ok.
  rewrite string_app_empty_r. reflexivity.
Qed.

(** ** Name mismatch in [constrain] *)

Lemma new_UnsatisfiableSpecNameError_raises (p r : payload) :
  new_UnsatisfiableSpecNameError p r
  = Raise (Exception TypeError
             "super(type, obj): obj must be an instance or subtype of type").
Proof. reflexivity. Qed.

(** C2: when the names of two specs differ, [a.constrain(b)] builds an
    [UnsatisfiableSpecNameError], whose [__init__] calls
    [super(UnsatisfiableVersionSpecError, self)]; the object is not an
    instance of that class, so what [constrain] raises is [TypeError],
    and no error with [constraint_type = "name"] is raised. *)
Theorem constrain_name_mismatch_raises_TypeError
    (P : Packages) (depth_left : nat) (h : heap) (a b : loc) (sa sb : Spec)
    (deps : bool) :
  h !! a = Some sa ->
  h !! b = Some sb ->
  name sa <> name sb ->
  constrain depth_left h a b deps
  = Raise (Exception TypeError
             "super(type, obj): obj must be an instance or subtype of type").
Proof.
  intros Ha Hb Hne.
  unfold constrain, constrain_node.
  rewrite (deref_Some _ _ _ Ha), (deref_Some _ _ _ Hb). simpl.
  rewrite bool_decide_eq_false_2 by exact Hne. reflexivity.
Qed.

Lemma constrain_name_mismatch_witness :
  exists a b h sa sb,
    two_specs "mpileaks" "callpath" = Ok (a, b, h)
    /\ h !! a = Some sa /\ h !! b = Some sb /\ name sa <> name sb
    /\ @constrain mock_packages 5 h a b true
       = Raise (Exception TypeError
           "super(type, obj): obj must be an instance or subtype of type").
Proof.
  eexists _, _, _, _, _.
  split; [vm_compute; reflexivity |].
  split; [reflexivity |].
  split; [reflexivity |].
  split; [vm_compute; discriminate |].
  eapply (constrain_name_mismatch_raises_TypeError mock_packages 5);
    [reflexivity | reflexivity | vm_compute; discriminate].
Defined.

(** ** [normalized] *)

(** C3: [normalized] clones the spec and then calls [normalized] on the
    clone, not [normalize]: whatever recursion depth is left, the call
    ends in an exception and returns no spec. *)
Theorem normalized_never_returns (depth_left : nat) (h : heap) (s : loc) :
  exists e, normalized depth_left h s = Raise e.
Proof.
  revert h s. induction depth_left as [|n IH]; intros h s; simpl.
  - eexists. reflexivity.
  - destruct (copy n true h s) as [[clone h1]|e]; simpl.
    + destruct (IH h1 clone) as [e ->]. simpl. eexists. reflexivity.
    + eexists. reflexivity.
Qed.

(** The copy of a spec without dependencies. *)
Lemma copy_leaf (n : nat) (h : heap) (l : loc) (s : Spec) :
  h !! l = Some s ->
  dependencies s = ∅ ->
  copy (S n) true h l
  = Ok (List.length h,
        <[List.length h := {| name := name s; versions := versions s;
                              variants := VariantMap.copy (variants s);
                              architecture := architecture s;
                              compiler := Compiler.copy <$> compiler s;
                              dependents := ∅; dependencies := ∅ |}]>
          (h ++ [new_Spec ""])).
Proof.
  intros Hl Hd. unfold copy, copy_with, alloc. cbn [_dup].
  rewrite (deref_Some (h ++ [new_Spec ""]) l s)
    by (rewrite lookup_app_l; [exact Hl | eapply lookup_lt_Some, Hl]).
  simpl. rewrite Hd, map_to_list_empty. reflexivity.
Qed.

(** When the copies succeed the exception is the one of the recursion
    limit. *)
Lemma normalized_leaf_recursion_error (depth_left : nat) (h : heap) (l : loc)
    (s : Spec) :
  h !! l = Some s ->
  dependencies s = ∅ ->
  normalized depth_left h l = Raise recursion_error.
Proof.
  revert h l s. induction depth_left as [|n IH]; intros h l s Hl Hd;
    [reflexivity |].
  cbn [normalized]. destruct n as [|m]; [reflexivity |].
  rewrite (copy_leaf m h l s Hl Hd).
  rewrite bind_ok. cbv beta iota.
  erewrite IH;
    [reflexivity
    | rewrite list_lookup_insert_eq;
        [reflexivity | rewrite length_app; simpl; lia]
    | reflexivity].
Qed.

(** ** Disjoint version lists in [constrain] *)

(** C6: constraining two specs of the same name whose version lists do
    not overlap raises [UnsatisfiableVersionSpecError]; the error carries
    the version list of the receiver as [provided], the version list of
    the argument as [required], and [constraint_type = "version"].  For
    [Spec("mpi@:1.1").constrain(Spec("mpi@2.1:"))] these are the version
    lists [:1.1] and [2.1:]. *)
Theorem constrain_disjoint_versions :
  (forall (P : Packages) (depth_left : nat) (h : heap) (a b : loc)
          (sa sb : Spec) (deps : bool),
      h !! a = Some sa ->
      h !! b = Some sb ->
      name sa = name sb ->
      VersionList.overlaps (versions sa) (versions sb) = false ->
      constrain depth_left h a b deps
      = Raise (Unsatisfiable UnsatisfiableVersionSpecError
                 (PVersions (versions sa)) (PVersions (versions sb))
                 "version"))
  /\ exists a b h sa sb,
       two_specs "mpi@:1.1" "mpi@2.1:" = Ok (a, b, h)
       /\ h !! a = Some sa /\ h !! b = Some sb
       /\ versions sa = [VersionList.Range None (Some (Version.Version "1.1"))]
       /\ versions sb = [VersionList.Range (Some (Version.Version "2.1")) None]
       /\ VersionList.str (versions sa) = ":1.1"
       /\ VersionList.str (versions sb) = "2.1:"
       /\ @constrain mock_packages 5 h a b true
          = Raise (Unsatisfiable UnsatisfiableVersionSpecError
                     (PVersions (versions sa)) (PVersions (versions sb))
                     "version").
Proof.
  assert (G : forall (P : Packages) (depth_left : nat) (h : heap) (a b : loc)
                     (sa sb : Spec) (deps : bool),
             h !! a = Some sa ->
             h !! b = Some sb ->
             name sa = name sb ->
             VersionList.overlaps (versions sa) (versions sb) = false ->
             constrain depth_left h a b deps
             = Raise (Unsatisfiable UnsatisfiableVersionSpecError
                        (PVersions (versions sa)) (PVersions (versions sb))
                        "version")).
  { intros P depth_left h a b sa sb deps Ha Hb Hn Hv.
    unfold constrain, constrain_node.
    rewrite (deref_Some _ _ _ Ha), (deref_Some _ _ _ Hb), !bind_ok.
    rewrite bool_decide_eq_true_2 by exact Hn.
    rewrite Hv. reflexivity. }
  split; [exact G |].
  eexists _, _, _, _, _.
  split; [vm_compute; reflexivity |].
  split; [reflexivity |].
  split; [reflexivity |].
  split; [reflexivity |].
  split; [reflexivity |].
  split; [vm_compute; reflexivity |].
  split; [vm_compute; reflexivity |].
  eapply (G mock_packages 5);
    [reflexivity | reflexivity | reflexivity | vm_compute; reflexivity].
Qed.

(** The scenario [Spec("mpi@:1.1").constrain(Spec("mpi@2.1:"))]: the
    error carries the version lists [:1.1] and [2.1:]. *)
Lemma constrain_mpi_conflict :
  exists a b h sa sb,
    two_specs "mpi@:1.1" "mpi@2.1:" = Ok (a, b, h)
    /\ h !! a = Some sa /\ h !! b = Some sb
    /\ name sa = name sb
    /\ VersionList.overlaps (versions sa) (versions sb) = false
    /\ versions sa = [VersionList.Range None (Some (Version.Version "1.1"))]
    /\ versions sb = [VersionList.Range (Some (Version.Version "2.1")) None]
    /\ VersionList.str (versions sa) = ":1.1"
    /\ VersionList.str (versions sb) = "2.1:"
    /\ @constrain mock_packages 5 h a b true
       = Raise (Unsatisfiable UnsatisfiableVersionSpecError
                  (PVersions (versions sa)) (PVersions (versions sb))
                  "version").
Proof.
  eexists _, _, _, _, _.
  split; [vm_compute; reflexivity |].
  split; [reflexivity |].
  split; [reflexivity |].
  split; [reflexivity |].
  split; [vm_compute; reflexivity |].
  split; [reflexivity |].
  split; [reflexivity |].
  split; [vm_compute; reflexivity |].
  split; [vm_compute; reflexivity |].
  eapply (proj1 constrain_disjoint_versions mock_packages 5);
    [reflexivity | reflexivity | reflexivity | vm_compute; reflexivity].
Defined.

(** The error does not carry the specs: [provided] and [required] are
    the version lists, which print as [:1.1] and [2.1:], where the specs
    print as [mpi@:1.1] and [mpi@2.1:]. *)
Lemma constrain_error_holds_version_lists :
  exists a b h p r,
    two_specs "mpi@:1.1" "mpi@2.1:" = Ok (a, b, h)
    /\ Spec_str no_sha1 3 h a = Ok "mpi@:1.1"
    /\ Spec_str no_sha1 3 h b = Ok "mpi@2.1:"
    /\ @constrain mock_packages 5 h a b true
       = Raise (Unsatisfiable UnsatisfiableVersionSpecError p r "version")
    /\ p = PVersions [VersionList.Range None (Some (Version.Version "1.1"))]
    /\ r = PVersions [VersionList.Range (Some (Version.Version "2.1")) None]
    /\ p <> PSpec a /\ r <> PSpec b
    /\ p <> PName "mpi@:1.1" /\ r <> PName "mpi@2.1:"
    /\ forall spec_text,
         payload_str spec_text p = ":1.1"
         /\ payload_str spec_text r = "2.1:"
         /\ message spec_text
              (Unsatisfiable UnsatisfiableVersionSpecError p r "version")
            = ":1.1 does not satisfy 2.1:".
Proof.
  eexists _, _, _, _, _.
  split; [vm_compute; reflexivity |].
  split; [vm_compute; reflexivity |].
  split; [vm_compute; reflexivity |].
  split; [vm_compute; reflexivity |].
  split; [reflexivity |].
  split; [reflexivity |].
  repeat (split; [discriminate |]).
  intros spec_text. repeat split; vm_compute; reflexivity.
Qed.

(** ** The constructor on a string *)

(** C10: [Spec(text, *dep_like)] raises [ValueError] when [text] parses
    to more than one spec or to none, and when it returns a [Spec] the
    text has parsed to exactly one spec. *)
Theorem Spec_init_exactly_one
    (depth_left : nat) (h : heap) (text : string) (dep_like : list pyobject) :
  (forall specs h',
      parse h text = Ok (specs, h') ->
      List.length specs <> 1 ->
      exists msg,
        Spec_init depth_left h (PyStr text) dep_like
        = Raise (Exception ValueError msg))
  /\ (forall r,
        Spec_init depth_left h (PyStr text) dep_like = Ok r ->
        exists x h', parse h text = Ok ([x], h')).
Proof.
  unfold Spec_init, Spec_init_head. split.
  - intros specs h' Hp Hlen. rewrite Hp, bind_ok. cbv beta iota.
    destruct specs as [|x [|y rest]]; simpl in *;
      [eexists; reflexivity | lia | eexists; reflexivity].
  - intros r. destruct (parse h text) as [[specs h']|e];
      [|rewrite !bind_raise; discriminate].
    rewrite bind_ok. cbv beta iota.
    destruct specs as [|x [|y rest]]; simpl; try discriminate.
    intros _. eauto.
Qed.

Lemma Spec_init_exactly_one_witness :
  (exists msg, Spec_init 0 [] (PyStr "mpileaks callpath") []
               = Raise (Exception ValueError msg))
  /\ (exists msg, Spec_init 0 [] (PyStr "") []
                  = Raise (Exception ValueError msg))
  /\ (exists x h', parse [] "mpileaks ^callpath" = Ok ([x], h')).
Proof.
  split; [|split].
  - eapply (proj1 (Spec_init_exactly_one 0 [] "mpileaks callpath" []));
      [vm_compute; reflexivity | simpl; lia].
  - eapply (proj1 (Spec_init_exactly_one 0 [] "" []));
      [vm_compute; reflexivity | simpl; lia].
  - eapply (proj2 (Spec_init_exactly_one 0 [] "mpileaks ^callpath" [])).
    vm_compute. reflexivity.
Defined.

(** ** The parser: what a clause does to the spec being built *)

Lemma foldl_add_version_fields (spec : Spec) (vl : list VersionList.elem) :
  name (foldl _add_version spec vl) = name spec
  /\ variants (foldl _add_version spec vl) = variants spec
  /\ architecture (foldl _add_version spec vl) = architecture spec
  /\ compiler (foldl _add_version spec vl) = compiler spec
  /\ dependencies (foldl _add_version spec vl) = dependencies spec
  /\ dependents (foldl _add_version spec vl) = dependents spec.
Proof.
  revert spec. induction vl as [|v vl IH]; intros spec; simpl; [tauto |].
  destruct (IH (_add_version spec v)) as (-> & -> & -> & -> & -> & ->).
  repeat split.
Qed.

(** A clause that the parser has read leaves the compiler, the
    architecture and the variants that were set before as they are. *)
Lemma spec_clause_keeps (spec spec' : Spec) (added added' : bool)
    (toks toks' : tokens) :
  spec_clause spec added toks = Ok (Some (spec', added', toks')) ->
  name spec' = name spec
  /\ (is_Some (compiler spec) -> compiler spec' = compiler spec)
  /\ (arch_truthy (architecture spec) = true ->
      architecture spec' = architecture spec)
  /\ (forall v, is_Some (variants spec !! v) -> is_Some (variants spec' !! v)).
Proof.
  unfold spec_clause. intros E.
  destruct (accept AT toks) as [[? t1]|].
  { destruct (version_list t1) as [[vl t2]|]; [|discriminate].
    rewrite bind_ok in E. injection E as <- <- <-.
    destruct (foldl_add_version_fields spec vl) as (-> & -> & -> & -> & _).
    repeat split; auto. }
  destruct (accept ON toks) as [[? t1]|].
  { destruct (parse_variant t1) as [[v t2]|]; [|discriminate].
    rewrite bind_ok in E. cbv beta iota in E. unfold _add_variant in E.
    destruct (bool_decide _); [discriminate |].
    rewrite bind_ok in E. injection E as <- <- <-. simpl.
    repeat split; auto. intros w Hw.
    destruct (decide (v = w)) as [->|Hne];
      [rewrite lookup_insert_eq; eauto | rewrite lookup_insert_ne; auto]. }
  destruct (accept OFF toks) as [[? t1]|].
  { destruct (parse_variant t1) as [[v t2]|]; [|discriminate].
    rewrite bind_ok in E. cbv beta iota in E. unfold _add_variant in E.
    destruct (bool_decide _); [discriminate |].
    rewrite bind_ok in E. injection E as <- <- <-. simpl.
    repeat split; auto. intros w Hw.
    destruct (decide (v = w)) as [->|Hne];
      [rewrite lookup_insert_eq; eauto | rewrite lookup_insert_ne; auto]. }
  destruct (accept PCT toks) as [[? t1]|].
  { destruct (parse_compiler t1) as [[c t2]|]; [|discriminate].
    rewrite bind_ok in E. cbv beta iota in E. unfold _set_compiler in E.
    destruct (bool_decide (is_Some (compiler spec))) eqn:Hc; [discriminate |].
    rewrite bind_ok in E. injection E as <- <- <-. simpl.
    apply bool_decide_eq_false in Hc.
    repeat split; auto. intros Hs. contradiction. }
  destruct (accept EQ toks) as [[? t1]|]; [|discriminate].
  destruct (parse_architecture t1) as [[a t2]|]; [|discriminate].
  rewrite bind_ok in E. cbv beta iota in E. unfold _set_architecture in E.
  destruct (arch_truthy (architecture spec)) eqn:Ha; [discriminate |].
  rewrite bind_ok in E. injection E as <- <- <-. simpl.
  repeat split; auto. intros Hs. discriminate.
Qed.

Lemma spec_loop_name (rounds : nat) (spec spec' : Spec) (added added' : bool)
    (toks toks' : tokens) :
  spec_loop rounds spec added toks = Ok (spec', added', toks') ->
  name spec' = name spec.
Proof.
  revert spec added toks.
  induction rounds as [|n IH]; intros spec added toks; simpl; [discriminate |].
  destruct toks as [|t toks]; [intros E; injection E as <- <- <-; reflexivity |].
  destruct (spec_clause spec added (t :: toks)) as [[[[s1 a1] t1]|]|] eqn:Hc;
    rewrite ?bind_ok, ?bind_raise; try discriminate.
  - intros E. apply IH in E. rewrite E.
    apply spec_clause_keeps in Hc. tauto.
  - intros E; injection E as <- <- <-; reflexivity.
Qed.

Lemma parse_spec_name (n : string) (toks toks' : tokens) (d : Spec) :
  parse_spec n toks = Ok (d, toks') -> name d = n.
Proof.
  unfold parse_spec. destruct (check_identifier n); [|discriminate].
  rewrite bind_ok.
  destruct (spec_loop _ _ _ _) as [[[s1 a1] t1]|] eqn:Hl; [|discriminate].
  rewrite bind_ok. cbv beta iota. intros E. injection E as <- <-.
  apply spec_loop_name in Hl. destruct a1; simpl; exact Hl.
Qed.

(** Identifiers read by the lexer are not empty. *)
Lemma lex_ID_nonempty (s : string) (cur : option string) (toks : tokens) :
  (forall w, cur = Some w -> w <> "") ->
  lex cur s = Ok toks ->
  Forall (fun t => ttype t = ID -> value t <> "") toks.
Proof.
  revert cur toks. induction s as [|c s IH]; intros cur toks Hcur; simpl.
  - intros E. injection E as <-. destruct cur as [w|]; simpl;
      [constructor; [intros _; auto | constructor] | constructor].
  - destruct cur as [w|].
    + destruct (is_id_char c).
      { apply IH. intros w' E. injection E as <-.
        destruct w; [exfalso; eapply Hcur; reflexivity | discriminate]. }
      destruct (punctuation c) as [ty|] eqn:Hp.
      { destruct (lex None s) as [l|] eqn:Hl; [|discriminate].
        rewrite bind_ok. intros E. injection E as <-.
        constructor; [intros _; auto |].
        constructor.
        - simpl. intros _. discriminate.
        - eapply IH; [|exact Hl]. discriminate. }
      destruct (is_space c); [|discriminate].
      destruct (lex None s) as [l|] eqn:Hl; [|discriminate].
      rewrite bind_ok. intros E. injection E as <-.
      constructor; [intros _; auto |].
      eapply IH; [|exact Hl]. discriminate.
    + destruct (punctuation c) as [ty|] eqn:Hp.
      { destruct (lex None s) as [l|] eqn:Hl; [|discriminate].
        rewrite bind_ok. intros E. injection E as <-.
        constructor; [simpl; intros _; discriminate |].
        eapply IH; [|exact Hl]. discriminate. }
      destruct (is_word c).
      { apply IH. intros w E. injection E as <-. discriminate. }
      destruct (is_space c); [|discriminate].
      apply IH. discriminate.
Qed.

Lemma spec_clause_links (spec spec' : Spec) (added added' : bool)
    (toks toks' : tokens) :
  spec_clause spec added toks = Ok (Some (spec', added', toks')) ->
  dependencies spec' = dependencies spec
  /\ dependents spec' = dependents spec.
Proof.
  unfold spec_clause. intros E.
  destruct (accept AT toks) as [[? t1]|].
  { destruct (version_list t1) as [[vl t2]|]; [|discriminate].
    rewrite bind_ok in E. injection E as <- <- <-.
    destruct (foldl_add_version_fields spec vl) as (_ & _ & _ & _ & -> & ->).
    split; reflexivity. }
  destruct (accept ON toks) as [[? t1]|].
  { destruct (parse_variant t1) as [[v t2]|]; [|discriminate].
    rewrite bind_ok in E. cbv beta iota in E. unfold _add_variant in E.
    destruct (bool_decide _); [discriminate |].
    rewrite bind_ok in E. injection E as <- <- <-. split; reflexivity. }
  destruct (accept OFF toks) as [[? t1]|].
  { destruct (parse_variant t1) as [[v t2]|]; [|discriminate].
    rewrite bind_ok in E. cbv beta iota in E. unfold _add_variant in E.
    destruct (bool_decide _); [discriminate |].
    rewrite bind_ok in E. injection E as <- <- <-. split; reflexivity. }
  destruct (accept PCT toks) as [[? t1]|].
  { destruct (parse_compiler t1) as [[c t2]|]; [|discriminate].
    rewrite bind_ok in E. cbv beta iota in E. unfold _set_compiler in E.
    destruct (bool_decide (is_Some (compiler spec))); [discriminate |].
    rewrite bind_ok in E. injection E as <- <- <-. split; reflexivity. }
  destruct (accept EQ toks) as [[? t1]|]; [|discriminate].
  destruct (parse_architecture t1) as [[a t2]|]; [|discriminate].
  rewrite bind_ok in E. cbv beta iota in E. unfold _set_architecture in E.
  destruct (arch_truthy (architecture spec)); [discriminate |].
  rewrite bind_ok in E. injection E as <- <- <-. split; reflexivity.
Qed.

Lemma spec_loop_links (rounds : nat) (spec spec' : Spec) (added added' : bool)
    (toks toks' : tokens) :
  spec_loop rounds spec added toks = Ok (spec', added', toks') ->
  dependencies spec' = dependencies spec
  /\ dependents spec' = dependents spec.
Proof.
  revert spec added toks.
  induction rounds as [|n IH]; intros spec added toks; simpl; [discriminate |].
  destruct toks as [|t toks]; [intros E; injection E as <- <- <-; tauto |].
  destruct (spec_clause spec added (t :: toks)) as [[[[s1 a1] t1]|]|] eqn:Hc;
    rewrite ?bind_ok, ?bind_raise; try discriminate.
  - intros E. apply IH in E as [-> ->].
    apply spec_clause_links in Hc. exact Hc.
  - intros E; injection E as <- <- <-; tauto.
Qed.

(** The object [SpecParser.spec] returns has no dependencies and no
    dependents yet. *)
Lemma parse_spec_links (n : string) (toks toks' : tokens) (d : Spec) :
  parse_spec n toks = Ok (d, toks') ->
  dependencies d = ∅ /\ dependents d = ∅.
Proof.
  unfold parse_spec. destruct (check_identifier n); [|discriminate].
  rewrite bind_ok.
  destruct (spec_loop _ _ _ _) as [[[s1 a1] t1]|] eqn:Hl; [|discriminate].
  rewrite bind_ok. cbv beta iota. intros E. injection E as <- <-.
  apply spec_loop_links in Hl. destruct a1; simpl; exact Hl.
Qed.

(** [_add_dependency] on the object the parser has just made. *)
Lemma add_dependency_fresh (h : heap) (parent : loc) (sp d : Spec) :
  h !! parent = Some sp ->
  dependencies d = ∅ ->
  _add_dependency (h ++ [d]) parent (List.length h)
  = if bool_decide (is_Some (dependencies sp !! name d)) then
      Raise (Exception DuplicateDependencyError
               ("Cannot depend on '" +:+ node_format d +:+ "' twice"))
    else
      Ok (<[List.length h :=
              set_dependents d (<[name sp := parent]> (dependents d))]>
            (<[parent :=
                 set_dependencies sp
                   (<[name d := List.length h]> (dependencies sp))]>
               (h ++ [d]))).
Proof.
  intros Hp Hleaf. pose proof (lookup_lt_Some _ _ _ Hp) as Hlt.
  assert (Hd : (h ++ [d]) !! List.length h = Some d)
    by (apply list_lookup_middle; reflexivity).
  unfold _add_dependency.
  rewrite (deref_Some (h ++ [d]) parent sp)
    by (rewrite lookup_app_l; assumption).
  rewrite (deref_Some (h ++ [d]) (List.length h) d) by exact Hd.
  rewrite !bind_ok.
  destruct (bool_decide (is_Some (dependencies sp !! name d))).
  { rewrite (str_of_spec_leaf _ _ _ Hd Hleaf). reflexivity. }
  rewrite (deref_Some _ (List.length h) d); [reflexivity |].
  rewrite list_lookup_insert_ne by lia. exact Hd.
Qed.




(** ** The loops of the parser end within their bounds *)

Lemma accept_length (ty : toktype) (toks rest : tokens) (v : string) :
  accept ty toks = Some (v, rest) -> List.length toks = S (List.length rest).
Proof.
  destruct toks as [|t toks]; simpl; [discriminate |].
  destruct (bool_decide _); [|discriminate].
  intros E. injection E as <- <-. reflexivity.
Qed.

Ltac len_lia := cbn [List.length] in *; lia.

Ltac step_bind :=
  rewrite ?bind_ok, ?bind_raise; cbv beta iota;
  unfold consumes, keeps; cbv beta iota.

Ltac token_lengths :=
  repeat match goal with
         | H : accept _ _ = Some _ |- _ => apply accept_length in H
         end.

Lemma expect_consumes (ty : toktype) (toks : tokens) :
  consumes toks (expect ty toks).
Proof.
  unfold expect. destruct (accept ty toks) as [[v r]|] eqn:E; simpl.
  - token_lengths. len_lia.
  - destruct toks; simpl; discriminate.
Qed.

Lemma version_consumes (toks : tokens) : consumes toks (version toks).
Proof.
  unfold version.
  destruct (accept ID toks) as [[v r]|] eqn:E1.
  - destruct (accept COLON r) as [[c r2]|] eqn:E2.
    + destruct (accept ID r2) as [[v3 r3]|] eqn:E3; simpl;
        token_lengths; len_lia.
    + destruct (to_version (Some v)); simpl;
        [token_lengths; len_lia | discriminate].
  - destruct (accept COLON toks) as [[c r2]|] eqn:E2.
    + destruct (accept ID r2) as [[v3 r3]|] eqn:E3; simpl;
        token_lengths; len_lia.
    + simpl. discriminate.
Qed.

Lemma version_list_rest_keeps (rounds : nat) :
  forall vlist toks,
    List.length toks < rounds ->
    keeps toks (version_list_rest rounds vlist toks).
Proof.
  induction rounds as [|n IH]; intros vlist toks Hr; [len_lia |].
  cbn [version_list_rest].
  destruct (accept COMMA toks) as [[c r]|] eqn:E1; [|simpl; len_lia].
  pose proof (version_consumes r) as Hv.
  destruct (version r) as [[v r2]|e]; simpl in Hv; step_bind; [|exact Hv].
  token_lengths.
  specialize (IH (vlist ++ [v]) r2 ltac:(len_lia)).
  destruct (version_list_rest n (vlist ++ [v]) r2) as [[vl r3]|e];
    simpl in IH; step_bind; [len_lia | exact IH].
Qed.

Lemma version_list_consumes (toks : tokens) :
  consumes toks (version_list toks).
Proof.
  unfold version_list. pose proof (version_consumes toks) as Hv.
  destruct (version toks) as [[v r]|e]; simpl in Hv; step_bind; [|exact Hv].
  pose proof (version_list_rest_keeps (S (List.length r)) [v] r ltac:(len_lia))
    as Hk.
  destruct (version_list_rest _ _ _) as [[vl r2]|e]; simpl in Hk; step_bind;
    [len_lia | exact Hk].
Qed.

Lemma check_identifier_error (v : string) (e : exn) :
  check_identifier v = Raise e -> e <> loop_bound_error.
Proof.
  unfold check_identifier. destruct (string_contains "." v);
    intros E; [injection E as <-|]; discriminate.
Qed.

Lemma parse_variant_consumes (toks : tokens) :
  consumes toks (parse_variant toks).
Proof.
  unfold parse_variant. pose proof (expect_consumes ID toks) as He.
  destruct (expect ID toks) as [[v r]|e]; simpl in He; step_bind; [|exact He].
  destruct (check_identifier v) as [[]|e] eqn:Ec; step_bind;
    [exact He | eapply check_identifier_error; exact Ec].
Qed.

Lemma parse_compiler_consumes (toks : tokens) :
  consumes toks (parse_compiler toks).
Proof.
  unfold parse_compiler. pose proof (expect_consumes ID toks) as He.
  destruct (expect ID toks) as [[v r]|e]; simpl in He; step_bind; [|exact He].
  destruct (check_identifier v) as [[]|e] eqn:Ec; step_bind;
    [|eapply check_identifier_error; exact Ec].
  destruct (accept AT r) as [[c r2]|] eqn:Ea; step_bind; [|exact He].
  pose proof (version_list_consumes r2) as Hv.
  destruct (version_list r2) as [[vl r3]|e]; simpl in Hv; step_bind; [|exact Hv].
  token_lengths. len_lia.
Qed.

(** A clause that is read takes at least one token. *)
Lemma spec_clause_consumes (spec : Spec) (added : bool) (toks : tokens) :
  match spec_clause spec added toks with
  | Ok (Some (_, _, rest)) => List.length rest < List.length toks
  | Ok None => True
  | Raise e => e <> loop_bound_error
  end.
Proof.
  unfold spec_clause.
  destruct (accept AT toks) as [[? t1]|] eqn:E1.
  { pose proof (version_list_consumes t1) as Hv.
    destruct (version_list t1) as [[vl t2]|e]; simpl in Hv; step_bind;
      [token_lengths; len_lia | exact Hv]. }
  destruct (accept ON toks) as [[? t1]|] eqn:E2.
  { pose proof (parse_variant_consumes t1) as Hv.
    destruct (parse_variant t1) as [[v t2]|e]; simpl in Hv; step_bind; [|exact Hv].
    unfold _add_variant. destruct (bool_decide _); simpl;
      [discriminate | token_lengths; len_lia]. }
  destruct (accept OFF toks) as [[? t1]|] eqn:E3.
  { pose proof (parse_variant_consumes t1) as Hv.
    destruct (parse_variant t1) as [[v t2]|e]; simpl in Hv; step_bind; [|exact Hv].
    unfold _add_variant. destruct (bool_decide _); simpl;
      [discriminate | token_lengths; len_lia]. }
  destruct (accept PCT toks) as [[? t1]|] eqn:E4.
  { pose proof (parse_compiler_consumes t1) as Hv.
    destruct (parse_compiler t1) as [[c t2]|e]; simpl in Hv; step_bind; [|exact Hv].
    unfold _set_compiler. destruct (bool_decide _); simpl;
      [discriminate | token_lengths; len_lia]. }
  destruct (accept EQ toks) as [[? t1]|] eqn:E5; [|exact I].
  unfold parse_architecture. pose proof (expect_consumes ID t1) as Hv.
  destruct (expect ID t1) as [[a t2]|e]; simpl in Hv; step_bind; [|exact Hv].
  unfold _set_architecture. destruct (arch_truthy _); simpl;
    [discriminate | token_lengths; len_lia].
Qed.

Lemma spec_loop_keeps (rounds : nat) :
  forall spec added toks,
    List.length toks < rounds ->
    keeps toks (spec_loop rounds spec added toks).
Proof.
  induction rounds as [|n IH]; intros spec added toks Hr; [len_lia |].
  cbn [spec_loop].
  destruct toks as [|t toks]; [simpl; len_lia |].
  pose proof (spec_clause_consumes spec added (t :: toks)) as Hc.
  destruct (spec_clause spec added (t :: toks)) as [[[[s1 a1] t1]|]|e];
    simpl in Hc; step_bind; [| len_lia | exact Hc].
  specialize (IH s1 a1 t1 ltac:(len_lia)).
  destruct (spec_loop n s1 a1 t1) as [[[s2 a2] t2]|e]; simpl in IH; step_bind;
    [len_lia | exact IH].
Qed.

Lemma parse_spec_keeps (n : string) (toks : tokens) :
  keeps toks (parse_spec n toks).
Proof.
  unfold parse_spec.
  destruct (check_identifier n) as [[]|e] eqn:Ec; step_bind;
    [|eapply check_identifier_error; exact Ec].
  pose proof (spec_loop_keeps (S (List.length toks)) (new_Spec n) false toks
                ltac:(len_lia)) as Hk.
  destruct (spec_loop _ _ _ _) as [[[s1 a1] t1]|e]; simpl in Hk; step_bind;
    [exact Hk | exact Hk].
Qed.

Lemma do_parse_loop_ends (rounds : nat) :
  forall h specs toks,
    List.length toks < rounds ->
    do_parse_loop rounds h specs toks <> Raise loop_bound_error.
Proof.
  induction rounds as [|n IH]; intros h specs toks Hr; [len_lia |].
  cbn [do_parse_loop].
  destruct toks as [|t toks]; [discriminate |].
  destruct (accept ID (t :: toks)) as [[v t1]|] eqn:E1.
  { pose proof (parse_spec_keeps v t1) as Hk.
    destruct (parse_spec v t1) as [[s t2]|e]; simpl in Hk; step_bind;
      [|intros E; injection E as ->; contradiction].
    token_lengths. apply IH. simpl in *. len_lia. }
  destruct (accept DEP (t :: toks)) as [[v t1]|] eqn:E2; [|discriminate].
  destruct (last specs) as [parent|]; [|discriminate].
  pose proof (expect_consumes ID t1) as He.
  destruct (expect ID t1) as [[v2 t2]|e]; simpl in He; step_bind;
    [|intros E; injection E as ->; contradiction].
  pose proof (parse_spec_keeps v2 t2) as Hk.
  destruct (parse_spec v2 t2) as [[s t3]|e] eqn:Hd; simpl in Hk; step_bind;
    [|intros E; injection E as ->; contradiction].
  unfold alloc; cbv beta iota zeta.
  destruct (h !! parent) as [sp|] eqn:Hp.
  - destruct (parse_spec_links _ _ _ _ Hd) as [Hd1 _].
    rewrite (add_dependency_fresh _ _ _ _ Hp Hd1).
    destruct (bool_decide _); step_bind; [discriminate |].
    token_lengths. apply IH. simpl in *. len_lia.
  - apply lookup_ge_None in Hp. unfold _add_dependency, deref.
    destruct (decide (parent = List.length h)) as [->|Hne].
    + rewrite list_lookup_middle by reflexivity. cbv beta iota. step_bind.
      destruct (parse_spec_links _ _ _ _ Hd) as [Hd1 _].
      rewrite Hd1, lookup_empty.
      rewrite bool_decide_eq_false_2 by (intros [x Hx]; discriminate).
      rewrite list_lookup_insert_eq by (rewrite length_app; simpl; lia).
      step_bind. token_lengths. apply IH. simpl in *. len_lia.
    + rewrite (lookup_ge_None_2 (h ++ [s]) parent)
        by (rewrite length_app; simpl; lia).
      discriminate.
Qed.

(** No spec string makes the parser stop at the bound of a loop: what
    [parse] returns is what the parser returns. *)
Lemma parse_within_bounds (h : heap) (text : string) :
  parse h text <> Raise loop_bound_error.
Proof.
  unfold parse. destruct (lex None text) as [toks|e] eqn:El; simpl.
  - unfold do_parse.
    pose proof (do_parse_loop_ends (S (List.length toks)) h [] toks
                  ltac:(len_lia)) as Hd.
    destruct (do_parse_loop _ _ _ _) as [r|e]; [discriminate |].
    destruct e as [c msg|c p r k]; cbn [class_of];
      destruct (issubclass c ParseError); solve [discriminate | exact Hd].
  - clear h. revert e El. generalize (@None string).
    induction text as [|c text IH]; intros cur e; simpl; [discriminate |].
    destruct cur as [w|].
    + destruct (is_id_char c); [apply IH |].
      destruct (punctuation c).
      { destruct (lex None text) eqn:E; simpl; [discriminate |].
        intros E'. injection E' as <-. eapply IH; exact E. }
      destruct (is_space c); [|intros E; injection E as <-; discriminate].
      destruct (lex None text) eqn:E; simpl; [discriminate |].
      intros E'. injection E' as <-. eapply IH; exact E.
    + destruct (punctuation c).
      { destruct (lex None text) eqn:E; simpl; [discriminate |].
        intros E'. injection E' as <-. eapply IH; exact E. }
      destruct (is_word c); [apply IH |].
      destruct (is_space c); [apply IH |].
      intros E; injection E as <-; discriminate.
Qed.
(** ** Duplicate clauses *)

Lemma compiler_clause (spec : Spec) (added : bool) (p : string)
    (toks toks' : tokens) (c : Compiler.t) :
  parse_compiler toks = Ok (c, toks') ->
  spec_clause spec added (Token PCT p :: toks)
  = (spec' ← _set_compiler spec c; Ok (Some (spec', added, toks'))).
Proof. intros Hc. unfold spec_clause. simpl. rewrite Hc. reflexivity. Qed.

Lemma compiler_clause_raises (spec : Spec) (added : bool) (p : string)
    (toks : tokens) (e : exn) :
  parse_compiler toks = Raise e ->
  spec_clause spec added (Token PCT p :: toks) = Raise e.
Proof. intros Hc. unfold spec_clause. simpl. rewrite Hc. reflexivity. Qed.

Lemma architecture_clause (spec : Spec) (added : bool) (p a : string)
    (toks : tokens) :
  spec_clause spec added (Token EQ p :: Token ID a :: toks)
  = (spec' ← _set_architecture spec a; Ok (Some (spec', added, toks))).
Proof. reflexivity. Qed.

Lemma variant_clause (spec : Spec) (added : bool) (sigil : toktype)
    (p v : string) (toks : tokens) :
  sigil = ON \/ sigil = OFF ->
  spec_clause spec added (Token sigil p :: Token ID v :: toks)
  = (_ ← check_identifier v;
     spec' ← _add_variant spec v (bool_decide (sigil = ON));
     Ok (Some (spec', added, toks))).
Proof.
  intros [-> | ->]; unfold spec_clause, parse_variant; simpl;
    destruct (check_identifier v) as [[]|]; reflexivity.
Qed.

(** *** What is left of the tokens *)

Lemma accept_suffix (ty : toktype) (toks rest : tokens) (v : string) :
  accept ty toks = Some (v, rest) -> rest `suffix_of` toks.
Proof.
  destruct toks as [|t toks]; simpl; [discriminate |].
  destruct (bool_decide _); [|discriminate].
  intros E. injection E as <- <-. apply suffix_cons_r. reflexivity.
Qed.

Ltac suffix_chain :=
  first [ reflexivity
        | assumption
        | match goal with
          | H : ?a `suffix_of` ?b |- _ `suffix_of` ?b =>
              transitivity a; [clear H; suffix_chain | exact H]
          end ].

Lemma expect_suffix (ty : toktype) (toks rest : tokens) (v : string) :
  expect ty toks = Ok (v, rest) -> rest `suffix_of` toks.
Proof.
  unfold expect. destruct (accept ty toks) as [[v' r]|] eqn:E.
  - intros E'. injection E' as <- <-. eapply accept_suffix; exact E.
  - destruct toks; discriminate.
Qed.

Lemma version_suffix (toks rest : tokens) (v : VersionList.elem) :
  version toks = Ok (v, rest) -> rest `suffix_of` toks.
Proof.
  unfold version.
  destruct (accept ID toks) as [[w r]|] eqn:E1;
    [apply accept_suffix in E1 |];
    (destruct (accept COLON _) as [[c r2]|] eqn:E2;
     [apply accept_suffix in E2;
      destruct (accept ID r2) as [[w3 r3]|] eqn:E3;
      [apply accept_suffix in E3 |]
     | destruct (to_version _); [|discriminate]]);
    intros E; injection E as <- <-; suffix_chain.
Qed.

Lemma version_list_rest_suffix (rounds : nat) :
  forall vlist toks vl rest,
    version_list_rest rounds vlist toks = Ok (vl, rest) ->
    rest `suffix_of` toks.
Proof.
  induction rounds as [|n IH]; intros vlist toks vl rest; [discriminate |].
  cbn [version_list_rest].
  destruct (accept COMMA toks) as [[c r]|] eqn:E1;
    [|intros E; injection E as <- <-; reflexivity].
  destruct (version r) as [[v r2]|] eqn:E2; [|discriminate].
  rewrite bind_ok. cbv beta iota. intros E. apply IH in E.
  apply accept_suffix in E1. apply version_suffix in E2. suffix_chain.
Qed.

Lemma version_list_suffix (toks rest : tokens) (vl : list VersionList.elem) :
  version_list toks = Ok (vl, rest) -> rest `suffix_of` toks.
Proof.
  unfold version_list.
  destruct (version toks) as [[v r]|] eqn:E1; [|discriminate].
  rewrite bind_ok. cbv beta iota. intros E.
  apply version_list_rest_suffix in E. apply version_suffix in E1.
  suffix_chain.
Qed.

Lemma parse_compiler_suffix (toks rest : tokens) (c : Compiler.t) :
  parse_compiler toks = Ok (c, rest) -> rest `suffix_of` toks.
Proof.
  unfold parse_compiler.
  destruct (expect ID toks) as [[v r]|] eqn:E1; [|discriminate].
  rewrite bind_ok. cbv beta iota.
  destruct (check_identifier v) as [[]|]; [|discriminate].
  rewrite bind_ok. apply expect_suffix in E1.
  destruct (accept AT r) as [[a r2]|] eqn:E2.
  - destruct (version_list r2) as [[vl r3]|] eqn:E3; [|discriminate].
    rewrite bind_ok. cbv beta iota. intros E. injection E as <- <-.
    apply accept_suffix in E2. apply version_list_suffix in E3. suffix_chain.
  - intros E. injection E as <- <-. exact E1.
Qed.

Lemma parse_variant_suffix (toks rest : tokens) (v : string) :
  parse_variant toks = Ok (v, rest) -> rest `suffix_of` toks.
Proof.
  unfold parse_variant.
  destruct (expect ID toks) as [[w r]|] eqn:E1; [|discriminate].
  rewrite bind_ok. cbv beta iota.
  destruct (check_identifier w) as [[]|]; [|discriminate].
  rewrite bind_ok. intros E. injection E as <- <-.
  eapply expect_suffix; exact E1.
Qed.

Lemma spec_clause_suffix (spec spec' : Spec) (added added' : bool)
    (toks toks' : tokens) :
  spec_clause spec added toks = Ok (Some (spec', added', toks')) ->
  toks' `suffix_of` toks.
Proof.
  unfold spec_clause. intros E.
  destruct (accept AT toks) as [[? t1]|] eqn:E1.
  { destruct (version_list t1) as [[vl t2]|] eqn:Ev; [|discriminate].
    rewrite bind_ok in E. injection E as <- <- <-.
    apply accept_suffix in E1. apply version_list_suffix in Ev.
    suffix_chain. }
  destruct (accept ON toks) as [[? t1]|] eqn:E2.
  { destruct (parse_variant t1) as [[v t2]|] eqn:Ev; [|discriminate].
    rewrite bind_ok in E. cbv beta iota in E.
    destruct (_add_variant spec v true); [|discriminate].
    rewrite bind_ok in E. injection E as <- <- <-.
    apply accept_suffix in E2. apply parse_variant_suffix in Ev.
    suffix_chain. }
  destruct (accept OFF toks) as [[? t1]|] eqn:E3.
  { destruct (parse_variant t1) as [[v t2]|] eqn:Ev; [|discriminate].
    rewrite bind_ok in E. cbv beta iota in E.
    destruct (_add_variant spec v false); [|discriminate].
    rewrite bind_ok in E. injection E as <- <- <-.
    apply accept_suffix in E3. apply parse_variant_suffix in Ev.
    suffix_chain. }
  destruct (accept PCT toks) as [[? t1]|] eqn:E4.
  { destruct (parse_compiler t1) as [[c t2]|] eqn:Ev; [|discriminate].
    rewrite bind_ok in E. cbv beta iota in E.
    destruct (_set_compiler spec c); [|discriminate].
    rewrite bind_ok in E. injection E as <- <- <-.
    apply accept_suffix in E4. apply parse_compiler_suffix in Ev.
    suffix_chain. }
  destruct (accept EQ toks) as [[? t1]|] eqn:E5; [|discriminate].
  unfold parse_architecture in E.
  destruct (expect ID t1) as [[a t2]|] eqn:Ev; [|discriminate].
  rewrite bind_ok in E. cbv beta iota in E.
  destruct (_set_architecture spec a); [|discriminate].
  rewrite bind_ok in E. injection E as <- <- <-.
  apply accept_suffix in E5. apply expect_suffix in Ev. suffix_chain.
Qed.

Lemma spec_loop_suffix (rounds : nat) :
  forall spec added toks spec' added' toks',
    spec_loop rounds spec added toks = Ok (spec', added', toks') ->
    toks' `suffix_of` toks.
Proof.
  induction rounds as [|n IH]; intros spec added toks spec' added' toks';
    [discriminate |].
  cbn [spec_loop].
  destruct toks as [|t toks]; [intros E; injection E as <- <- <-; reflexivity |].
  destruct (spec_clause spec added (t :: toks)) as [[[[s1 a1] t1]|]|] eqn:Hc;
    rewrite ?bind_ok, ?bind_raise; try discriminate.
  - intros E. apply IH in E. apply spec_clause_suffix in Hc. suffix_chain.
  - intros E; injection E as <- <- <-; reflexivity.
Qed.

Lemma parse_spec_suffix (n : string) (toks toks' : tokens) (d : Spec) :
  parse_spec n toks = Ok (d, toks') -> toks' `suffix_of` toks.
Proof.
  unfold parse_spec. destruct (check_identifier n); [|discriminate].
  rewrite bind_ok.
  destruct (spec_loop _ _ _ _) as [[[s1 a1] t1]|] eqn:Hl; [|discriminate].
  rewrite bind_ok. cbv beta iota. intros E. injection E as <- <-.
  eapply spec_loop_suffix; exact Hl.
Qed.

Lemma lexed_suffix (toks rest : tokens) :
  rest `suffix_of` toks -> lexed toks -> lexed rest.
Proof.
  intros [k ->] Hl. apply Forall_app in Hl as [_ Hl]. exact Hl.
Qed.

(** *** The clauses of one spec *)

Lemma after_clauses_app (i j : nat) :
  forall spec added toks,
    after_clauses (i + j) spec added toks
    = match after_clauses i spec added toks with
      | Some (s1, a1, t1) => after_clauses j s1 a1 t1
      | None => None
      end.
Proof.
  induction i as [|i IH]; intros spec added toks; [reflexivity |].
  cbn [Nat.add after_clauses].
  destruct toks as [|t toks]; [reflexivity |].
  destruct (spec_clause spec added (t :: toks)) as [[[[s1 a1] t1]|]|];
    [apply IH | reflexivity | reflexivity].
Qed.

Lemma after_clauses_suffix (k : nat) :
  forall spec added toks spec' added' toks',
    after_clauses k spec added toks = Some (spec', added', toks') ->
    toks' `suffix_of` toks.
Proof.
  induction k as [|k IH]; intros spec added toks spec' added' toks';
    cbn [after_clauses].
  { intros E. injection E as <- <- <-. reflexivity. }
  destruct toks as [|t toks]; [discriminate |].
  destruct (spec_clause spec added (t :: toks)) as [[[[s1 a1] t1]|]|] eqn:Hc;
    try discriminate.
  intros E. apply IH in E. apply spec_clause_suffix in Hc. suffix_chain.
Qed.

(** The clauses read keep the name and what has been set. *)
Lemma after_clauses_keeps (k : nat) :
  forall spec added toks spec' added' toks',
    after_clauses k spec added toks = Some (spec', added', toks') ->
    name spec' = name spec
    /\ (is_Some (compiler spec) -> is_Some (compiler spec'))
    /\ (arch_truthy (architecture spec) = true ->
        arch_truthy (architecture spec') = true)
    /\ (forall v, is_Some (variants spec !! v) -> is_Some (variants spec' !! v)).
Proof.
  induction k as [|k IH]; intros spec added toks spec' added' toks';
    cbn [after_clauses].
  { intros E. injection E as <- <- <-. auto. }
  destruct toks as [|t toks]; [discriminate |].
  destruct (spec_clause spec added (t :: toks)) as [[[[s1 a1] t1]|]|] eqn:Hc;
    try discriminate.
  intros E. apply IH in E as (En & Ec & Ea & Ev).
  apply spec_clause_keeps in Hc as (Hn & Hcc & Ha & Hv).
  split; [congruence |].
  split; [intros Hs; apply Ec; rewrite (Hcc Hs); exact Hs |].
  split; [intros Hs; apply Ea; rewrite (Ha Hs); exact Hs |].
  intros v Hs. apply Ev, Hv, Hs.
Qed.

(** The loop of [SpecParser.spec] goes on from where it is after [k]
    clauses. *)
Lemma spec_loop_after (k : nat) :
  forall spec added toks spec' added' toks' rounds,
    after_clauses k spec added toks = Some (spec', added', toks') ->
    List.length toks < rounds ->
    exists rounds',
      List.length toks' < rounds'
      /\ spec_loop rounds spec added toks = spec_loop rounds' spec' added' toks'.
Proof.
  induction k as [|k IH]; intros spec added toks spec' added' toks' rounds;
    cbn [after_clauses].
  { intros E Hr. injection E as <- <- <-. eauto. }
  destruct toks as [|t toks]; [discriminate |].
  pose proof (spec_clause_consumes spec added (t :: toks)) as Hlen.
  destruct (spec_clause spec added (t :: toks)) as [[[[s1 a1] t1]|]|] eqn:Hc;
    try discriminate.
  intros E Hr. destruct rounds as [|rounds]; [lia |].
  destruct (IH _ _ _ _ _ _ rounds E ltac:(lia)) as (r' & Hr' & Eq).
  exists r'. split; [exact Hr' |].
  cbn [spec_loop]. rewrite Hc, bind_ok. exact Eq.
Qed.

(** A clause that raises ends [SpecParser.spec] with its exception. *)
Lemma parse_spec_clause_raises (n : string) (ts : tokens) (k : nat)
    (s : Spec) (a : bool) (t : token) (rest : tokens) (e : exn) :
  string_contains "." n = false ->
  after_clauses k (new_Spec n) false ts = Some (s, a, t :: rest) ->
  spec_clause s a (t :: rest) = Raise e ->
  parse_spec n ts = Raise e.
Proof.
  intros Hn Hk Hc. unfold parse_spec, check_identifier. rewrite Hn, bind_ok.
  destruct (spec_loop_after _ _ _ _ _ _ _ (S (List.length ts)) Hk ltac:(lia))
    as (r' & Hr' & ->).
  destruct r' as [|r']; [simpl in Hr'; lia |].
  cbn [spec_loop]. rewrite Hc. reflexivity.
Qed.

(** The state after [i] clauses and after [S (i + j)] clauses: the
    clause read in between and the [j] clauses after it. *)
Lemma after_clauses_between (i j : nat) (spec : Spec) (added : bool)
    (toks : tokens) (s1 s3 : Spec) (a1 a3 : bool) (t1 t3 : tokens) :
  after_clauses i spec added toks = Some (s1, a1, t1) ->
  after_clauses (S (i + j)) spec added toks = Some (s3, a3, t3) ->
  exists s2 a2 t2,
    spec_clause s1 a1 t1 = Ok (Some (s2, a2, t2))
    /\ after_clauses j s2 a2 t2 = Some (s3, a3, t3).
Proof.
  intros Hi Hj.
  replace (S (i + j)) with (i + S j) in Hj by lia.
  rewrite after_clauses_app, Hi in Hj. cbn [after_clauses] in Hj.
  destruct t1 as [|t t1]; [discriminate |].
  destruct (spec_clause s1 a1 (t :: t1)) as [[[[s2 a2] t2]|]|];
    try discriminate.
  eauto.
Qed.

(** *** The rounds of [do_parse] *)

Lemma do_parse_loop_round (rounds : nat) (h : heap) (specs : list loc)
    (toks : tokens) :
  do_parse_loop (S rounds) h specs toks
  = match toks with
    | [] => Ok (specs, h)
    | _ =>
        '(h', specs', toks') ← parse_round h specs toks;
        do_parse_loop rounds h' specs' toks'
    end.
Proof.
  cbn [do_parse_loop]. destruct toks as [|t toks]; [reflexivity |].
  unfold parse_round.
  destruct (accept ID (t :: toks)) as [[n t1]|].
  { destruct (parse_spec n t1) as [[s t2]|]; reflexivity. }
  destruct (accept DEP (t :: toks)) as [[p t1]|]; [|reflexivity].
  destruct (last specs) as [parent|]; [|reflexivity].
  destruct (expect ID t1) as [[n t2]|]; [|reflexivity].
  rewrite !bind_ok. cbv beta iota.
  destruct (parse_spec n t2) as [[s t3]|]; [|reflexivity].
  rewrite !bind_ok. cbv beta iota. unfold alloc. cbv beta iota zeta.
  destruct (_add_dependency _ _ _); reflexivity.
Qed.

Lemma parse_round_suffix (h h' : heap) (specs specs' : list loc)
    (toks toks' : tokens) :
  parse_round h specs toks = Ok (h', specs', toks') ->
  toks' `suffix_of` toks /\ List.length toks' < List.length toks.
Proof.
  unfold parse_round.
  destruct (accept ID toks) as [[n t1]|] eqn:E1.
  { destruct (parse_spec n t1) as [[s t2]|] eqn:E2; [|discriminate].
    rewrite bind_ok. cbv beta iota. unfold alloc. cbv beta iota zeta.
    intros E. injection E as <- <- <-.
    pose proof (accept_length _ _ _ _ E1).
    apply accept_suffix in E1. apply parse_spec_suffix in E2.
    pose proof (suffix_length _ _ E2).
    split; [suffix_chain | lia]. }
  destruct (accept DEP toks) as [[p t1]|] eqn:E3; [|discriminate].
  destruct (last specs) as [parent|]; [|discriminate].
  destruct (expect ID t1) as [[n t2]|] eqn:E4; [|discriminate].
  rewrite bind_ok. cbv beta iota.
  destruct (parse_spec n t2) as [[s t3]|] eqn:E5; [|discriminate].
  rewrite bind_ok. cbv beta iota. unfold alloc. cbv beta iota zeta.
  destruct (_add_dependency _ _ _); [|discriminate].
  rewrite bind_ok. intros E. injection E as <- <- <-.
  pose proof (accept_length _ _ _ _ E3).
  apply accept_suffix in E3. apply expect_suffix in E4.
  apply parse_spec_suffix in E5.
  pose proof (suffix_length _ _ E4). pose proof (suffix_length _ _ E5).
  split; [suffix_chain | lia].
Qed.

Lemma after_rounds_app (i j : nat) :
  forall h specs toks,
    after_rounds (i + j) h specs toks
    = match after_rounds i h specs toks with
      | Some (h1, specs1, toks1) => after_rounds j h1 specs1 toks1
      | None => None
      end.
Proof.
  induction i as [|i IH]; intros h specs toks; [reflexivity |].
  cbn [Nat.add after_rounds].
  destruct toks as [|t toks]; [reflexivity |].
  destruct (parse_round h specs (t :: toks)) as [[[h1 specs1] toks1]|];
    [apply IH | reflexivity].
Qed.

Lemma after_rounds_suffix (k : nat) :
  forall h specs toks h' specs' toks',
    after_rounds k h specs toks = Some (h', specs', toks') ->
    toks' `suffix_of` toks.
Proof.
  induction k as [|k IH]; intros h specs toks h' specs' toks';
    cbn [after_rounds].
  { intros E. injection E as <- <- <-. reflexivity. }
  destruct toks as [|t toks]; [discriminate |].
  destruct (parse_round h specs (t :: toks)) as [[[h1 specs1] toks1]|] eqn:Hr;
    [|discriminate].
  intros E. apply IH in E. apply parse_round_suffix in Hr as [Hr _].
  suffix_chain.
Qed.

(** The loop of [do_parse] goes on from where it is after [k] rounds. *)
Lemma do_parse_loop_after (k : nat) :
  forall h specs toks h' specs' toks' rounds,
    after_rounds k h specs toks = Some (h', specs', toks') ->
    List.length toks < rounds ->
    exists rounds',
      List.length toks' < rounds'
      /\ do_parse_loop rounds h specs toks
         = do_parse_loop rounds' h' specs' toks'.
Proof.
  induction k as [|k IH]; intros h specs toks h' specs' toks' rounds;
    cbn [after_rounds].
  { intros E Hr. injection E as <- <- <-. eauto. }
  destruct toks as [|t toks]; [discriminate |].
  destruct (parse_round h specs (t :: toks)) as [[[h1 specs1] toks1]|] eqn:Hp;
    [|discriminate].
  intros E Hr. destruct rounds as [|rounds]; [lia |].
  apply parse_round_suffix in Hp as Hlen. destruct Hlen as [_ Hlen].
  destruct (IH _ _ _ _ _ _ rounds E ltac:(lia)) as (r' & Hr' & Eq).
  exists r'. split; [exact Hr' |].
  rewrite do_parse_loop_round, Hp, bind_ok. exact Eq.
Qed.

(** A round that raises an exception that is no [ParseError] ends
    [parse] with that exception. *)
Lemma parse_round_raises (h : heap) (text : string) (toks : tokens) (k : nat)
    (h1 : heap) (specs1 : list loc) (t : token) (toks1 : tokens) (e : exn) :
  lex None text = Ok toks ->
  after_rounds k h [] toks = Some (h1, specs1, t :: toks1) ->
  parse_round h1 specs1 (t :: toks1) = Raise e ->
  issubclass (class_of e) ParseError = false ->
  parse h text = Raise e.
Proof.
  intros Hlex Hk Hr Hcls. unfold parse. rewrite Hlex, bind_ok.
  unfold do_parse.
  destruct (do_parse_loop_after _ _ _ _ _ _ _ (S (List.length toks)) Hk
              ltac:(lia)) as (r' & Hr' & ->).
  destruct r' as [|r']; [simpl in Hr'; lia |].
  rewrite do_parse_loop_round, Hr, bind_raise, Hcls. reflexivity.
Qed.

(** Where a spec begins, an exception of [SpecParser.spec] is the
    exception of the round. *)
Lemma parse_round_begins (h : heap) (specs : list loc) (toks ts : tokens)
    (n : string) (e : exn) :
  spec_begins specs toks = Some (n, ts) ->
  parse_spec n ts = Raise e ->
  parse_round h specs toks = Raise e.
Proof.
  unfold spec_begins, parse_round. intros Hb Hs.
  destruct toks as [|[[] v] toks]; try discriminate.
  - destruct toks as [|[[] v2] toks]; try discriminate.
    destruct (last specs) as [parent|]; [|discriminate].
    injection Hb as <- <-. simpl. rewrite Hs. reflexivity.
  - injection Hb as <- <-. simpl. rewrite Hs. reflexivity.
Qed.

Lemma spec_begins_suffix (specs : list loc) (toks ts : tokens) (n : string) :
  spec_begins specs toks = Some (n, ts) ->
  ts `suffix_of` toks /\ toks <> [].
Proof.
  unfold spec_begins. intros Hb.
  destruct toks as [|[[] v] toks]; try discriminate.
  - destruct toks as [|[[] v2] toks]; try discriminate.
    destruct (last specs); [|discriminate]. injection Hb as <- <-.
    split; [do 2 apply suffix_cons_r; reflexivity | discriminate].
  - injection Hb as <- <-.
    split; [apply suffix_cons_r; reflexivity | discriminate].
Qed.

(** *** Dependencies *)

(** [_add_dependency] files the new dependency under its name and
    keeps the names that were there. *)
Lemma add_dependency_entries (h h' : heap) (self spec : loc) :
  _add_dependency h self spec = Ok h' ->
  (exists s' d, h !! spec = Some d /\ h' !! self = Some s'
                /\ dependencies s' !! name d = Some spec)
  /\ (forall l y n, h !! l = Some y -> is_Some (dependencies y !! n) ->
        exists y', h' !! l = Some y' /\ is_Some (dependencies y' !! n)).
Proof.
  unfold _add_dependency, deref. intros E.
  destruct (h !! self) as [s|] eqn:Hs; [|discriminate].
  destruct (h !! spec) as [d|] eqn:Hd; [|discriminate].
  rewrite !bind_ok in E.
  destruct (bool_decide (is_Some (dependencies s !! name d)));
    [destruct (str_of_spec h spec); discriminate |].
  pose proof (lookup_lt_Some _ _ _ Hs) as Hlts.
  pose proof (lookup_lt_Some _ _ _ Hd) as Hltd.
  set (s' := set_dependencies s (<[name d := spec]> (dependencies s))) in *.
  destruct ((<[self := s']> h) !! spec) as [d1|] eqn:Hd1; [|discriminate].
  rewrite bind_ok in E. injection E as <-.
  assert (Hd1' : dependencies d1
                 = if decide (spec = self) then dependencies s'
                   else dependencies d).
  { destruct (decide (spec = self)) as [->|Hne].
    - rewrite list_lookup_insert_eq in Hd1 by exact Hlts. congruence.
    - rewrite list_lookup_insert_ne in Hd1 by congruence. congruence. }
  split.
  - destruct (decide (spec = self)) as [->|Hne].
    + eexists _, d. split; [reflexivity |].
      split; [apply list_lookup_insert_eq; rewrite length_insert; exact Hlts |].
      simpl. rewrite Hd1'. unfold s'. simpl. apply lookup_insert_eq.
    + eexists s', d. split; [reflexivity |].
      split; [rewrite list_lookup_insert_ne by congruence;
              apply list_lookup_insert_eq; exact Hlts |].
      unfold s'. simpl. apply lookup_insert_eq.
  - intros l y n Hl Hn.
    assert (Hs' : is_Some (dependencies s !! n) ->
                  is_Some (dependencies s' !! n)).
    { intros Hx. unfold s'. simpl.
      destruct (decide (name d = n)) as [->|Hne];
        [rewrite lookup_insert_eq; eauto
        | rewrite lookup_insert_ne by exact Hne; exact Hx]. }
    destruct (decide (l = spec)) as [->|Hne1].
    + eexists. split;
        [apply list_lookup_insert_eq; rewrite length_insert; exact Hltd |].
      simpl. rewrite Hd1'.
      destruct (decide (spec = self)) as [->|Hne2].
      * apply Hs'. congruence.
      * congruence.
    + rewrite list_lookup_insert_ne by congruence.
      destruct (decide (l = self)) as [->|Hne2].
      * exists s'. split; [apply list_lookup_insert_eq; exact Hlts |].
        apply Hs'. congruence.
      * exists y. rewrite list_lookup_insert_ne by congruence. auto.
Qed.

(** A round of [do_parse] keeps the names under which dependencies are
    filed. *)
Lemma parse_round_entries (h h' : heap) (specs specs' : list loc)
    (toks toks' : tokens) :
  parse_round h specs toks = Ok (h', specs', toks') ->
  forall l y n, h !! l = Some y -> is_Some (dependencies y !! n) ->
    exists y', h' !! l = Some y' /\ is_Some (dependencies y' !! n).
Proof.
  unfold parse_round. intros E l y n Hl Hn.
  assert (Hext : forall d, (h ++ [d]) !! l = Some y)
    by (intros d; rewrite lookup_app_l by (eapply lookup_lt_Some; exact Hl);
        exact Hl).
  destruct (accept ID toks) as [[v t1]|].
  { destruct (parse_spec v t1) as [[s t2]|]; [|discriminate].
    rewrite bind_ok in E. cbv beta iota in E. unfold alloc in E.
    cbv beta iota zeta in E. injection E as <- <- <-. eauto. }
  destruct (accept DEP toks) as [[p t1]|]; [|discriminate].
  destruct (last specs) as [parent|]; [|discriminate].
  destruct (expect ID t1) as [[v t2]|]; [|discriminate].
  rewrite bind_ok in E. cbv beta iota in E.
  destruct (parse_spec v t2) as [[s t3]|]; [|discriminate].
  rewrite bind_ok in E. cbv beta iota in E. unfold alloc in E.
  cbv beta iota zeta in E.
  destruct (_add_dependency _ _ _) as [h2|] eqn:Ea; [|discriminate].
  rewrite bind_ok in E. injection E as <- <- <-.
  apply add_dependency_entries in Ea as [_ Hk]. eapply Hk; eauto.
Qed.

Lemma after_rounds_entries (k : nat) :
  forall h specs toks h' specs' toks',
    after_rounds k h specs toks = Some (h', specs', toks') ->
    forall l y n, h !! l = Some y -> is_Some (dependencies y !! n) ->
      exists y', h' !! l = Some y' /\ is_Some (dependencies y' !! n).
Proof.
  induction k as [|k IH]; intros h specs toks h' specs' toks';
    cbn [after_rounds].
  { intros E. injection E as <- <- <-. eauto. }
  destruct toks as [|t toks]; [discriminate |].
  destruct (parse_round h specs (t :: toks)) as [[[h1 specs1] toks1]|] eqn:Hr;
    [|discriminate].
  intros E l y n Hl Hn.
  destruct (parse_round_entries _ _ _ _ _ _ Hr l y n Hl Hn) as (y1 & Hl1 & Hn1).
  eapply IH; eauto.
Qed.

(** The round that reads [^n ...] for the spec [parent]. *)
Lemma dependency_round (h : heap) (specs : list loc) (parent : loc)
    (p n : string) (toks toks' : tokens) (d : Spec) :
  last specs = Some parent ->
  parse_spec n toks = Ok (d, toks') ->
  parse_round h specs (Token DEP p :: Token ID n :: toks)
  = (h2 ← _add_dependency (h ++ [d]) parent (List.length h);
     Ok (h2, specs, toks')).
Proof.
  intros Hl Hd. unfold parse_round. simpl accept. cbv beta iota.
  rewrite Hl. simpl. rewrite Hd. reflexivity.
Qed.

(** C8: on every duplicate clause [parse] raises the matching typed
    error.  The text is lexed, and the loop of [do_parse] has gone
    round [k] times and is at the start of a spec named [n].  When the
    loop of [SpecParser.spec] is at a [%] clause after [i] clauses and
    again after [S (i + j)] clauses, so that the first has been read,
    [parse] raises [DuplicateCompilerError]; the same for two [=]
    clauses and [DuplicateArchitectureError], and for two variant
    clauses ([+] or [~]) with the same name and [DuplicateVariantError].
    When the loop of [do_parse] is at [^n] for the spec [parent], and
    again [S j] rounds later, [parse] raises [DuplicateDependencyError],
    whose message names the second dependency as [str] prints it. *)
Theorem duplicate_clauses_raise (h : heap) (text : string) (toks : tokens)
    (k : nat) (h1 : heap) (specs1 : list loc) (toks1 : tokens) :
  lex None text = Ok toks ->
  after_rounds k h [] toks = Some (h1, specs1, toks1) ->
  (forall n ts i j s1 a1 p t1 s3 a3 q rest c rest',
      spec_begins specs1 toks1 = Some (n, ts) ->
      string_contains "." n = false ->
      after_clauses i (new_Spec n) false ts
      = Some (s1, a1, Token PCT p :: t1) ->
      after_clauses (S (i + j)) (new_Spec n) false ts
      = Some (s3, a3, Token PCT q :: rest) ->
      parse_compiler rest = Ok (c, rest') ->
      parse h text
      = Raise (Exception DuplicateCompilerError
                 ("Spec for '" +:+ n +:+ "' cannot have two compilers.")))
  /\ (forall n ts i j s1 a1 p a t1 s3 a3 q b rest,
        spec_begins specs1 toks1 = Some (n, ts) ->
        string_contains "." n = false ->
        after_clauses i (new_Spec n) false ts
        = Some (s1, a1, Token EQ p :: Token ID a :: t1) ->
        after_clauses (S (i + j)) (new_Spec n) false ts
        = Some (s3, a3, Token EQ q :: Token ID b :: rest) ->
        parse h text
        = Raise (Exception DuplicateArchitectureError
                   ("Spec for '" +:+ n +:+ "' cannot have two architectures.")))
  /\ (forall n ts i j s1 a1 sigil1 p v t1 s3 a3 sigil2 q rest,
        spec_begins specs1 toks1 = Some (n, ts) ->
        string_contains "." n = false ->
        sigil1 = ON \/ sigil1 = OFF ->
        sigil2 = ON \/ sigil2 = OFF ->
        after_clauses i (new_Spec n) false ts
        = Some (s1, a1, Token sigil1 p :: Token ID v :: t1) ->
        after_clauses (S (i + j)) (new_Spec n) false ts
        = Some (s3, a3, Token sigil2 q :: Token ID v :: rest) ->
        parse h text
        = Raise (Exception DuplicateVariantError
                   ("Cannot specify variant '" +:+ v +:+ "' twice")))
  /\ (forall j parent p n ts h3 specs3 q ts3 d ts',
        toks1 = Token DEP p :: Token ID n :: ts ->
        last specs1 = Some parent ->
        after_rounds (S j) h1 specs1 toks1
        = Some (h3, specs3, Token DEP q :: Token ID n :: ts3) ->
        last specs3 = Some parent ->
        parse_spec n ts3 = Ok (d, ts') ->
        parse h text
        = Raise (Exception DuplicateDependencyError
                   ("Cannot depend on '" +:+ node_format d +:+ "' twice"))).
Proof.
  intros Hlex Hk.
  assert (Hspec : forall n ts e,
             spec_begins specs1 toks1 = Some (n, ts) ->
             parse_spec n ts = Raise e ->
             issubclass (class_of e) ParseError = false ->
             parse h text = Raise e).
  { intros n ts e Hb Hs Hcls.
    pose proof (spec_begins_suffix _ _ _ _ Hb) as [_ Hne].
    destruct toks1 as [|t toks1]; [contradiction |].
    eapply parse_round_raises; [exact Hlex | exact Hk | | exact Hcls].
    eapply parse_round_begins; eassumption. }
  assert (Hlexed : forall n ts, spec_begins specs1 toks1 = Some (n, ts) ->
                                lexed ts).
  { intros n ts Hb. apply spec_begins_suffix in Hb as [Hb _].
    apply after_rounds_suffix in Hk.
    eapply lexed_suffix; [|eapply lex_ID_nonempty; [|exact Hlex]; discriminate].
    suffix_chain. }
  split; [|split; [|split]].
  - intros n ts i j s1 a1 p t1 s3 a3 q rest c rest' Hb Hn Hi Hj Hc.
    destruct (after_clauses_between _ _ _ _ _ _ _ _ _ _ _ Hi Hj)
      as (s2 & a2 & t2 & H1 & H2).
    destruct (parse_compiler t1) as [[c1 r1]|e1] eqn:Hc1;
      [|rewrite (compiler_clause_raises _ _ _ _ _ Hc1) in H1; discriminate].
    rewrite (compiler_clause _ _ _ _ _ _ Hc1) in H1. unfold _set_compiler in H1.
    destruct (bool_decide (is_Some (compiler s1))); [discriminate |].
    rewrite bind_ok in H1. injection H1 as <- <- <-.
    destruct (after_clauses_keeps _ _ _ _ _ _ _ H2) as (E2 & K2 & _).
    destruct (after_clauses_keeps _ _ _ _ _ _ _ Hi) as (E1 & _).
    apply (Hspec n ts); [exact Hb | | reflexivity].
    eapply parse_spec_clause_raises; [exact Hn | exact Hj |].
    rewrite (compiler_clause _ _ _ _ _ _ Hc). unfold _set_compiler.
    rewrite bool_decide_eq_true_2 by (apply K2; simpl; eauto).
    rewrite E2. simpl. rewrite E1. reflexivity.
  - intros n ts i j s1 a1 p a t1 s3 a3 q b rest Hb Hn Hi Hj.
    destruct (after_clauses_between _ _ _ _ _ _ _ _ _ _ _ Hi Hj)
      as (s2 & a2 & t2 & H1 & H2).
    rewrite architecture_clause in H1. unfold _set_architecture in H1.
    destruct (arch_truthy (architecture s1)); [discriminate |].
    rewrite bind_ok in H1. injection H1 as <- <- <-.
    assert (Ha : a <> "").
    { pose proof (Hlexed n ts Hb) as Hl.
      apply after_clauses_suffix in Hi.
      apply (lexed_suffix _ _ Hi) in Hl.
      apply Forall_cons in Hl as [_ Hl]. apply Forall_cons in Hl as [Hl _].
      apply Hl. reflexivity. }
    destruct (after_clauses_keeps _ _ _ _ _ _ _ H2) as (E2 & _ & K2 & _).
    destruct (after_clauses_keeps _ _ _ _ _ _ _ Hi) as (E1 & _).
    apply (Hspec n ts); [exact Hb | | reflexivity].
    eapply parse_spec_clause_raises; [exact Hn | exact Hj |].
    rewrite architecture_clause. unfold _set_architecture.
    rewrite K2.
    + rewrite E2. simpl. rewrite E1. reflexivity.
    + simpl. destruct (String.eqb a "") eqn:Eq; [|reflexivity].
      apply String.eqb_eq in Eq. contradiction.
  - intros n ts i j s1 a1 sigil1 p v t1 s3 a3 sigil2 q rest Hb Hn Hg1 Hg2
      Hi Hj.
    destruct (after_clauses_between _ _ _ _ _ _ _ _ _ _ _ Hi Hj)
      as (s2 & a2 & t2 & H1 & H2).
    rewrite (variant_clause _ _ _ _ _ _ Hg1) in H1.
    destruct (check_identifier v) as [[]|] eqn:Hv; [|discriminate].
    rewrite bind_ok in H1. unfold _add_variant in H1.
    destruct (bool_decide (is_Some (variants s1 !! v))); [discriminate |].
    rewrite bind_ok in H1. injection H1 as <- <- <-.
    destruct (after_clauses_keeps _ _ _ _ _ _ _ H2) as (_ & _ & _ & K2).
    apply (Hspec n ts); [exact Hb | | reflexivity].
    eapply parse_spec_clause_raises; [exact Hn | exact Hj |].
    rewrite (variant_clause _ _ _ _ _ _ Hg2), Hv, bind_ok.
    unfold _add_variant.
    rewrite bool_decide_eq_true_2; [reflexivity |].
    apply K2. simpl. rewrite lookup_insert_eq. eauto.
  - intros j parent p n ts h3 specs3 q ts3 d ts' -> Hlast Hj Hlast3 Hd.
    change (S j) with (1 + j) in Hj. rewrite after_rounds_app in Hj.
    cbn [after_rounds] in Hj.
    destruct (parse_round h1 specs1 (Token DEP p :: Token ID n :: ts))
      as [[[h2 specs2] toks2]|] eqn:Hr; [|discriminate].
    assert (Hpar : exists sp, h2 !! parent = Some sp
                              /\ is_Some (dependencies sp !! n)).
    { destruct (parse_spec n ts) as [[d1 r1]|e1] eqn:Hd1.
      - rewrite (dependency_round _ _ _ _ _ _ _ _ Hlast Hd1) in Hr.
        destruct (_add_dependency _ _ _) as [hh|] eqn:Ea; [|discriminate].
        rewrite bind_ok in Hr. injection Hr as <- <- <-.
        apply add_dependency_entries in Ea as [(s' & d0 & Hd0 & Hs' & Hn') _].
        rewrite list_lookup_middle in Hd0 by reflexivity. injection Hd0 as <-.
        rewrite (parse_spec_name _ _ _ _ Hd1) in Hn'. eauto.
      - exfalso. unfold parse_round in Hr. simpl accept in Hr.
        cbv beta iota in Hr. rewrite Hlast in Hr. simpl in Hr.
        rewrite Hd1 in Hr. discriminate. }
    destruct Hpar as (sp & Hsp & Hn).
    destruct (after_rounds_entries _ _ _ _ _ _ _ Hj parent sp n Hsp Hn)
      as (sp3 & Hsp3 & Hn3).
    pose proof (after_rounds_suffix _ _ _ _ _ _ _ Hj) as Hsuf.
    assert (Hk3 : after_rounds (k + 1) h [] toks
                  = Some (h2, specs2, toks2)).
    { rewrite after_rounds_app, Hk. cbn [after_rounds]. rewrite Hr.
      reflexivity. }
    assert (Hk4 : after_rounds (k + 1 + j) h [] toks
                  = Some (h3, specs3, Token DEP q :: Token ID n :: ts3)).
    { rewrite after_rounds_app, Hk3. exact Hj. }
    eapply parse_round_raises; [exact Hlex | exact Hk4 | | reflexivity].
    rewrite (dependency_round _ _ _ _ _ _ _ _ Hlast3 Hd).
    destruct (parse_spec_links _ _ _ _ Hd) as [Hleaf _].
    rewrite (add_dependency_fresh _ _ _ _ Hsp3 Hleaf).
    rewrite (parse_spec_name _ _ _ _ Hd).
    rewrite bool_decide_eq_true_2 by exact Hn3. reflexivity.
Qed.

Lemma duplicate_clauses_witness :
  parse [] "a%gcc@4.5+x%intel"
  = Raise (Exception DuplicateCompilerError
             "Spec for 'a' cannot have two compilers.")
  /\ parse [] "a ^b=x+d=y"
     = Raise (Exception DuplicateArchitectureError
                "Spec for 'b' cannot have two architectures.")
  /\ parse [] "a+x%gcc~x"
     = Raise (Exception DuplicateVariantError
                "Cannot specify variant 'x' twice")
  /\ exists d,
       parse_spec "b" [Token AT "@"; Token ID "1.3"] = Ok (d, [])
       /\ node_format d = "b@1.3"
       /\ parse [] "a ^b ^c ^b@1.3"
          = Raise (Exception DuplicateDependencyError
                     ("Cannot depend on '" +:+ node_format d +:+ "' twice")).
Proof.
  split; [|split; [|split]].
  - pose (toks := match lex None "a%gcc@4.5+x%intel" with
                  | Ok t => t
                  | Raise _ => []
                  end).
    edestruct (duplicate_clauses_raise [] "a%gcc@4.5+x%intel" toks 0)
      as (Hc & _); [vm_compute; reflexivity | vm_compute; reflexivity |].
    eapply (Hc "a" _ 0 1);
      [reflexivity | reflexivity | reflexivity | vm_compute; reflexivity
      | vm_compute; reflexivity].
  - pose (toks := match lex None "a ^b=x+d=y" with
                  | Ok t => t
                  | Raise _ => []
                  end).
    edestruct (duplicate_clauses_raise [] "a ^b=x+d=y" toks 1)
      as (_ & Ha & _); [vm_compute; reflexivity | vm_compute; reflexivity |].
    eapply (Ha "b" _ 0 1);
      [reflexivity | reflexivity | reflexivity | vm_compute; reflexivity].
  - pose (toks := match lex None "a+x%gcc~x" with
                  | Ok t => t
                  | Raise _ => []
                  end).
    edestruct (duplicate_clauses_raise [] "a+x%gcc~x" toks 0)
      as (_ & _ & Hv & _); [vm_compute; reflexivity | vm_compute; reflexivity |].
    eapply (Hv "a" _ 0 1 _ _ _ _ "x");
      [reflexivity | reflexivity | left; reflexivity | right; reflexivity
      | reflexivity | vm_compute; reflexivity].
  - eexists. split; [vm_compute; reflexivity |].
    split; [vm_compute; reflexivity |].
    pose (toks := match lex None "a ^b ^c ^b@1.3" with
                  | Ok t => t
                  | Raise _ => []
                  end).
    edestruct (duplicate_clauses_raise [] "a ^b ^c ^b@1.3" toks 1)
      as (_ & _ & _ & Hd); [vm_compute; reflexivity | vm_compute; reflexivity |].
    eapply (Hd 1 0);
      [reflexivity | reflexivity | vm_compute; reflexivity | reflexivity
      | vm_compute; reflexivity].
Defined.

(** The four duplicates in whole spec strings. *)
Example duplicate_clauses_parsed :
  parse [] "a%gcc%intel"
  = Raise (Exception DuplicateCompilerError
             "Spec for 'a' cannot have two compilers.")
  /\ parse [] "a=x=y"
     = Raise (Exception DuplicateArchitectureError
                "Spec for 'a' cannot have two architectures.")
  /\ parse [] "a+x~x"
     = Raise (Exception DuplicateVariantError
                "Cannot specify variant 'x' twice")
  /\ parse [] "a^b^b"
     = Raise (Exception DuplicateDependencyError
                "Cannot depend on 'b' twice")
  /\ parse [] "a ^b%gcc@4.5 ^c ^b%intel@12.1+debug"
     = Raise (Exception DuplicateDependencyError
                "Cannot depend on 'b%intel@12.1+debug' twice").
Proof. repeat split; vm_compute; reflexivity. Qed.

(** ** The order of names *)

Lemma str_le_trans (a b c : string) : str_le a b -> str_le b c -> str_le a c.
Proof.
  unfold str_le, String.leb. revert b c.
  induction a as [|x a IH]; intros [|y b] [|z c]; simpl; try congruence.
  unfold Ascii.compare.
  destruct (N.compare_spec (N_of_ascii x) (N_of_ascii y)) as [E1|L1|G1];
    destruct (N.compare_spec (N_of_ascii y) (N_of_ascii z)) as [E2|L2|G2];
    try congruence; intros H1 H2.
  - rewrite E1, E2, N.compare_refl. eapply IH; eassumption.
  - rewrite E1. apply N.compare_lt_iff in L2. rewrite L2. reflexivity.
  - rewrite <- E2. apply N.compare_lt_iff in L1. rewrite L1. reflexivity.
  - assert (L : (N_of_ascii x < N_of_ascii z)%N) by lia.
    apply N.compare_lt_iff in L. rewrite L. reflexivity.
Qed.

#[global] Instance str_le_transitive : Transitive str_le.
Proof. intros a b c. apply str_le_trans. Qed.

#[global] Instance str_le_total : Total str_le.
Proof. intros a b. apply String.leb_total. Qed.

#[global] Instance str_le_antisymm : AntiSymm (=) str_le.
Proof. intros a b. apply String.leb_antisym. Qed.


Lemma sorted_strings_perm (l : list string) : sorted_strings l ≡ₚ l.
Proof. apply merge_sort_Permutation. Qed.

Lemma elem_of_sorted_names (s : Spec) (n : string) :
  n ∈ sorted_names s <-> is_Some (dependencies s !! n).
Proof.
  unfold sorted_names. rewrite sorted_strings_perm.
  rewrite list_elem_of_fmap. split.
  - intros [[k v] [-> Hkv]]. apply elem_of_map_to_list in Hkv. eauto.
  - intros [v Hv]. exists (n, v). split; [reflexivity |].
    apply elem_of_map_to_list. exact Hv.
Qed.



Lemma elem_of_sorted_children (s : Spec) (c : loc) :
  c ∈ sorted_children s <-> exists n, dependencies s !! n = Some c.
Proof.
  unfold sorted_children. rewrite list_elem_of_omap. split.
  - intros [n [_ Hn]]. eauto.
  - intros [n Hn]. exists n. split; [|exact Hn].
    apply elem_of_sorted_names. eauto.
Qed.

(** ** The traversal with [cover='nodes'] *)

Section traversal_facts.
Context {K : Type} `{Countable K}.
Variable key_fun : loc -> Spec -> K.
Variable yield_root : bool.
Variable h : heap.
Variable rank : loc -> nat.
Hypothesis Hclosed : closed h.
Hypothesis Hacyclic : acyclic h rank.

Lemma keys_app (a b : list (nat * loc)) : keys key_fun h (a ++ b) = keys key_fun h a ++ keys key_fun h b.
Proof. unfold keys. rewrite fmap_app, map_app. reflexivity. Qed.

Lemma elem_of_keys (k : K) (ys : list (nat * loc)) :
  k ∈ keys key_fun h ys <-> exists dl, dl ∈ ys /\ k = key_of key_fun h dl.2.
Proof.
  unfold keys. rewrite list_elem_of_fmap. split.
  - intros [l [-> Hl]]. apply list_elem_of_fmap in Hl as [dl [-> Hdl]]. eauto.
  - intros [dl [Hdl ->]]. exists dl.2. split; [reflexivity |].
    apply list_elem_of_fmap. eauto.
Qed.

Lemma visit_children_post
    (rec : gset K -> loc -> result (list (nat * loc) * gset K))
    (d : nat) (cs : list loc) :
  (forall V c, c ∈ cs ->
     exists ys V', rec V c = Ok (ys, V') /\ visit_post key_fun yield_root h V (S d) c ys V') ->
  forall visited,
  exists ys V', visit_children rec cs visited = Ok (ys, V')
                /\ children_post key_fun h visited cs ys V'.
Proof.
  induction cs as [|c cs IH]; intros Hrec visited; simpl.
  - exists [], visited. split; [reflexivity |].
    repeat split; try set_solver. constructor.
  - destruct (Hrec visited c) as (ys1 & V1 & E1 & P1); [left |].
    destruct (IH (fun V x Hx => Hrec V x (list_elem_of_further _ _ _ Hx)) V1)
      as (ys2 & V2 & E2 & P2).
    rewrite E1, bind_ok. cbv beta iota. rewrite E2, bind_ok. cbv beta iota.
    exists (ys1 ++ ys2), V2. split; [reflexivity |].
    destruct P1 as (S1 & R1 & Y1 & N1 & C1 & _ & _ & Q1).
    destruct P2 as (S2 & R2 & Y2 & N2 & C2 & Q2).
    split; [set_solver |]. split.
    { intros x Hx. apply elem_of_cons in Hx as [->|Hx]; [set_solver | auto]. }
    split.
    { intros dl Hdl. apply elem_of_app in Hdl as [Hdl|Hdl].
      - destruct (Y1 dl Hdl) as (A & B & C & D).
        split; [exact A |]. split; [exists c; split; [left | exact B] |].
        split; [exact C | set_solver].
      - destruct (Y2 dl Hdl) as (A & (x & Hx & B) & C & D).
        split; [exact A |]. split; [exists x; split; [right; exact Hx | exact B] |].
        split; [set_solver | exact D]. }
    split.
    { rewrite keys_app. apply NoDup_app. split; [exact N1 |]. split; [|exact N2].
      intros k Hk1 Hk2.
      apply elem_of_keys in Hk1 as (dl1 & Hdl1 & ->).
      apply elem_of_keys in Hk2 as (dl2 & Hdl2 & Hk).
      destruct (Y1 dl1 Hdl1) as (_ & _ & _ & D).
      destruct (Y2 dl2 Hdl2) as (_ & _ & C & _).
      rewrite <- Hk in C. contradiction. }
    split.
    { intros k Hk. rewrite keys_app. destruct (C2 k Hk) as [Hk1|Hk2].
      - destruct (C1 k Hk1) as [?|[?|[_ Hf]]].
        + left; assumption.
        + right. apply elem_of_app. left; assumption.
        + rewrite orb_true_r in Hf. discriminate.
      - right. apply elem_of_app. right; assumption. }
    intros root Hcs Hinj x y Hx Hk Hnv Hxy.
    destruct (decide (key_of key_fun h x ∈ V1)) as [Hin|Hnin].
    + apply S2. eapply (Q1 root); [apply Hcs; left | eassumption ..].
    + eapply (Q2 root); [intros c0 Hc0; apply Hcs; right; exact Hc0
                        | eassumption ..].
Qed.

Lemma preorder_nodes_post (depth_left : nat) :
  forall visited d self,
    rank self < depth_left ->
    is_Some (h !! self) ->
    exists ys V',
      preorder_traversal key_fun yield_root "nodes" depth_left h visited d self
      = Ok (ys, V')
      /\ visit_post key_fun yield_root h visited d self ys V'.
Proof.
  induction depth_left as [|n IH]; intros visited d self Hr [s Hs]; [lia |].
  cbn [preorder_traversal].
  rewrite bool_decide_eq_true_2 by (left). cbn [negb].
  rewrite (deref_Some _ _ _ Hs), bind_ok.
  assert (Hkey : key_fun self s = key_of key_fun h self)
    by (unfold key_of; rewrite Hs; reflexivity).
  rewrite Hkey.
  rewrite (bool_decide_eq_true_2 ("nodes" = "nodes")) by reflexivity.
  rewrite andb_true_r.
  destruct (bool_decide (key_of key_fun h self ∈ visited)) eqn:Hseen.
  - apply bool_decide_eq_true in Hseen.
    exists [], visited. split; [reflexivity |].
    split; [set_solver |]. split; [exact Hseen |].
    split; [intros dl Hdl; inversion Hdl |].
    split; [constructor |].
    split; [intros k Hk; left; exact Hk |].
    split; [intros Hn; contradiction |].
    split; [intros _ dl Hdl; inversion Hdl |].
    intros root _ _ x c _ Hx Hnx. contradiction.
  - apply bool_decide_eq_false in Hseen. cbn [andb].
    destruct (visit_children_post
                (fun v child =>
                   preorder_traversal key_fun yield_root "nodes" n h v (S d)
                     child)
                d (sorted_children s)) with (visited := {[key_of key_fun h self]} ∪ visited)
      as (ys & V' & E & P).
    { intros V c Hc. apply IH.
      - apply elem_of_sorted_children in Hc as [m Hm].
        assert (rank c < rank self) by (apply Hacyclic; exists s, m; auto). lia.
      - apply elem_of_sorted_children in Hc as [m Hm].
        apply Hclosed with self. exists s, m; auto. }
    rewrite E, bind_ok. cbv beta iota.
    eexists _, V'. split; [reflexivity |].
    destruct P as (S1 & R1 & Y1 & N1 & C1 & Q1).
    set (here := if yield_root || (0 <? d)%nat then [(d, self)] else []).
    assert (Hhere : forall dl, dl ∈ here -> dl = (d, self)).
    { intros dl. unfold here. destruct (yield_root || (0 <? d)%nat);
        intros Hdl; [apply list_elem_of_singleton in Hdl; exact Hdl
                    | inversion Hdl]. }
    split; [set_solver |]. split; [set_solver |]. split.
    { intros dl Hdl. apply elem_of_app in Hdl as [Hdl|Hdl].
      - apply Hhere in Hdl as ->. simpl.
        split; [eauto |]. split; [constructor |]. split; [exact Hseen | set_solver].
      - destruct (Y1 dl Hdl) as (A & (c & Hc & B) & C & D).
        split; [exact A |]. split.
        + eapply rtc_l; [|exact B].
          apply elem_of_sorted_children in Hc as [m Hm]. exists s, m; auto.
        + split; [set_solver | exact D]. }
    split.
    { rewrite keys_app. apply NoDup_app. split; [|split; [|exact N1]].
      - unfold here. destruct (yield_root || (0 <? d)%nat); simpl;
          [apply NoDup_singleton | constructor].
      - intros k Hk1 Hk2.
        apply elem_of_keys in Hk1 as (dl1 & Hdl1 & ->).
        apply Hhere in Hdl1 as ->. simpl in Hk2.
        apply elem_of_keys in Hk2 as (dl2 & Hdl2 & Hk).
        destruct (Y1 dl2 Hdl2) as (_ & _ & C & _).
        rewrite <- Hk in C. set_solver. }
    split.
    { intros k Hk. rewrite keys_app. destruct (C1 k Hk) as [Hk1|Hk2].
      - apply elem_of_union in Hk1 as [Hk1|Hk1]; [|left; exact Hk1].
        apply elem_of_singleton in Hk1 as ->.
        unfold here. destruct (yield_root || (0 <? d)%nat) eqn:Hy.
        + right; left. apply elem_of_app. left. simpl. left.
        + right; right. split; reflexivity.
      - right; left. apply elem_of_app. right; assumption. }
    split.
    { intros _ Hy. unfold here. rewrite Hy. reflexivity. }
    split.
    { intros Hy dl Hdl. apply elem_of_app in Hdl as [Hdl|Hdl].
      - unfold here in Hdl. rewrite Hy in Hdl. inversion Hdl.
      - destruct (Y1 dl Hdl) as (_ & _ & C & _). set_solver. }
    intros root Hroot Hinj x c Hx Hk Hnv Hxc.
    destruct (decide (key_of key_fun h x = key_of key_fun h self)) as [Heq|Hne].
    + assert (x = self) as -> by (apply Hinj; auto).
      apply R1. destruct Hxc as (s' & m & Hs' & Hm).
      rewrite Hs in Hs'. injection Hs' as <-.
      apply elem_of_sorted_children. eauto.
    + eapply (Q1 root); [|exact Hinj | exact Hx | exact Hk | set_solver
                        | exact Hxc].
      intros c0 Hc0. eapply rtc_r; [exact Hroot |].
      apply elem_of_sorted_children in Hc0 as [m Hm]. exists s, m; auto.
Qed.

End traversal_facts.

(** More recursion depth does not change what the traversal returns. *)
Lemma visit_children_mono {K : Type} `{Countable K}
    (rec1 rec2 : gset K -> loc -> result (list (nat * loc) * gset K))
    (cs : list loc) :
  (forall V c r, rec1 V c = Ok r -> rec2 V c = Ok r) ->
  forall V r, visit_children rec1 cs V = Ok r -> visit_children rec2 cs V = Ok r.
Proof.
  intros Hrec. induction cs as [|c cs IH]; intros V r; simpl; [auto |].
  destruct (rec1 V c) as [[ys1 V1]|] eqn:E1; [|discriminate].
  rewrite (Hrec _ _ _ E1), !bind_ok. cbv beta iota.
  destruct (visit_children rec1 cs V1) as [[ys2 V2]|] eqn:E2; [|discriminate].
  rewrite (IH _ _ E2). auto.
Qed.

Lemma preorder_depth_mono {K : Type} `{Countable K}
    (key_fun : loc -> Spec -> K) (yield_root : bool) (cover : string)
    (h : heap) (n m : nat) :
  n <= m ->
  forall V d l r,
    preorder_traversal key_fun yield_root cover n h V d l = Ok r ->
    preorder_traversal key_fun yield_root cover m h V d l = Ok r.
Proof.
  revert m. induction n as [|n IH]; intros m Hle V d l r; [discriminate |].
  destruct m as [|m]; [lia |]. cbn [preorder_traversal].
  destruct (negb _); [discriminate |].
  destruct (deref h l) as [s|]; [|discriminate]. rewrite !bind_ok.
  destruct (_ && bool_decide (cover = "nodes")); [auto |].
  destruct (_ && bool_decide (cover = "edges")); [auto |].
  destruct (visit_children _ _ _) as [[ys V']|] eqn:E; [|discriminate].
  erewrite visit_children_mono; [| |exact E]; [auto |].
  intros V0 c r0. apply IH. lia.
Qed.

(** The key [id] tells the objects of the store apart. *)
Lemma by_id_injective (h : heap) : key_injective by_id h.
Proof. intros l1 l2 _ _ E. exact E. Qed.

Lemma by_id_injective_below (h : heap) (root : loc) :
  key_injective_below by_id h root.
Proof. intros l1 l2 _ _ E. exact E. Qed.

(** A key that tells the objects of the store apart tells the nodes of
    every DAG in it apart. *)
Lemma key_injective_on_dag {K : Type} `{Countable K}
    (key_fun : loc -> Spec -> K) (h : heap) (root : loc) :
  closed h -> is_Some (h !! root) ->
  key_injective key_fun h -> key_injective_below key_fun h root.
Proof.
  intros Hclosed Hroot Hinj.
  assert (G : forall l, rtc (edge h) root l -> is_Some (h !! l)).
  { apply rtc_ind_r; [exact Hroot |].
    intros x y _ Hxy _. eapply Hclosed; exact Hxy. }
  intros l1 l2 H1 H2. apply Hinj; auto.
Qed.

Lemma dag_check_sound (h : heap) (rank : loc -> nat) :
  dag_check h rank = true -> closed h /\ acyclic h rank.
Proof.
  unfold dag_check. rewrite forallb_forall.
  intros Hc.
  assert (G : forall l c, edge h l c -> is_Some (h !! c) /\ rank c < rank l).
  { intros l c (s & n & Hs & Hn).
    specialize (Hc (l, s)). rewrite forallb_forall in Hc.
    assert (Hin : In (l, s) (imap pair h)).
    { apply list_elem_of_In. apply elem_of_lookup_imap. eauto. }
    specialize (Hc Hin (n, c)). simpl in Hc.
    assert (Hin2 : In (n, c) (map_to_list (dependencies s))).
    { apply list_elem_of_In. apply elem_of_map_to_list. exact Hn. }
    specialize (Hc Hin2). apply andb_true_iff in Hc as [A B].
    apply bool_decide_eq_true in A. apply Nat.ltb_lt in B. auto. }
  split; intros l c Hlc; apply (G l c Hlc).
Qed.




(** ** Back-references after [copy] *)

Lemma back_references_check_sound (h : heap) (root : loc) :
  back_references_check h = true -> back_references h root.
Proof.
  unfold back_references_check. rewrite forallb_forall.
  intros Hc a b sa sb _ (s & n & Hs & Hn) Ha Hb.
  rewrite Ha in Hs. injection Hs as <-.
  specialize (Hc (a, sa)). rewrite forallb_forall in Hc.
  assert (Hin : In (a, sa) (imap pair h))
    by (apply list_elem_of_In, elem_of_lookup_imap; eauto).
  specialize (Hc Hin (n, b)). simpl in Hc. rewrite Hb in Hc.
  eapply bool_decide_eq_true_1. apply Hc.
  apply list_elem_of_In, elem_of_map_to_list. exact Hn.
Qed.


(** ** The canonical string *)

Lemma deref_all_Ok (h : heap) (ls : list loc) :
  (forall l, l ∈ ls -> is_Some (h !! l)) ->
  exists specs, deref_all h ls = Ok specs
                /\ Forall2 (fun l s => h !! l = Some s) ls specs.
Proof.
  induction ls as [|l ls IH]; intros Hls; simpl.
  - exists []. split; [reflexivity | constructor].
  - destruct (Hls l) as [s Hs]; [left |].
    destruct IH as (specs & E & F);
      [intros x Hx; apply Hls; right; exact Hx |].
    exists (s :: specs). rewrite (deref_Some _ _ _ Hs), bind_ok, E.
    split; [reflexivity | constructor; assumption].
Qed.

#[global] Instance name_le_transitive : Transitive name_le.
Proof. intros a b c. apply str_le_trans. Qed.

#[global] Instance name_le_total : Total name_le.
Proof. intros a b. apply String.leb_total. Qed.

(** When the key tells the nodes under the root apart, every node under
    the root has been visited when the traversal returns. *)
Lemma reachable_visited {K : Type} `{Countable K}
    (key_fun : loc -> Spec -> K) (yield_root : bool) (h : heap)
    (root : loc) (d : nat) (ys : list (nat * loc)) (V : gset K) :
  key_injective_below key_fun h root ->
  visit_post key_fun yield_root h ∅ d root ys V ->
  forall l, rtc (edge h) root l -> key_of key_fun h l ∈ V.
Proof.
  intros Hinj (_ & R & _ & _ & _ & _ & _ & Q).
  apply rtc_ind_r; [exact R |].
  intros x y Hx Hxy Hk.
  eapply (Q root); [constructor | exact Hinj | exact Hx | exact Hk
                   | set_solver | exact Hxy].
Qed.

(** The dependencies [__str__] prints: the nodes the traversal by name
    yields below the root. *)
Lemma str_dependencies (h : heap) (rank : loc -> nat) (root : loc) (s : Spec) :
  closed h ->
  acyclic h rank ->
  h !! root = Some s ->
  exists ys V deps,
    (forall n, rank root < n ->
       preorder_traversal by_name false "nodes" n h ∅ 0 root = Ok (ys, V))
    /\ deref_all h ys.*2 = Ok deps
    /\ Forall2 (fun l d => h !! l = Some d) ys.*2 deps
    /\ NoDup (map name deps)
    /\ (forall d, d ∈ deps ->
          name d <> name s
          /\ exists l, h !! l = Some d /\ rtc (edge h) root l)
    /\ (key_injective_below by_name h root ->
        forall l d, rtc (edge h) root l -> l <> root -> h !! l = Some d ->
                    d ∈ deps).
Proof.
  intros Hclosed Hacyclic Hs.
  destruct (preorder_nodes_post by_name false h rank Hclosed Hacyclic
              (S (rank root)) ∅ 0 root) as (ys & V & E & P); [lia | eauto |].
  pose proof P as (_ & R & Y & N & C & _ & G & Q).
  destruct (deref_all_Ok h ys.*2) as (deps & Ed & F).
  { intros l Hl. apply list_elem_of_fmap in Hl as [dl [-> Hdl]].
    apply (Y dl Hdl). }
  assert (Hnames : map name deps = keys by_name h ys).
  { unfold keys. generalize dependent deps. generalize (ys.*2).
    intros ls deps _ F. induction F as [|l d ls deps Hl F IH]; [reflexivity |].
    simpl. rewrite IH. unfold key_of, by_name. rewrite Hl. reflexivity. }
  assert (Hin : forall d, d ∈ deps -> exists l, l ∈ ys.*2 /\ h !! l = Some d).
  { intros d Hd. apply list_elem_of_lookup in Hd as [i Hi].
    destruct (Forall2_lookup_r _ _ _ _ _ F Hi) as (l & Hl & Hld).
    exists l. split; [eapply list_elem_of_lookup_2; exact Hl | exact Hld]. }
  exists ys, V, deps.
  split; [intros n Hn; eapply preorder_depth_mono; [|exact E]; lia |].
  split; [exact Ed |].
  split; [exact F |].
  split; [rewrite Hnames; exact N |].
  split.
  { intros d Hd. destruct (Hin d Hd) as (l & Hl & Hld).
    apply list_elem_of_fmap in Hl as [dl [-> Hdl]]. split.
    - specialize (G eq_refl dl Hdl). unfold key_of, by_name in G.
      rewrite Hld, Hs in G. exact G.
    - exists dl.2. split; [exact Hld | apply (Y dl Hdl)]. }
  intros Hinj l d Hl Hne Hld.
  pose proof (reachable_visited by_name false h root 0 ys V Hinj P l Hl) as Hk.
  destruct (C _ Hk) as [Hk1|[Hk2|[Hk3 _]]]; [set_solver | |].
  - apply elem_of_keys in Hk2 as (dl & Hdl & Hkk).
    destruct (Y dl Hdl) as (_ & B & _).
    assert (l = dl.2) as -> by (apply Hinj; auto).
    apply list_elem_of_lookup in Hdl as [i Hi].
    assert (Hi2 : ys.*2 !! i = Some dl.2)
      by (rewrite list_lookup_fmap, Hi; reflexivity).
    destruct (Forall2_lookup_l _ _ _ _ _ F Hi2) as (d' & Hd' & Hld').
    rewrite Hld in Hld'. injection Hld' as <-.
    eapply list_elem_of_lookup_2; exact Hd'.
  - exfalso. apply Hne. apply Hinj; [exact Hl | constructor | exact Hk3].
Qed.

(** C1, as the code has it: [str(s)] is [format] with the default format
    string [$_$@$%@$+$=], which writes the compiler and its versions, of
    the root, followed by [^] and the same format of each node the
    traversal by name yields below the root, sorted by name, which puts
    them in strictly ascending order of the names.  Those nodes are
    dependencies of the root with distinct names other than the root's;
    when the names tell the nodes of the DAG apart they are all the
    dependencies. *)
Theorem str_is_default_format_of_nodes
    (sha : string -> string) (h : heap) (rank : loc -> nat) (root : loc)
    (s : Spec) :
  closed h ->
  acyclic h rank ->
  h !! root = Some s ->
  exists (ys : list (nat * loc)) (V : gset string) (deps : list Spec),
    (forall depth_left, rank root < depth_left ->
       preorder_traversal by_name false "nodes" depth_left h ∅ 0 root
       = Ok (ys, V))
    /\ Forall2 (fun l d => h !! l = Some d) ys.*2 deps
    /\ (forall depth_left, rank root + 1 < depth_left ->
          Spec_str sha depth_left h root
          = Ok (node_format s
                +:+ concat_strings
                      (map (fun d => "^" +:+ node_format d)
                           (merge_sort name_le deps))))
    /\ (forall str_of x, format sha str_of x default_format = Ok (node_format x))
    /\ merge_sort name_le deps ≡ₚ deps
    /\ StronglySorted name_le (merge_sort name_le deps)
    /\ NoDup (map name deps)
    /\ (forall d, d ∈ deps ->
          name d <> name s
          /\ exists l, h !! l = Some d /\ rtc (edge h) root l)
    /\ (key_injective_below by_name h root ->
        forall l d, rtc (edge h) root l -> l <> root -> h !! l = Some d ->
                    d ∈ deps).
Proof.
  intros Hclosed Hacyclic Hs.
  destruct (str_dependencies h rank root s Hclosed Hacyclic Hs)
    as (ys & V & deps & E & Ed & F & N & Y & C).
  exists ys, V, deps.
  split; [exact E |].
  split; [exact F |].
  split.
  { intros n Hn. destruct n as [|n]; [lia |]. cbn [Spec_str].
    rewrite (deref_Some _ _ _ Hs), bind_ok, (E n) by lia.
    rewrite bind_ok. cbv beta iota. rewrite Ed, bind_ok.
    rewrite format_each_default, bind_ok, format_default, bind_ok.
    reflexivity. }
  split; [intros str_of x; apply format_default |].
  split; [apply merge_sort_Permutation |].
  split; [apply StronglySorted_merge_sort; apply _ |].
  split; [exact N |].
  split; [exact Y | exact C].
Qed.

(** The claim as the specification words it fails on a spec with a
    compiler: [str] writes the compiler, the format string
    [$_$@$+$=] does not. *)
Lemma str_writes_the_compiler :
  exists s h,
    parse [] "mpileaks%intel@12.1" = Ok ([s], h)
    /\ Spec_str no_sha1 3 h s = Ok "mpileaks%intel@12.1"
    /\ specified_str 3 h s = Ok "mpileaks"
    /\ Spec_str no_sha1 3 h s <> specified_str 3 h s.
Proof.
  eexists _, _.
  split; [vm_compute; reflexivity |].
  split; [vm_compute; reflexivity |].
  split; [vm_compute; reflexivity |].
  vm_compute. discriminate.
Qed.

(** ** A spec against itself *)

Lemma string_compare_refl (s : string) : String.compare s s = Eq.
Proof.
  pose proof (String.compare_antisym s s) as E.
  destruct (String.compare s s); [reflexivity | discriminate | discriminate].
Qed.

Lemma compare_components_refl (l : list Version.component) :
  Version.compare_components l l = Eq.
Proof.
  induction l as [|c l IH]; [reflexivity |]. simpl.
  assert (E : Version.compare_component c c = Eq).
  { destruct c as [n|s]; simpl;
      [apply N.compare_refl | apply string_compare_refl]. }
  rewrite E. exact IH.
Qed.

Lemma version_leb_refl (v : Version.t) : Version.leb v v = true.
Proof.
  unfold Version.leb, Version.compare. rewrite compare_components_refl.
  reflexivity.
Qed.

Lemma elem_covers_refl (e : VersionList.elem) : VersionList.elem_covers e e = true.
Proof.
  unfold VersionList.elem_covers, VersionList.lo_le, VersionList.hi_le.
  destruct (VersionList.lo e), (VersionList.hi e);
    rewrite ?version_leb_refl; reflexivity.
Qed.

Lemma elems_ok (l : VersionList.t) :
  VersionList.ok l = true ->
  Forall (fun e => VersionList.elem_ok e = true) (VersionList.elems l)
  /\ VersionList.elems l <> [].
Proof.
  intros Hok. destruct l as [|e l]; simpl.
  - split; [repeat constructor | discriminate].
  - split; [|discriminate].
    apply Forall_forall. intros x Hx. unfold VersionList.ok in Hok.
    rewrite forallb_forall in Hok. apply Hok. apply list_elem_of_In. exact Hx.
Qed.

(** A version list whose ranges are not empty overlaps itself. *)
Lemma overlaps_refl (l : VersionList.t) :
  VersionList.ok l = true -> VersionList.overlaps l l = true.
Proof.
  intros Hok. destruct (elems_ok l Hok) as [Hall Hne].
  unfold VersionList.overlaps.
  destruct (VersionList.elems l) as [|e es]; [contradiction |].
  apply Forall_cons in Hall as [He _].
  simpl. unfold VersionList.elem_overlaps at 1.
  unfold VersionList.elem_ok in He. rewrite He. reflexivity.
Qed.

(** A version list whose ranges are not empty satisfies itself. *)
Lemma versions_satisfies_refl (l : VersionList.t) :
  VersionList.ok l = true -> VersionList.satisfies l l = true.
Proof.
  intros Hok. unfold VersionList.satisfies.
  rewrite (overlaps_refl l Hok), andb_true_r.
  apply forallb_forall. intros x Hx.
  apply existsb_exists. exists x. split; [exact Hx | apply elem_covers_refl].
Qed.

Lemma variants_satisfies_refl (m : VariantMap.t) :
  VariantMap.satisfies m m = true.
Proof.
  unfold VariantMap.satisfies. apply forallb_forall. intros [k v] Hkv.
  apply list_elem_of_In, elem_of_map_to_list in Hkv. simpl.
  rewrite Hkv. destruct (Variant.enabled v); reflexivity.
Qed.

(** The attributes of a node satisfy themselves. *)
Lemma satisfies_attributes_refl (x : Spec) :
  versions_ok x -> satisfies_attributes x x = true.
Proof.
  intros [Hv Hc]. unfold satisfies_attributes, check.
  rewrite (versions_satisfies_refl _ Hv), variants_satisfies_refl, !orb_true_r.
  simpl. destruct (compiler x) as [c|] eqn:Ec.
  - unfold Compiler.satisfies.
    rewrite bool_decide_eq_true_2 by reflexivity.
    rewrite (overlaps_refl _ (Hc c eq_refl)). simpl.
    rewrite bool_decide_eq_true_2 by reflexivity. apply orb_true_r.
  - rewrite bool_decide_eq_true_2 by reflexivity. apply orb_true_r.
Qed.

(** *** The traversal with the default key *)

Lemma visit_children_ext {K : Type} `{Countable K}
    (rec1 rec2 : gset K -> loc -> result (list (nat * loc) * gset K))
    (cs : list loc) :
  (forall V c, rec1 V c = rec2 V c) ->
  forall V, visit_children rec1 cs V = visit_children rec2 cs V.
Proof.
  intros Hrec. induction cs as [|c cs IH]; intros V; simpl; [reflexivity |].
  rewrite Hrec. destruct (rec2 V c) as [[ys V1]|]; [|reflexivity].
  rewrite !bind_ok. cbv beta iota. rewrite IH. reflexivity.
Qed.

(** Below the root the option [root] makes no difference. *)
Lemma preorder_below_root {K : Type} `{Countable K}
    (key_fun : loc -> Spec -> K) (cover : string) (h : heap) (n : nat) :
  forall V d l,
    preorder_traversal key_fun true cover n h V (S d) l
    = preorder_traversal key_fun false cover n h V (S d) l.
Proof.
  induction n as [|n IH]; intros V d l; [reflexivity |].
  cbn [preorder_traversal].
  destruct (negb _); [reflexivity |].
  destruct (deref h l) as [s|]; [|reflexivity]. rewrite !bind_ok.
  cbn [orb Nat.ltb Nat.leb].
  destruct (_ && bool_decide (cover = "nodes")); [reflexivity |].
  destruct (_ && bool_decide (cover = "edges")); [reflexivity |].
  rewrite (visit_children_ext _ _ _ (fun V0 c => IH V0 (S d) c)).
  reflexivity.
Qed.

(** [preorder_traversal()] is the root followed by
    [preorder_traversal(root=False)]. *)
Lemma traverse_root_first (n : nat) (h : heap) (a : loc) :
  is_Some (h !! a) ->
  traverse n h a = (deps ← traverse_deps n h a; Ok (a :: deps)).
Proof.
  intros [s Hs]. destruct n as [|n]; [reflexivity |].
  unfold traverse, traverse_deps. cbn [preorder_traversal].
  rewrite bool_decide_eq_true_2 by (left). cbn [negb].
  rewrite (deref_Some _ _ _ Hs), !bind_ok.
  rewrite (bool_decide_eq_false_2 (by_id a s ∈ (∅ : gset loc)))
    by set_solver.
  cbn [andb orb Nat.ltb Nat.leb].
  rewrite (visit_children_ext _ _ _
             (fun V0 c => preorder_below_root by_id "nodes" h n V0 0 c)).
  destruct (visit_children _ _ _) as [[ys V']|]; reflexivity.
Qed.

Lemma rank_rtc (h : heap) (rank : loc -> nat) (c l : loc) :
  acyclic h rank -> rtc (edge h) c l -> rank l <= rank c.
Proof.
  intros Ha Hr. induction Hr as [|x y z Hxy _ IH]; [lia |].
  specialize (Ha x y Hxy). lia.
Qed.

Lemma proper_descendant_rank (h : heap) (rank : loc -> nat) (a l : loc) :
  acyclic h rank -> proper_descendant h a l -> rank l < rank a.
Proof.
  intros Ha (c & Hac & Hcl).
  pose proof (rank_rtc h rank c l Ha Hcl). specialize (Ha a c Hac). lia.
Qed.

(** The nodes [preorder_traversal(root=False)] yields are below the
    root. *)
Lemma traverse_deps_summary (h : heap) (rank : loc -> nat) (a : loc) :
  closed h ->
  acyclic h rank ->
  is_Some (h !! a) ->
  exists deps,
    (forall n, rank a < n -> traverse_deps n h a = Ok deps)
    /\ (forall l, l ∈ deps -> is_Some (h !! l) /\ proper_descendant h a l)
    /\ (forall l, proper_descendant h a l -> l ∈ deps).
Proof.
  intros Hclosed Hacyclic Ha.
  destruct (preorder_nodes_post by_id false h rank Hclosed Hacyclic
              (S (rank a)) ∅ 0 a) as (ys & V & E & P); [lia | exact Ha |].
  pose proof P as (_ & _ & Y & _ & C & _ & G & _).
  exists ys.*2. split; [|split].
  - intros n Hn. unfold traverse_deps.
    erewrite preorder_depth_mono; [| |exact E]; [reflexivity | lia].
  - intros l Hl. apply list_elem_of_fmap in Hl as [dl [-> Hdl]].
    destruct (Y dl Hdl) as (A & B & _). split; [exact A |].
    specialize (G eq_refl dl Hdl).
    apply rtc_inv in B as [B|B]; [|exact B].
    exfalso. apply G. rewrite B. reflexivity.
  - intros l Hl.
    pose proof (proper_descendant_rank h rank a l Hacyclic Hl) as Hr.
    destruct Hl as (c & Hac & Hcl).
    assert (Hk : key_of by_id h l ∈ V).
    { apply (reachable_visited by_id false h a 0 ys V
               (by_id_injective_below h a) P l).
      eapply rtc_l; eassumption. }
    destruct (C _ Hk) as [Hk1|[Hk2|[Hk3 _]]]; [set_solver | |].
    + apply elem_of_keys in Hk2 as (dl & Hdl & Hkk).
      unfold key_of, by_id in Hkk. subst l.
      apply list_elem_of_fmap. eauto.
    + unfold key_of, by_id in Hk3. subst l. lia.
Qed.

Lemma find_named_first (h : heap) (n : string) (nodes : list loc) :
  (forall l, l ∈ nodes -> is_Some (h !! l)) ->
  (exists l d, l ∈ nodes /\ h !! l = Some d /\ name d = n) ->
  exists l d, find_named h n nodes = Ok l
              /\ l ∈ nodes /\ h !! l = Some d /\ name d = n.
Proof.
  induction nodes as [|x nodes IH]; intros Hall (l & d & Hl & Hd & Hn).
  - inversion Hl.
  - simpl. destruct (Hall x) as [sx Hx]; [left |].
    rewrite (deref_Some _ _ _ Hx), bind_ok.
    destruct (bool_decide (name sx = n)) eqn:E.
    + apply bool_decide_eq_true in E. exists x, sx.
      split; [reflexivity |]. split; [left | auto].
    + apply bool_decide_eq_false in E.
      apply elem_of_cons in Hl as [->|Hl].
      { rewrite Hx in Hd. injection Hd as <-. contradiction. }
      destruct IH as (l' & d' & A & B & C);
        [intros y Hy; apply Hall; right; exact Hy | eauto |].
      exists l', d'. split; [exact A |]. split; [right; exact B | exact C].
Qed.

Lemma all_satisfy_true (sat : loc -> loc -> result bool)
    (get : string -> result loc) (names : list string) :
  (forall n, n ∈ names -> exists x, get n = Ok x /\ sat x x = Ok true) ->
  all_satisfy sat get get names = Ok true.
Proof.
  induction names as [|n names IH]; intros Hall; [reflexivity |]. simpl.
  destruct (Hall n) as (x & Hg & Hs); [left |].
  rewrite Hg, !bind_ok, Hs, bind_ok. apply IH.
  intros m Hm. apply Hall. right. exact Hm.
Qed.

Lemma deref_all_cons (h : heap) (l : loc) (ls : list loc) :
  deref_all h (l :: ls)
  = (s ← deref h l; rest ← deref_all h ls; Ok (s :: rest)).
Proof. reflexivity. Qed.

Lemma deref_all_elem (h : heap) (ls : list loc) (specs : list Spec) :
  deref_all h ls = Ok specs ->
  forall d, d ∈ specs <-> exists l, l ∈ ls /\ h !! l = Some d.
Proof.
  revert specs. induction ls as [|l ls IH]; intros specs.
  - intros E. injection E as <-. intros d. split.
    + intros Hd. inversion Hd.
    + intros (l & Hl & _). inversion Hl.
  - rewrite deref_all_cons.
    destruct (deref h l) as [s|] eqn:El; [|discriminate]. rewrite bind_ok.
    destruct (deref_all h ls) as [rest|] eqn:Er; [|discriminate].
    rewrite bind_ok. intros E. injection E as <-.
    apply deref_Ok in El. intros d. rewrite elem_of_cons, (IH rest eq_refl).
    split.
    + intros [->|(x & Hx & Hd)];
        [exists l; split; [left | exact El]
        | exists x; split; [right; exact Hx | exact Hd]].
    + intros (x & Hx & Hd). apply elem_of_cons in Hx as [->|Hx].
      * left. rewrite El in Hd. injection Hd as <-. reflexivity.
      * right. eauto.
Qed.
(** ** The canonical string of a constructed spec *)

Lemma NoDup_fmap_eq {A B} (f : A -> B) (l : list A) (x y : A) :
  NoDup (f <$> l) -> x ∈ l -> y ∈ l -> f x = f y -> x = y.
Proof.
  induction l as [|a l IH]; intros Hn Hx Hy Hf; [inversion Hx |].
  rewrite fmap_cons in Hn. apply NoDup_cons in Hn as [Ha Hn].
  apply elem_of_cons in Hx as [->|Hx]; apply elem_of_cons in Hy as [->|Hy].
  - reflexivity.
  - exfalso. apply Ha. rewrite Hf. apply list_elem_of_fmap. eauto.
  - exfalso. apply Ha. rewrite <- Hf. apply list_elem_of_fmap. eauto.
  - apply IH; assumption.
Qed.

(** The names tell the nodes under [root] apart when the names of the
    root and of the nodes the traversal yields below it are distinct. *)
Lemma names_unique_below (h : heap) (rank : loc -> nat) (root : loc)
    (deps : list loc) :
  closed h -> acyclic h rank -> is_Some (h !! root) ->
  traverse_deps (S (rank root)) h root = Ok deps ->
  NoDup (key_of by_name h <$> root :: deps) ->
  key_injective_below by_name h root.
Proof.
  intros Hc Ha Hr Ht Hn.
  destruct (traverse_deps_summary h rank root Hc Ha Hr) as (deps' & E & _ & Hall).
  rewrite (E (S (rank root))) in Ht by lia. injection Ht as ->.
  assert (Hin : forall l, rtc (edge h) root l -> l ∈ root :: deps).
  { intros l Hl. apply rtc_inv in Hl as [->|(c & Hrc & Hcl)]; [left |].
    right. apply Hall. exists c. auto. }
  intros l1 l2 H1 H2 Hk.
  eapply NoDup_fmap_eq; [exact Hn | apply Hin; exact H1 | apply Hin; exact H2
                        | exact Hk].
Qed.

Lemma str_is_default_format_witness :
  closed constructed_mpileaks
  /\ acyclic constructed_mpileaks constructed_rank
  /\ ~ key_injective by_name constructed_mpileaks
  /\ key_injective_below by_name constructed_mpileaks 3
  /\ exists s ys V deps,
       constructed_mpileaks !! 3 = Some s
       /\ preorder_traversal by_name false "nodes" 2 constructed_mpileaks ∅ 0 3
          = Ok (ys, V)
       /\ ys.*2 = [2; 1]
       /\ Forall2 (fun l d => constructed_mpileaks !! l = Some d) ys.*2 deps
       /\ Spec_str no_sha1 3 constructed_mpileaks 3
          = Ok (node_format s
                +:+ concat_strings
                      (map (fun d => "^" +:+ node_format d)
                           (merge_sort name_le deps)))
       /\ (forall l d, rtc (edge constructed_mpileaks) 3 l -> l <> 3 ->
                       constructed_mpileaks !! l = Some d -> d ∈ deps)
       /\ Spec_str no_sha1 3 constructed_mpileaks 3
          = Ok "mpileaks%intel@12.1^callpath^mpich2@1.5".
Proof.
  destruct (dag_check_sound constructed_mpileaks constructed_rank) as [Hc Ha];
    [vm_compute; reflexivity |].
  assert (Hs : exists s, constructed_mpileaks !! 3 = Some s)
    by (eexists; vm_compute; reflexivity).
  assert (Hinj : key_injective_below by_name constructed_mpileaks 3).
  { apply (names_unique_below _ constructed_rank 3 [2; 1] Hc Ha);
      [exact Hs | vm_compute; reflexivity |].
    apply (bool_decide_unpack (NoDup _)). vm_compute. exact I. }
  split; [exact Hc |]. split; [exact Ha |].
  split.
  { intros Hg.
    assert (E : 0 = 3); [|discriminate E].
    apply Hg; [eexists; vm_compute; reflexivity | exact Hs |].
    vm_compute. reflexivity. }
  split; [exact Hinj |].
  destruct Hs as [s Hs].
  destruct (str_is_default_format_of_nodes no_sha1 constructed_mpileaks
              constructed_rank 3 s Hc Ha Hs)
    as (ys & V & deps & T & F & E & _ & _ & _ & _ & _ & C).
  exists s, ys, V, deps. split; [exact Hs |].
  split; [apply T; simpl; lia |].
  split.
  { specialize (T 2 ltac:(simpl; lia)). vm_compute in T.
    injection T as <- _. reflexivity. }
  split; [exact F |].
  split; [apply E; simpl; lia |].
  split; [exact (C Hinj) |].
  vm_compute. reflexivity.
Defined.

(** *** [satisfies] of a spec against itself *)

Section satisfies_reflexive.
Context `{Packages}.
Variable h : heap.
Variable rank : loc -> nat.
Variable s0 : loc.
Hypothesis Hclosed : closed h.
Hypothesis Hacyclic : acyclic h rank.
Hypothesis Hversions :
  forall a x, rtc (edge h) s0 a -> h !! a = Some x -> versions_ok x.
Hypothesis Hnames : forall a, rtc (edge h) s0 a -> names_differ_below h a.
Hypothesis Hproviders :
  forall a x, rtc (edge h) s0 a -> h !! a = Some x ->
              dict_truthy (dependencies x) = true ->
              provider_consistent h rank a.

Lemma satisfies_self (n : nat) :
  forall a, rtc (edge h) s0 a -> is_Some (h !! a) -> rank a + 1 < n ->
            satisfies n h a a true = Ok true.
Proof.
  induction n as [|n IH]; intros a Ha [x Hx] Hr; [lia |].
  cbn [satisfies]. rewrite (deref_Some _ _ _ Hx), !bind_ok.
  rewrite bool_decide_eq_true_2 by reflexivity. cbn [negb].
  rewrite (satisfies_attributes_refl x (Hversions a x Ha Hx)). cbn [negb].
  unfold satisfies_dependencies_with. rewrite (deref_Some _ _ _ Hx), !bind_ok.
  destruct (dict_truthy (dependencies x)) eqn:Hd; [|reflexivity].
  cbn [negb orb].
  destruct (traverse_deps_summary h rank a Hclosed Hacyclic (ex_intro _ x Hx))
    as (deps & Edeps & Hdeps & _).
  assert (Etd : traverse_deps n h a = Ok deps) by (apply Edeps; lia).
  assert (Etr : traverse n h a = Ok (a :: deps))
    by (rewrite traverse_root_first, Etd; eauto).
  destruct (deref_all_Ok h deps) as (specs & Especs & _);
    [intros l Hl; apply Hdeps; exact Hl |].
  assert (Enames : dep_names n h a = Ok (list_to_set (map name specs)))
    by (unfold dep_names; rewrite Etd, bind_ok, Especs; reflexivity).
  unfold common_dependencies. rewrite Enames, !bind_ok.
  rewrite all_satisfy_true.
  2:{ intros nm Hnm. apply elem_of_elements in Hnm.
      assert (Hin : nm ∈ map name specs) by set_solver.
      apply list_elem_of_fmap in Hin as (d & -> & Hd').
      apply (deref_all_elem _ _ _ Especs) in Hd' as (l & Hl & Hld).
      destruct (Hdeps l Hl) as [_ Hprop].
      unfold getitem. rewrite Etr, bind_ok. cbn [find_named].
      rewrite (deref_Some _ _ _ Hx), bind_ok.
      rewrite bool_decide_eq_false_2
        by (intros E; exact (Hnames a Ha l x d Hprop Hx Hld (eq_sym E))).
      destruct (find_named_first h (name d) deps) as (l' & d' & A & B & C & D);
        [intros y Hy; apply Hdeps; exact Hy | eauto |].
      exists l'. split; [exact A |].
      destruct (Hdeps l' B) as [Hl' (c & Hac & Hcl)].
      apply IH; [|exact Hl' |].
      - etrans; [exact Ha |]. eapply rtc_l; eassumption.
      - pose proof (proper_descendant_rank h rank a l' Hacyclic
                      (ex_intro _ c (conj Hac Hcl))). lia. }
  rewrite bind_ok. cbn [negb]. rewrite Etr, !bind_ok.
  destruct (Hproviders a x Ha Hx Hd (a :: deps)) as [Hidx Hprov].
  { rewrite traverse_root_first, Edeps by (eauto || lia). reflexivity. }
  rewrite Hidx. cbn [negb].
  unfold virtual_dependencies. rewrite Etr, bind_ok.
  rewrite deref_all_cons, (deref_Some _ _ _ Hx), bind_ok, Especs, !bind_ok.
  match goal with
  | |- context [existsb ?f ?l] =>
      assert (Hex : existsb f l = false)
  end.
  { apply not_true_is_false. intros Hex.
    apply existsb_exists in Hex as (v & Hv & Hc).
    apply list_elem_of_In, list_elem_of_filter in Hv as [Hvirt Hv].
    apply andb_true_iff in Hc as [Hc1 Hc2].
    apply bool_decide_eq_true in Hc2.
    assert (Hl : exists l, l ∈ a :: deps /\ h !! l = Some v).
    { apply elem_of_cons in Hv as [->|Hv].
      - exists a. split; [left | exact Hx].
      - apply (deref_all_elem _ _ _ Especs) in Hv as (l & Hl & Hlv).
        exists l. split; [right; exact Hl | exact Hlv]. }
    destruct Hl as (l & Hl & Hlv).
    exact (Hprov l v Hl Hlv Hvirt Hc1 Hc2). }
  rewrite !Hex. reflexivity.
Qed.

End satisfies_reflexive.

(** Without the dependencies, a spec whose version ranges are not empty
    satisfies itself. *)
Lemma satisfies_self_node `{Packages} (n : nat) (h : heap) (a : loc)
    (x : Spec) :
  h !! a = Some x -> versions_ok x -> satisfies (S n) h a a false = Ok true.
Proof.
  intros Hx Hv. cbn [satisfies]. rewrite (deref_Some _ _ _ Hx), !bind_ok.
  rewrite bool_decide_eq_true_2 by reflexivity. cbn [negb].
  rewrite (satisfies_attributes_refl x Hv). reflexivity.
Qed.

(** C5, as the code has it: [s.satisfies(s)] returns true for every
    spec [s] (an acyclic DAG) whose version ranges are not empty, in
    which no node has the name of a node it depends on, and in which the
    cross-check of virtual dependencies and providers holds of every
    node with dependencies; the checks of versions, variants, compiler
    and architecture hold of every such spec against itself. *)
Theorem satisfies_reflexive
    (P : Packages) (h : heap) (rank : loc -> nat) (s : loc) :
  closed h ->
  acyclic h rank ->
  is_Some (h !! s) ->
  (forall a x, rtc (edge h) s a -> h !! a = Some x -> versions_ok x) ->
  (forall a, rtc (edge h) s a -> names_differ_below h a) ->
  (forall a x, rtc (edge h) s a -> h !! a = Some x ->
               dict_truthy (dependencies x) = true ->
               provider_consistent h rank a) ->
  forall depth_left,
    rank s + 1 < depth_left ->
    satisfies depth_left h s s true = Ok true
    /\ satisfies depth_left h s s false = Ok true
    /\ (forall x, h !! s = Some x -> satisfies_attributes x x = true).
Proof.
  intros Hclosed Hacyclic Hs Hv Hn Hp n Hr.
  split; [|split].
  - apply (satisfies_self h rank s Hclosed Hacyclic Hv Hn Hp);
      [constructor | exact Hs | exact Hr].
  - destruct Hs as [x Hx]. destruct n as [|n]; [lia |].
    apply (satisfies_self_node n h s x Hx). apply (Hv s x); [constructor | exact Hx].
  - intros x Hx. apply satisfies_attributes_refl.
    apply (Hv s x); [constructor | exact Hx].
Qed.

(** *** The computable checks *)

Lemma versions_check_sound (h : heap) (a : loc) (x : Spec) :
  versions_check h = true -> h !! a = Some x -> versions_ok x.
Proof.
  unfold versions_check. rewrite forallb_forall. intros Hc Hx.
  specialize (Hc x). rewrite andb_true_iff in Hc.
  destruct Hc as [A B];
    [apply list_elem_of_In; eapply list_elem_of_lookup_2; exact Hx |].
  split; [exact A |]. intros c Ec. rewrite Ec in B. exact B.
Qed.

Lemma names_check_sound (h : heap) (rank : loc -> nat) (a : loc) :
  closed h -> acyclic h rank ->
  names_check h rank = true -> names_differ_below h a.
Proof.
  intros Hclosed Hacyclic Hc b x y Hb Hx Hy.
  unfold names_check in Hc. rewrite forallb_forall in Hc.
  specialize (Hc (a, x)). simpl in Hc.
  destruct (traverse_deps_summary h rank a Hclosed Hacyclic (ex_intro _ x Hx))
    as (deps & Edeps & _ & Hall).
  rewrite (Edeps (S (rank a))) in Hc by lia.
  rewrite forallb_forall in Hc.
  assert (Hin : In (a, x) (imap pair h))
    by (apply list_elem_of_In, elem_of_lookup_imap; eauto).
  specialize (Hc Hin b). rewrite Hy in Hc.
  apply negb_true_iff, bool_decide_eq_false in Hc; [exact Hc |].
  apply list_elem_of_In, Hall, Hb.
Qed.

Lemma providers_check_sound `{Packages} (h : heap) (rank : loc -> nat)
    (a : loc) (x : Spec) :
  providers_check h rank = true ->
  h !! a = Some x ->
  dict_truthy (dependencies x) = true ->
  provider_consistent h rank a.
Proof.
  unfold providers_check. rewrite forallb_forall. intros Hc Hx Hd nodes En.
  specialize (Hc (a, x)). simpl in Hc. rewrite Hd, En in Hc. simpl in Hc.
  assert (Hin : In (a, x) (imap pair h))
    by (apply list_elem_of_In, elem_of_lookup_imap; eauto).
  apply Hc in Hin. apply andb_true_iff in Hin as [A B].
  split; [exact A |].
  intros l v Hl Hv Hvirt Hcont Hnone.
  rewrite forallb_forall in B. specialize (B l). rewrite Hv in B.
  rewrite Hvirt, Hcont in B. simpl in B.
  rewrite bool_decide_eq_true_2 in B by exact Hnone.
  specialize (B ltac:(apply list_elem_of_In; exact Hl)). discriminate.
Qed.

Lemma satisfies_reflexive_witness :
  closed callpath_heap_ok /\ acyclic callpath_heap_ok flat_rank
  /\ versions_check callpath_heap_ok = true
  /\ names_check callpath_heap_ok flat_rank = true
  /\ @providers_check mock_packages callpath_heap_ok flat_rank = true
  /\ parse [] "callpath ^mpi@:2.0 ^mpich2" = Ok ([0], callpath_heap_ok)
  /\ @satisfies mock_packages 3 callpath_heap_ok 0 0 true = Ok true.
Proof.
  destruct (dag_check_sound callpath_heap_ok flat_rank) as [Hc Ha];
    [vm_compute; reflexivity |].
  assert (Hv : versions_check callpath_heap_ok = true)
    by (vm_compute; reflexivity).
  assert (Hn : names_check callpath_heap_ok flat_rank = true)
    by (vm_compute; reflexivity).
  assert (Hp : @providers_check mock_packages callpath_heap_ok flat_rank = true)
    by (vm_compute; reflexivity).
  split; [exact Hc |]. split; [exact Ha |]. split; [exact Hv |].
  split; [exact Hn |]. split; [exact Hp |].
  split; [vm_compute; reflexivity |].
  apply (satisfies_reflexive mock_packages callpath_heap_ok flat_rank 0 Hc Ha).
  - eexists; reflexivity.
  - intros a x _ Hx. exact (versions_check_sound _ a x Hv Hx).
  - intros a _. exact (names_check_sound _ _ a Hc Ha Hn).
  - intros a x _ Hx Hd.
    exact (@providers_check_sound mock_packages _ _ a x Hp Hx Hd).
  - simpl. lia.
Defined.

(** The claim as the specification words it fails on a spec that asks
    for [mpi@3:] and for [mpich2], which provides [mpi] up to 2.2 only:
    the index of the spec knows [mpi] and has no provider for [mpi@3:],
    and [satisfies_dependencies] returns false. *)
Lemma satisfies_not_reflexive :
  parse [] "callpath ^mpi@3: ^mpich2" = Ok ([0], callpath_heap)
  /\ @satisfies mock_packages 3 callpath_heap 0 0 true = Ok false.
Proof. split; vm_compute; reflexivity. Qed.

Lemma satisfies_unfold `{Packages} (n : nat) (h : heap) (self other : loc)
    (deps : bool) :
  satisfies (S n) h self other deps
  = (s ← deref h self;
     o ← deref h other;
     if negb (bool_decide (name s = name o)) then Ok false
     else if negb (satisfies_attributes s o) then Ok false
     else if deps then
       satisfies_dependencies_with (fun a b => satisfies n h a b true)
         n h self other
     else Ok true).
Proof. reflexivity. Qed.

(** On the spec ["a ^a"], whose dependency has the name of the root,
    [self[name]] in [satisfies_dependencies] is the root again:
    [satisfies] calls itself on the same arguments until the recursion
    limit. *)
Lemma satisfies_self_named_recurses (P : Packages) (depth_left : nat) :
  satisfies depth_left self_named_heap 0 0 true = Raise recursion_error.
Proof.
  induction depth_left as [|n IH]; [reflexivity |].
  destruct n as [|[|m]]; [reflexivity | reflexivity |].
  assert (H0 : exists s, self_named_heap !! 0 = Some s /\ name s = "a"
                         /\ satisfies_attributes s s = true
                         /\ dict_truthy (dependencies s) = true)
    by (eexists; repeat split; vm_compute; reflexivity).
  destruct H0 as (s & Hs & Hn & Ha & Hd).
  assert (Ht : traverse (S (S m)) self_named_heap 0 = Ok [0; 1]).
  { unfold traverse.
    destruct (preorder_traversal by_id true "nodes" 2 self_named_heap ∅ 0 0)
      as [[ys V]|] eqn:E2; pose proof E2 as E2'; vm_compute in E2';
      [|discriminate].
    rewrite (preorder_depth_mono by_id true "nodes" self_named_heap 2
               (S (S m)) ltac:(lia) _ _ _ _ E2).
    injection E2' as <- _. reflexivity. }
  assert (Htd : traverse_deps (S (S m)) self_named_heap 0 = Ok [1]).
  { unfold traverse_deps.
    destruct (preorder_traversal by_id false "nodes" 2 self_named_heap ∅ 0 0)
      as [[ys V]|] eqn:E2; pose proof E2 as E2'; vm_compute in E2';
      [|discriminate].
    rewrite (preorder_depth_mono by_id false "nodes" self_named_heap 2
               (S (S m)) ltac:(lia) _ _ _ _ E2).
    injection E2' as <- _. reflexivity. }
  assert (Hnames : dep_names (S (S m)) self_named_heap 0 = Ok {["a"]}).
  { unfold dep_names. rewrite Htd, bind_ok. vm_compute. reflexivity. }
  rewrite satisfies_unfold. rewrite (deref_Some _ _ _ Hs), !bind_ok.
  rewrite bool_decide_eq_true_2 by reflexivity. cbn [negb].
  rewrite Ha. cbn [negb].
  unfold satisfies_dependencies_with.
  rewrite (deref_Some _ _ _ Hs), !bind_ok, Hd. cbn [negb orb].
  unfold common_dependencies. rewrite Hnames, !bind_ok.
  replace (elements ({["a"]} ∩ {["a"]} : gset string)) with ["a"]
    by (vm_compute; reflexivity).
  cbn [all_satisfy]. unfold getitem. rewrite Ht, !bind_ok.
  cbn [find_named]. rewrite (deref_Some _ _ _ Hs), !bind_ok.
  rewrite bool_decide_eq_true_2 by exact Hn. rewrite !bind_ok.
  rewrite IH. reflexivity.
Qed.

(** *** What [copy] builds *)

Lemma fresh_region_refl (h : heap) : fresh_region h h.
Proof. split; [lia |]. split; [auto |]. intros l Hl. lia. Qed.

Lemma fresh_region_trans (h0 h1 h2 : heap) :
  fresh_region h0 h1 -> fresh_region h1 h2 -> fresh_region h0 h2.
Proof.
  intros (L1 & A1 & N1) (L2 & A2 & N2). split; [lia |]. split.
  - intros l Hl. rewrite A2 by lia. apply A1. exact Hl.
  - intros l Hl. destruct (decide (l < List.length h1)) as [Hlt|Hge].
    + destruct (N1 l) as (y & Hy & Hd & Hc); [lia |].
      exists y. split; [rewrite A2 by lia; exact Hy |]. split; [exact Hd |].
      intros n c Hn. specialize (Hc n c Hn). lia.
    + destruct (N2 l) as (y & Hy & Hd & Hc); [lia |].
      exists y. split; [exact Hy |]. split; [exact Hd |].
      intros n c Hn. specialize (Hc n c Hn). lia.
Qed.

(** The copies of the values of a [DependencyMap]. *)
Lemma copy_values_spec
    (copy_one : heap -> loc -> result (loc * heap))
    (items : list (string * loc)) :
  forall h0,
    (forall h1 k v, (k, v) ∈ items -> fresh_region h0 h1 ->
       exists v' h2, copy_one h1 v = Ok (v', h2)
                     /\ fresh_region h1 h2
                     /\ List.length h1 <= v' < List.length h2) ->
    exists m h', copy_values copy_one items h0 = Ok (m, h')
                 /\ fresh_region h0 h'
                 /\ (forall k, is_Some (m !! k) <-> exists v, (k, v) ∈ items)
                 /\ (forall k v', m !! k = Some v' ->
                       List.length h0 <= v' < List.length h').
Proof.
  induction items as [|[k v] items IH]; intros h0 Hone; simpl.
  - exists ∅, h0. split; [reflexivity |]. split; [apply fresh_region_refl |].
    split.
    + intros k. rewrite lookup_empty. split.
      * intros [? E]; discriminate.
      * intros [v Hv]. inversion Hv.
    + intros k v' E. rewrite lookup_empty in E. discriminate.
  - destruct (Hone h0 k v) as (v' & h1 & E1 & F1 & B1);
      [left | apply fresh_region_refl |].
    destruct (IH h1) as (m & h2 & E2 & F2 & D2 & B2).
    { intros h3 k0 v0 Hin F3. apply (Hone h3 k0 v0); [right; exact Hin |].
      eapply fresh_region_trans; eassumption. }
    rewrite E1, bind_ok. cbv beta iota. rewrite E2, bind_ok. cbv beta iota.
    exists (<[k := v']> m), h2. split; [reflexivity |].
    split; [eapply fresh_region_trans; eassumption |].
    destruct F1 as (L1 & _). destruct F2 as (L2 & _).
    split.
    + intros k0. destruct (decide (k = k0)) as [->|Hne].
      * rewrite lookup_insert_eq. split; [intros _; exists v; left | eauto].
      * rewrite lookup_insert_ne by exact Hne. rewrite D2. split.
        -- intros [v0 Hv0]. exists v0. right. exact Hv0.
        -- intros [v0 Hv0]. apply elem_of_cons in Hv0 as [E|Hv0];
             [congruence | eauto].
    + intros k0 v0. destruct (decide (k = k0)) as [->|Hne].
      * rewrite lookup_insert_eq. intros E. injection E as <-. lia.
      * rewrite lookup_insert_ne by exact Hne. intros E.
        specialize (B2 k0 v0 E). lia.
Qed.

Lemma copy_spec (h : heap) (rank : loc -> nat) :
  closed h ->
  acyclic h rank ->
  forall n h1 a x,
    rank a < n ->
    h !! a = Some x ->
    fresh_region h h1 ->
    exists h2 y,
      copy n true h1 a = Ok (List.length h1, h2)
      /\ fresh_region h1 h2
      /\ List.length h1 < List.length h2
      /\ h2 !! List.length h1 = Some y
      /\ name y = name x
      /\ (forall k, is_Some (dependencies y !! k)
                    <-> is_Some (dependencies x !! k)).
Proof.
  intros Hclosed Hacyclic. induction n as [|n IH]; intros h1 a x Hr Hx F1;
    [lia |].
  assert (Ha1 : h1 !! a = Some x).
  { destruct F1 as (_ & A & _). rewrite A; [exact Hx |].
    eapply lookup_lt_Some; exact Hx. }
  pose proof (lookup_lt_Some _ _ _ Ha1) as Hlt.
  unfold copy, copy_with, alloc. cbn [_dup].
  rewrite (deref_Some (h1 ++ [new_Spec ""]) a x)
    by (rewrite lookup_app_l; assumption).
  rewrite bind_ok.
  assert (F0 : fresh_region h1 (h1 ++ [new_Spec ""])).
  { split; [rewrite length_app; simpl; lia |]. split.
    - intros l Hl. apply lookup_app_l. exact Hl.
    - intros l Hl. rewrite length_app in Hl. simpl in Hl.
      assert (l = List.length h1) as -> by lia.
      exists (new_Spec ""). split; [apply list_lookup_middle; reflexivity |].
      split; [reflexivity |]. intros k c E. simpl in E.
      rewrite lookup_empty in E. discriminate. }
  destruct (copy_values_spec (copy_with (_dup n true))
              (map_to_list (dependencies x)) (h1 ++ [new_Spec ""]))
    as (m & h2 & E & F2 & D & B).
  { intros h3 k v Hin F3. apply elem_of_map_to_list in Hin.
    assert (Hv : is_Some (h !! v)) by (eapply Hclosed; exists x, k; eauto).
    destruct Hv as [xv Hxv].
    destruct (IH h3 v xv) as (h4 & y & E4 & F4 & L4 & _).
    - assert (rank v < rank a) by (apply Hacyclic; exists x, k; eauto). lia.
    - exact Hxv.
    - eapply fresh_region_trans; [exact F1 |].
      eapply fresh_region_trans; [exact F0 | exact F3].
    - exists (List.length h3), h4. split; [exact E4 |]. split; [exact F4 |]. lia. }
  rewrite E, bind_ok. cbv beta iota. rewrite !bind_ok.
  eexists _, _. split; [reflexivity |].
  pose proof F2 as (L2 & A2 & N2).
  rewrite length_app in L2, N2, B. simpl in L2, N2, B.
  assert (Hins : forall l, l <> List.length h1 ->
            (<[List.length h1 :=
                 {| name := name x; versions := versions x;
                    variants := VariantMap.copy (variants x);
                    architecture := architecture x;
                    compiler := Compiler.copy <$> compiler x;
                    dependents := ∅; dependencies := m |}]> h2) !! l
            = h2 !! l)
    by (intros l Hl; apply list_lookup_insert_ne; lia).
  split.
  { split; [rewrite length_insert; lia |]. split.
    - intros l Hl. rewrite Hins by lia. rewrite A2.
      + apply lookup_app_l. exact Hl.
      + rewrite length_app. simpl. lia.
    - intros l Hl. rewrite length_insert in Hl.
      destruct (decide (l = List.length h1)) as [->|Hne].
      + eexists. split; [apply list_lookup_insert_eq; lia |].
        split; [reflexivity |]. simpl. intros k c Hk.
        rewrite length_insert. specialize (B k c Hk). lia.
      + destruct (N2 l) as (y & Hy & Hd & Hc); [lia |].
        exists y. rewrite Hins by exact Hne. split; [exact Hy |].
        split; [exact Hd |]. intros k c Hk. rewrite length_insert.
        specialize (Hc k c Hk). lia. }
  split; [rewrite length_insert; lia |].
  split; [apply list_lookup_insert_eq; lia |].
  split; [reflexivity |].
  simpl. intros k. rewrite D. split.
  - intros [v Hv]. apply elem_of_map_to_list in Hv. eauto.
  - intros [v Hv]. exists v. apply elem_of_map_to_list. exact Hv.
Qed.

(** C4: [copy] returns a clone whose nodes are all new objects, leaves
    the original as it is, and gives every node of the clone an empty
    [dependents]: no [dependents] entry of the clone refers to the
    original, and when the spec has a dependency the edges of the clone
    have no back-references, so the invariant [B.dependents[A.name] is A]
    fails in the clone. *)
Theorem copy_loses_back_references
    (h : heap) (rank : loc -> nat) (s : loc) (x : Spec) :
  closed h ->
  acyclic h rank ->
  h !! s = Some x ->
  forall depth_left,
    rank s < depth_left ->
    exists h',
      copy depth_left true h s = Ok (List.length h, h')
      /\ (forall l, l < List.length h -> h' !! l = h !! l)
      /\ (forall b, rtc (edge h') (List.length h) b ->
            List.length h <= b
            /\ exists y, h' !! b = Some y /\ dependents y = ∅)
      /\ dependents_within h' (List.length h)
      /\ (dict_truthy (dependencies x) = true ->
          ~ back_references h' (List.length h)).
Proof.
  intros Hclosed Hacyclic Hx n Hr.
  destruct (copy_spec h rank Hclosed Hacyclic n h s x Hr Hx
              (fresh_region_refl h)) as (h' & y & E & F & L & Hy & Hn & Hd).
  exists h'. split; [exact E |].
  destruct F as (_ & A & N).
  split; [exact A |].
  assert (Hnew : forall b, rtc (edge h') (List.length h) b ->
            List.length h <= b < List.length h').
  { apply rtc_ind_r; [lia |].
    intros b c _ (sb & k & Hsb & Hk) Hb.
    destruct (N b Hb) as (yb & Hyb & _ & Hc).
    rewrite Hyb in Hsb. injection Hsb as <-. exact (Hc k c Hk). }
  split.
  { intros b Hb. specialize (Hnew b Hb). split; [lia |].
    destruct (N b Hnew) as (yb & Hyb & Hdb & _). eauto. }
  split.
  { intros b sb k a Hb Hsb Hk. exfalso.
    destruct (N b (Hnew b Hb)) as (yb & Hyb & Hdb & _).
    rewrite Hyb in Hsb. injection Hsb as <-.
    rewrite Hdb, lookup_empty in Hk. discriminate. }
  intros Ht Hback.
  unfold dict_truthy in Ht.
  destruct (map_to_list (dependencies x)) as [|[k v] rest] eqn:El;
    [discriminate |].
  assert (Hkv : dependencies x !! k = Some v)
    by (apply elem_of_map_to_list; rewrite El; left).
  destruct (proj2 (Hd k) (ex_intro _ v Hkv)) as [c Hc].
  assert (Hedge : edge h' (List.length h) c) by (exists y, k; auto).
  destruct (N c (Hnew c (rtc_once _ _ Hedge))) as (yc & Hyc & Hdc & _).
  specialize (Hback (List.length h) c y yc (rtc_refl _ _) Hedge Hy Hyc).
  rewrite Hdc, lookup_empty in Hback. discriminate.
Qed.

(** The spec parsed from ["mpileaks ^callpath"] has the back-reference
    of its edge; its copy has not. *)
Lemma copy_loses_back_references_witness :
  exists h h' child node,
    parse [] "mpileaks ^callpath" = Ok ([0], h)
    /\ closed h /\ acyclic h flat_rank
    /\ back_references h 0
    /\ copy 2 true h 0 = Ok (2, h')
    /\ edge h' 2 child
    /\ h' !! child = Some node
    /\ dependents node = ∅
    /\ ~ back_references h' 2.
Proof.
  eexists _.
  assert (Hp : parse [] "mpileaks ^callpath" = Ok ([0], _))
    by (vm_compute; reflexivity).
  match type of Hp with
  | _ = Ok (_, ?h0) =>
      destruct (dag_check_sound h0 flat_rank) as [Hc Ha];
        [vm_compute; reflexivity |];
      destruct (copy_loses_back_references h0 flat_rank 0 _ Hc Ha eq_refl 2)
        as (h' & E & _ & Hnew & _ & Hnb); [simpl; lia |]
  end.
  exists h', 3.
  assert (Hedge : edge h' 2 3).
  { vm_compute in E. injection E as <-.
    eexists _, "callpath". split; reflexivity. }
  destruct (Hnew 3 (rtc_once _ _ Hedge)) as (_ & node & Hnode & Hdep).
  exists node.
  split; [exact Hp |]. split; [exact Hc |]. split; [exact Ha |].
  split; [apply back_references_check_sound; vm_compute; reflexivity |].
  split; [exact E |]. split; [exact Hedge |]. split; [exact Hnode |].
  split; [exact Hdep |].
  apply Hnb. vm_compute. reflexivity.
Defined.
(** * Properties of more of the code *)

(** ** [VariantMap.satisfies] *)

Lemma variants_satisfies_spec (a b : VariantMap.t) :
  VariantMap.satisfies a b = true <->
  forall k x y, a !! k = Some x -> b !! k = Some y ->
                Variant.enabled x = Variant.enabled y.
Proof.
  unfold VariantMap.satisfies. rewrite forallb_forall. split.
  - intros Hall k x y Ha Hb.
    specialize (Hall (k, y)). simpl in Hall. rewrite Ha in Hall.
    apply Bool.eqb_prop. apply Hall.
    apply list_elem_of_In, elem_of_map_to_list. exact Hb.
  - intros Hall [k y] Hin. simpl.
    apply list_elem_of_In, elem_of_map_to_list in Hin.
    destruct (a !! k) as [x|] eqn:Ha; [|reflexivity].
    rewrite (Hall k x y Ha Hin). apply Bool.eqb_reflx.
Qed.

(** X1: [VariantMap.satisfies] looks only at the variants both maps
    name, so it is symmetric: [a.satisfies(b)] and [b.satisfies(a)]
    give the same answer. *)
Theorem variants_satisfies_symmetric (a b : VariantMap.t) :
  VariantMap.satisfies a b = VariantMap.satisfies b a.
Proof.
  apply eq_true_iff_eq. rewrite !variants_satisfies_spec. split.
  - intros Hab k x y Hb Ha. symmetry. eapply Hab; eassumption.
  - intros Hba k x y Ha Hb. symmetry. eapply Hba; eassumption.
Qed.
(** ** [index_specs] *)

Lemma index_specs_snoc (h : heap) (specs : list loc) (l : loc) :
  index_specs h (specs ++ [l])
  = (spec_dict ← index_specs h specs;
     s ← deref h l;
     Ok (index_specs_step spec_dict l s)).
Proof. unfold index_specs. rewrite foldl_snoc. reflexivity. Qed.

Lemma index_specs_step_lookup (m : gmap string (list loc)) (l : loc)
    (s : Spec) (n : string) :
  index_specs_step m l s !! n
  = if bool_decide (name s = n) then Some (default [] (m !! n) ++ [l])
    else m !! n.
Proof.
  unfold index_specs_step. destruct (decide (name s = n)) as [<-|Hn].
  - rewrite (bool_decide_true (name s = name s)) by reflexivity.
    rewrite lookup_insert_eq.
    destruct (m !! name s) as [ls|] eqn:E; simpl.
    + rewrite ?E. reflexivity.
    + rewrite ?lookup_insert_eq. reflexivity.
  - rewrite (bool_decide_false (name s = n)) by exact Hn.
    rewrite lookup_insert_ne by exact Hn.
    destruct (bool_decide (is_Some (m !! name s))); simpl; [reflexivity |].
    rewrite lookup_insert_ne by exact Hn. reflexivity.
Qed.

(** X2: when every reference of [specs] is to an object of the store,
    [index_specs] returns a dict that holds, under each name, the specs
    of that name in the order of the input, and no key for a name that
    no spec has. *)
Theorem index_specs_groups (h : heap) (specs : list loc) :
  Forall (fun l => is_Some (h !! l)) specs ->
  exists m,
    index_specs h specs = Ok m
    /\ forall n,
         m !! n
         = match filter (fun l => name <$> h !! l = Some n) specs with
           | [] => None
           | ls => Some ls
           end.
Proof.
  induction specs as [|l specs IH] using rev_ind; intros Hall.
  - exists ∅. split; [reflexivity |]. intros n. apply lookup_empty.
  - apply Forall_app in Hall as [Hall Hl].
    apply Forall_singleton in Hl as [s Hs].
    destruct (IH Hall) as (m & Em & Hm).
    exists (index_specs_step m l s). split.
    + rewrite index_specs_snoc, Em, bind_ok, (deref_Some _ _ _ Hs), bind_ok.
      reflexivity.
    + intros n. rewrite index_specs_step_lookup, filter_app, Hm.
      rewrite filter_cons, filter_nil. rewrite Hs. simpl.
      case_bool_decide as Hn.
      * rewrite decide_True by congruence.
        destruct (filter _ specs); reflexivity.
      * rewrite decide_False by congruence. rewrite app_nil_r. reflexivity.
Qed.

Lemma index_specs_groups_witness :
  exists m,
    index_specs diamond [3; 0; 3] = Ok m
    /\ m !! "d" = Some [3; 3] /\ m !! "a" = Some [0] /\ m !! "b" = None.
Proof.
  destruct (index_specs_groups diamond [3; 0; 3]) as (m & Em & Hm).
  - repeat constructor; vm_compute; eauto.
  - exists m. split; [exact Em |].
    rewrite !Hm. repeat split; vm_compute; reflexivity.
Defined.
(** ** [allowed_archive] *)

Lemma endswith_spec (s t : string) :
  endswith s t = true <-> exists p, s = p +:+ t.
Proof.
  induction s as [|c s IH]; cbn [endswith].
  - rewrite orb_false_r. split.
    + intros E. apply String.eqb_eq in E. subst t. exists "". reflexivity.
    + intros [p E]. apply String.eqb_eq.
      destruct p; simpl in E; [exact E | discriminate].
  - rewrite orb_true_iff, IH. split.
    + intros [E|[p E]].
      * apply String.eqb_eq in E. exists "". exact E.
      * exists (String c p). simpl. rewrite E. reflexivity.
    + intros [p E]. destruct p as [|c' p]; simpl in E.
      * left. apply String.eqb_eq. exact E.
      * right. exists p. injection E as _ E. exact E.
Qed.

Lemma endswith_app (s a b : string) :
  endswith s (a +:+ b) = true -> endswith s b = true.
Proof.
  rewrite !endswith_spec. intros [p E]. exists (p +:+ a).
  rewrite E. symmetry. apply string_app_assoc.
Qed.

(** X3: [allowed_archive(path)] is true exactly when [path] ends with
    one of [EXTS]; the [tar.] entries of [ALLOWED_ARCHIVE_TYPES] add
    nothing, and no dot is asked for before the extension. *)
Theorem allowed_archive_by_extension (path : string) :
  allowed_archive path = true
  <-> exists p e, e ∈ EXTS /\ path = p +:+ e.
Proof.
  unfold allowed_archive. rewrite existsb_exists. split.
  - intros (t & Hin & He). apply list_elem_of_In in Hin.
    cbn in Hin. apply endswith_spec in He as [p E].
    repeat (apply elem_of_cons in Hin as [->|Hin]);
      try (apply elem_of_nil in Hin; contradiction);
      try (exists (p +:+ "tar."); eexists; split;
           [|rewrite E, string_app_assoc; reflexivity]; unfold EXTS;
           set_solver);
      try (exists p; eexists; split; [|exact E]; unfold EXTS; set_solver).
  - intros (p & e & Hin & E). exists e. split.
    + apply list_elem_of_In. unfold ALLOWED_ARCHIVE_TYPES.
      apply elem_of_app. right. exact Hin.
    + apply endswith_spec. exists p. exact E.
Qed.
(** ** [hline] *)

Lemma string_length_app (a b : string) :
  String.length (a +:+ b) = String.length a + String.length b.
Proof. induction a as [|c a IH]; simpl; [reflexivity | rewrite IH; reflexivity]. Qed.

Lemma repeat_str_length (c : ascii) (n : Z) :
  String.length (repeat_str (String c "") n) = Z.to_nat n.
Proof.
  unfold repeat_str, concat_strings.
  induction (Z.to_nat n) as [|k IH]; [reflexivity |].
  cbn [replicate foldr]. rewrite string_length_app, IH. reflexivity.
Qed.

(** X4: without a colour and with a one-character [char], the line
    [hline] returns is as wide as the columns it computes (64, or the
    terminal's columns less two when that is smaller) whenever the
    label fits, and is never shorter than the label with its four
    characters of frame: a long label is not cut. *)
Theorem hline_width (cescape cwrite : string -> string)
    (terminal_cols : option Z) (label : string) (c : ascii) :
  Z.of_nat (String.length
              (hline cescape cwrite terminal_cols label (String c "") ""))
  = Z.max (Z.of_nat (String.length label) + 4)
          (Z.min 64 match terminal_cols with
                    | None => 64
                    | Some n => if (n =? 0)%Z then 64 else n - 2
                    end).
Proof.
  unfold hline. cbn [String.eqb negb].
  rewrite !string_length_app, !repeat_str_length.
  cbn [String.length]. lia.
Qed.
(** ** [Spec.format] *)

Lemma string_app_snoc (a : string) (c : ascii) (b : string) :
  (a +:+ String c "") +:+ b = a +:+ String c b.
Proof. rewrite string_app_assoc. reflexivity. Qed.

(** Characters other than [$] are written as they are while no
    directive is being read. *)
Lemma format_loop_plain (sha : string -> string)
    (str_of : loc -> result string) (s : Spec) (p r : string) :
  string_contains "$" p = false ->
  r <> "" ->
  forall out,
    format_loop sha str_of s (p +:+ r) false false out
    = format_loop sha str_of s r false false (out +:+ p).
Proof.
  intros Hp Hr. induction p as [|c p IH]; intros out.
  - rewrite string_app_empty_r. reflexivity.
  - cbn [string_contains] in Hp. apply orb_false_iff in Hp as [Hc Hp].
    change (String c p +:+ r) with (String c (p +:+ r)).
    cbn [format_loop]. rewrite Hc.
    rewrite (IH Hp). rewrite string_app_snoc. reflexivity.
Qed.

Lemma format_loop_plain_end (sha : string -> string)
    (str_of : loc -> result string) (s : Spec) (p : string) :
  string_contains "$" p = false ->
  forall out,
    format_loop sha str_of s p false false out = Ok (out +:+ p).
Proof.
  intros Hp. induction p as [|c p IH]; intros out.
  - rewrite string_app_empty_r. reflexivity.
  - cbn [string_contains] in Hp. apply orb_false_iff in Hp as [Hc Hp].
    cbn [format_loop]. rewrite Hc.
    rewrite (IH Hp). rewrite string_app_snoc. reflexivity.
Qed.

(** X5: a format string without [$] is copied to the output as it is,
    whatever the spec. *)
Theorem format_copies_plain_text (sha : string -> string)
    (str_of : loc -> result string) (s : Spec) (text : string) :
  string_contains "$" text = false ->
  format sha str_of s text = Ok text.
Proof.
  intros Hp. unfold format. rewrite format_loop_plain_end by exact Hp.
  reflexivity.
Qed.

Lemma format_copies_plain_text_witness :
  format no_sha1 (fun _ => Ok "") (new_Spec "libelf") "no directive here"
  = Ok "no directive here".
Proof. apply format_copies_plain_text. reflexivity. Defined.

(** X6: a [$] that ends the format string raises [ValueError] when plain
    text comes before it; right after the directive [$%] the same [$]
    is accepted, and the string formats like the one without it. *)
Theorem format_unterminated_directive (sha : string -> string)
    (str_of : loc -> result string) (s : Spec) (text : string) :
  string_contains "$" text = false ->
  (exists msg, format sha str_of s (text +:+ "$")
               = Raise (Exception ValueError msg))
  /\ format sha str_of s (text +:+ "$%$")
     = format sha str_of s (text +:+ "$%")
  /\ exists out, format sha str_of s (text +:+ "$%$") = Ok out.
Proof.
  intros Hp. unfold format.
  rewrite !format_loop_plain by (exact Hp || discriminate).
  cbn. split; [eauto |]. split; [reflexivity |]. eauto.
Qed.

Lemma format_unterminated_directive_witness :
  (exists msg, format no_sha1 (fun _ => Ok "") (new_Spec "libelf")
                 "built with $"
               = Raise (Exception ValueError msg))
  /\ format no_sha1 (fun _ => Ok "") (new_Spec "libelf") "built with $%$"
     = format no_sha1 (fun _ => Ok "") (new_Spec "libelf") "built with $%"
  /\ exists out,
       format no_sha1 (fun _ => Ok "") (new_Spec "libelf") "built with $%$"
       = Ok out.
Proof.
  apply (format_unterminated_directive no_sha1 (fun _ => Ok "")
           (new_Spec "libelf") "built with ").
  reflexivity.
Defined.
(** ** [Spec._add_dependency] *)

Lemma add_dependency_Ok (h h' : heap) (self spec : loc) :
  _add_dependency h self spec = Ok h' ->
  exists s d,
    h !! self = Some s /\ h !! spec = Some d
    /\ dependencies s !! name d = None
    /\ h' = <[spec := set_dependents
                        (if decide (self = spec)
                         then set_dependencies s
                                (<[name d := spec]> (dependencies s))
                         else d)
                        (<[name s := self]> (dependents d))]>
              (<[self := set_dependencies s
                           (<[name d := spec]> (dependencies s))]> h).
Proof.
  unfold _add_dependency, deref. intros E.
  destruct (h !! self) as [s|] eqn:Hs; [|discriminate].
  destruct (h !! spec) as [d|] eqn:Hd; [|discriminate].
  rewrite !bind_ok in E.
  destruct (bool_decide (is_Some (dependencies s !! name d))) eqn:Hdup;
    [destruct (str_of_spec h spec); discriminate |].
  apply bool_decide_eq_false in Hdup.
  exists s, d. split; [reflexivity |]. split; [reflexivity |].
  split; [destruct (dependencies s !! name d); [exfalso; eauto | reflexivity] |].
  pose proof (lookup_lt_Some _ _ _ Hs) as Hlts.
  destruct (decide (self = spec)) as [->|Hne].
  - rewrite list_lookup_insert_eq in E by exact Hlts.
    rewrite bind_ok in E. injection E as <-.
    assert (d = s) as -> by congruence. reflexivity.
  - rewrite list_lookup_insert_ne in E by exact Hne.
    rewrite Hd, bind_ok in E. injection E as <-. reflexivity.
Qed.

(** X7: [_add_dependency] keeps invariant 2 of the data model on the
    whole store, provided that no other dependent of [spec] bears the
    name of [self] (its back-reference would be overwritten), and the
    new edge is in the store it returns. *)
Theorem add_dependency_keeps_back_references
    (h h' : heap) (self spec : loc) (s : Spec) :
  back_referenced h ->
  h !! self = Some s ->
  (forall a sa, edge h a spec -> h !! a = Some sa ->
                name sa = name s -> a = self) ->
  _add_dependency h self spec = Ok h' ->
  back_referenced h' /\ edge h' self spec.
Proof.
  intros Hinv Hs Hsole E.
  apply add_dependency_Ok in E as (s0 & d & Hs0 & Hd & Hnew & ->).
  assert (s0 = s) as -> by congruence.
  pose proof (lookup_lt_Some _ _ _ Hs) as Hlts.
  pose proof (lookup_lt_Some _ _ _ Hd) as Hltd.
  set (s' := set_dependencies s (<[name d := spec]> (dependencies s))).
  set (d' := set_dependents (if decide (self = spec) then s' else d)
               (<[name s := self]> (dependents d))).
  (* the objects of the new store *)
  assert (Hat : forall l y, (<[spec := d']> (<[self := s']> h)) !! l = Some y ->
            (l = spec /\ y = d')
            \/ (l <> spec /\ l = self /\ y = s')
            \/ (l <> spec /\ l <> self /\ h !! l = Some y)).
  { intros l y Hl. destruct (decide (l = spec)) as [->|Hne1].
    - rewrite list_lookup_insert_eq in Hl by (rewrite length_insert; exact Hltd).
      left. split; congruence.
    - rewrite list_lookup_insert_ne in Hl by congruence.
      destruct (decide (l = self)) as [->|Hne2].
      + rewrite list_lookup_insert_eq in Hl by exact Hlts.
        right. left. repeat split; congruence.
      + rewrite list_lookup_insert_ne in Hl by congruence.
        right. right. auto. }
  (* names and old objects *)
  assert (Hold : forall l y, (<[spec := d']> (<[self := s']> h)) !! l = Some y ->
            exists y0, h !! l = Some y0 /\ name y = name y0
                       /\ (l <> self -> dependencies y = dependencies y0)
                       /\ (l = self ->
                           dependencies y = <[name d := spec]> (dependencies s))
                       /\ (l <> spec -> dependents y = dependents y0)
                       /\ (l = spec ->
                           dependents y = <[name s := self]> (dependents d))).
  { intros l y Hl. destruct (Hat l y Hl) as [[-> ->]|[(N1 & -> & ->)|(N1 & N2 & Hl0)]].
    - exists d. split; [exact Hd |]. unfold d'.
      destruct (decide (self = spec)) as [->|Hne].
      + assert (d = s) as -> by congruence.
        repeat split; try reflexivity; intros; congruence.
      + repeat split; try reflexivity; intros; congruence.
    - exists s. split; [exact Hs |].
      repeat split; try reflexivity; intros; congruence.
    - exists y. split; [exact Hl0 |].
      repeat split; try reflexivity; intros; congruence. }
  split.
  - intros a b sa sb (sa0 & n & Ha0 & Hn) Ha Hb.
    assert (sa0 = sa) as -> by congruence.
    destruct (Hold a sa Ha) as (xa & Hxa & Hna & Hda & Hda' & _).
    destruct (Hold b sb Hb) as (xb & Hxb & _ & _ & _ & Hpb & Hpb').
    rewrite Hna.
    destruct (decide (a = self)) as [->|Hane].
    + assert (xa = s) as -> by congruence.
      rewrite (Hda' eq_refl) in Hn.
      destruct (decide (n = name d)) as [->|Hnn].
      * rewrite lookup_insert_eq in Hn. injection Hn as <-.
        rewrite (Hpb' eq_refl). apply lookup_insert_eq.
      * rewrite lookup_insert_ne in Hn by congruence.
        assert (Hedge : edge h self b) by (exists s, n; auto).
        destruct (decide (b = spec)) as [->|Hbne].
        -- rewrite (Hpb' eq_refl). apply lookup_insert_eq.
        -- rewrite (Hpb Hbne). eapply Hinv; eassumption.
    + rewrite (Hda Hane) in Hn.
      assert (Hedge : edge h a b) by (exists xa, n; auto).
      destruct (decide (b = spec)) as [->|Hbne].
      * rewrite (Hpb' eq_refl).
        destruct (decide (name xa = name s)) as [Hnm|Hnm].
        -- exfalso. apply Hane. eapply Hsole; eassumption.
        -- rewrite lookup_insert_ne by congruence.
           assert (xb = d) as -> by congruence.
           eapply Hinv; eassumption.
      * rewrite (Hpb Hbne). eapply Hinv; eassumption.
  - destruct (decide (self = spec)) as [->|Hne].
    + exists d', (name d). split.
      * apply list_lookup_insert_eq. rewrite length_insert. exact Hltd.
      * unfold d', s'. simpl. apply lookup_insert_eq.
    + exists s', (name d). split.
      * rewrite list_lookup_insert_ne by congruence.
        apply list_lookup_insert_eq. exact Hlts.
      * simpl. apply lookup_insert_eq.
Qed.
Lemma back_referenced_check_sound (h : heap) :
  back_references_check h = true -> back_referenced h.
Proof.
  intros Hc a b sa sb Hedge Ha Hb.
  exact (back_references_check_sound h a Hc a b sa sb (rtc_refl _ _)
           Hedge Ha Hb).
Qed.

Lemma sole_dependent_check_sound (h : heap) (spec : loc) (n : string)
    (self : loc) :
  sole_dependent_check h spec n self = true ->
  forall a sa, edge h a spec -> h !! a = Some sa -> name sa = n -> a = self.
Proof.
  unfold sole_dependent_check. rewrite forallb_forall.
  intros Hc a sa (s & k & Hs & Hk) Ha Hn.
  assert (s = sa) as -> by congruence.
  specialize (Hc (a, sa)). simpl in Hc.
  assert (Hin : In (a, sa) (imap pair h))
    by (apply list_elem_of_In, elem_of_lookup_imap; eauto).
  specialize (Hc Hin). apply orb_true_iff in Hc as [Hc|Hc].
  - exfalso. apply negb_true_iff, andb_false_iff in Hc as [Hc|Hc].
    + assert (Hex : existsb (fun nc : string * loc => bool_decide (nc.2 = spec))
                      (map_to_list (dependencies sa)) = true).
      { apply existsb_exists. exists (k, spec). split.
        - apply list_elem_of_In, elem_of_map_to_list. exact Hk.
        - simpl. apply bool_decide_true. reflexivity. }
      congruence.
    + apply bool_decide_eq_false in Hc. contradiction.
  - eapply bool_decide_eq_true_1. exact Hc.
Qed.

Lemma add_dependency_keeps_back_references_witness :
  exists h',
    _add_dependency mpileaks_heap 1 2 = Ok h'
    /\ back_referenced mpileaks_heap
    /\ back_referenced h' /\ edge h' 1 2.
Proof.
  eexists. split; [vm_compute; reflexivity |].
  assert (Hb : back_referenced mpileaks_heap)
    by (apply back_referenced_check_sound; vm_compute; reflexivity).
  split; [exact Hb |].
  eapply (add_dependency_keeps_back_references mpileaks_heap _ 1 2).
  - exact Hb.
  - vm_compute. reflexivity.
  - apply sole_dependent_check_sound. vm_compute. reflexivity.
  - vm_compute. reflexivity.
Defined.
(** ** The store the parser builds *)

Lemma parsed_refl (h : heap) : parsed h h [].
Proof.
  split; [lia |]. split; [auto |]. split; [constructor |].
  split; [intros l Hl; inversion Hl |].
  split; [intros l y Hl; inversion Hl |].
  intros c yc Hc _ Hy. apply lookup_lt_Some in Hy. lia.
Qed.

(** A spec the parser has read becomes a new object. *)
Lemma parsed_spec (h0 h : heap) (specs : list loc) (d : Spec) :
  parsed h0 h specs ->
  dependencies d = ∅ -> dependents d = ∅ ->
  parsed h0 (h ++ [d]) (specs ++ [List.length h]).
Proof.
  intros (L & A & N & B & HS & C) Hd1 Hd2.
  assert (Hnew : List.length h ∉ specs)
    by (intros Hin; apply B in Hin; lia).
  split; [rewrite length_app; simpl; lia |].
  split; [intros l Hl; rewrite lookup_app_l by lia; apply A; exact Hl |].
  split.
  { apply NoDup_app. split; [exact N |]. split.
    - intros x Hx Hx'. apply list_elem_of_singleton in Hx'. subst x.
      contradiction.
    - apply NoDup_singleton. }
  split.
  { intros l Hl. rewrite length_app. simpl.
    apply elem_of_app in Hl as [Hl|Hl].
    - apply B in Hl. lia.
    - apply list_elem_of_singleton in Hl. subst l. lia. }
  split.
  - intros l y Hl Hy. apply elem_of_app in Hl as [Hl|Hl].
    + pose proof (B l Hl) as Hb.
      rewrite lookup_app_l in Hy by lia.
      destruct (HS l y Hl Hy) as (Hdep & Hch). split; [exact Hdep |].
      intros n c Hn. destruct (Hch n c Hn) as (Hc1 & Hc2 & yc & Hyc & Hrest).
      split; [exact Hc1 |]. split.
      * intros Hin. apply elem_of_app in Hin as [Hin|Hin]; [contradiction |].
        apply list_elem_of_singleton in Hin. subst c.
        apply lookup_lt_Some in Hyc. lia.
      * exists yc. split; [|exact Hrest].
        rewrite lookup_app_l by (eapply lookup_lt_Some; exact Hyc). exact Hyc.
    + apply list_elem_of_singleton in Hl. subst l.
      rewrite list_lookup_middle in Hy by reflexivity. injection Hy as <-.
      split; [exact Hd2 |]. intros n c Hn. rewrite Hd1, lookup_empty in Hn.
      discriminate.
  - intros c yc Hc Hnin Hy.
    assert (c <> List.length h).
    { intros ->. apply Hnin. apply elem_of_app. right.
      apply list_elem_of_singleton. reflexivity. }
    assert (Hlt : c < List.length h).
    { apply lookup_lt_Some in Hy. rewrite length_app in Hy. simpl in Hy. lia. }
    rewrite lookup_app_l in Hy by exact Hlt.
    apply (C c yc Hc); [|exact Hy].
    intros Hin. apply Hnin. apply elem_of_app. left. exact Hin.
Qed.

(** A dependency the parser has read becomes a new object, linked to
    the last spec. *)
Lemma parsed_dependency (h0 h h2 : heap) (specs : list loc) (parent : loc)
    (d : Spec) :
  parsed h0 h specs ->
  parent ∈ specs ->
  dependencies d = ∅ -> dependents d = ∅ ->
  _add_dependency (h ++ [d]) parent (List.length h) = Ok h2 ->
  parsed h0 h2 specs.
Proof.
  intros (L & A & N & B & HS & C) Hp Hd1 Hd2 E.
  pose proof (B parent Hp) as Hpb.
  destruct (lookup_lt_is_Some_2 h parent) as [sp Hsp]; [lia |].
  rewrite (add_dependency_fresh h parent sp d Hsp Hd1) in E.
  destruct (bool_decide (is_Some (dependencies sp !! name d))) eqn:Hdup;
    [discriminate |].
  apply bool_decide_eq_false in Hdup.
  assert (Hnone : dependencies sp !! name d = None)
    by (destruct (dependencies sp !! name d); [exfalso; eauto | reflexivity]).
  injection E as <-.
  set (sp' := set_dependencies sp (<[name d := List.length h]> (dependencies sp))).
  set (d' := set_dependents d (<[name sp := parent]> (dependents d))).
  assert (Hlen : List.length (<[List.length h := d']> (<[parent := sp']> (h ++ [d])))
                 = S (List.length h))
    by (rewrite !length_insert, length_app; simpl; lia).
  assert (Hnew : (<[List.length h := d']> (<[parent := sp']> (h ++ [d])))
                   !! List.length h = Some d').
  { apply list_lookup_insert_eq. rewrite length_insert, length_app. simpl. lia. }
  assert (Hpar : (<[List.length h := d']> (<[parent := sp']> (h ++ [d])))
                   !! parent = Some sp').
  { rewrite list_lookup_insert_ne by lia.
    apply list_lookup_insert_eq. rewrite length_app. simpl. lia. }
  assert (Hoth : forall x, x <> parent -> x < List.length h ->
            (<[List.length h := d']> (<[parent := sp']> (h ++ [d]))) !! x
            = h !! x).
  { intros x Hx Hlt. rewrite !list_lookup_insert_ne by lia.
    apply lookup_app_l. exact Hlt. }
  assert (Hfresh : List.length h ∉ specs)
    by (intros Hin; apply B in Hin; lia).
  destruct (HS parent sp Hp Hsp) as (Hspdep & Hspch).
  split; [lia |].
  split; [intros l Hl; rewrite Hoth by lia; apply A; exact Hl |].
  split; [exact N |].
  split; [intros l Hl; apply B in Hl; lia |].
  split.
  - intros l y Hl Hy. pose proof (B l Hl) as Hlb.
    destruct (decide (l = parent)) as [->|Hne].
    + rewrite Hpar in Hy. injection Hy as <-.
      split; [exact Hspdep |]. intros n c Hn. simpl in Hn.
      destruct (decide (n = name d)) as [->|Hnn].
      * rewrite lookup_insert_eq in Hn. injection Hn as <-.
        split; [lia |]. split; [exact Hfresh |].
        exists d'. split; [exact Hnew |]. split; [reflexivity |].
        split; [exact Hd1 |]. simpl. rewrite Hd2. reflexivity.
      * rewrite lookup_insert_ne in Hn by congruence.
        destruct (Hspch n c Hn) as (Hc1 & Hc2 & yc & Hyc & Hrest).
        split; [exact Hc1 |]. split; [exact Hc2 |].
        exists yc. split; [|exact Hrest].
        rewrite Hoth; [exact Hyc | congruence |].
        eapply lookup_lt_Some; exact Hyc.
    + rewrite Hoth in Hy by lia.
      destruct (HS l y Hl Hy) as (Hdep & Hch). split; [exact Hdep |].
      intros n c Hn. destruct (Hch n c Hn) as (Hc1 & Hc2 & yc & Hyc & Hrest).
      split; [exact Hc1 |]. split; [exact Hc2 |].
      exists yc. split; [|exact Hrest].
      rewrite Hoth; [exact Hyc | congruence |].
      eapply lookup_lt_Some; exact Hyc.
  - intros c yc Hc Hnin Hy.
    destruct (decide (c = List.length h)) as [->|Hne].
    + rewrite Hnew in Hy. injection Hy as <-. exact Hd1.
    + assert (Hlt : c < List.length h).
      { apply lookup_lt_Some in Hy. rewrite Hlen in Hy. lia. }
      rewrite Hoth in Hy; [|congruence | exact Hlt].
      apply (C c yc Hc Hnin Hy).
Qed.

Lemma last_elem_of {A} (l : list A) (x : A) : last l = Some x -> x ∈ l.
Proof.
  intros E. apply last_Some in E as [l' ->].
  apply elem_of_app. right. apply list_elem_of_singleton. reflexivity.
Qed.

Lemma do_parse_loop_parsed (h0 : heap) (rounds : nat) :
  forall h specs toks specs' h',
    parsed h0 h specs ->
    do_parse_loop rounds h specs toks = Ok (specs', h') ->
    parsed h0 h' specs'.
Proof.
  induction rounds as [|n IH]; intros h specs toks specs' h' Hp;
    [discriminate |].
  cbn [do_parse_loop].
  destruct toks as [|t toks]; [intros E; injection E as <- <-; exact Hp |].
  destruct (accept ID (t :: toks)) as [[v t1]|].
  { destruct (parse_spec v t1) as [[d t2]|] eqn:Hd;
      rewrite ?bind_ok, ?bind_raise; [|discriminate].
    cbv beta iota. unfold alloc. cbv beta iota zeta.
    apply parse_spec_links in Hd as [Hd1 Hd2].
    apply IH. apply parsed_spec; assumption. }
  destruct (accept DEP (t :: toks)) as [[v t1]|]; [|discriminate].
  destruct (last specs) as [parent|] eqn:Hlast; [|discriminate].
  destruct (expect ID t1) as [[v2 t2]|];
    rewrite ?bind_ok, ?bind_raise; [|discriminate].
  cbv beta iota.
  destruct (parse_spec v2 t2) as [[d t3]|] eqn:Hd;
    rewrite ?bind_ok, ?bind_raise; [|discriminate].
  cbv beta iota. unfold alloc. cbv beta iota zeta.
  apply parse_spec_links in Hd as [Hd1 Hd2].
  destruct (_add_dependency _ _ _) as [h2|] eqn:Ea;
    rewrite ?bind_ok, ?bind_raise; [|discriminate].
  apply IH. eapply parsed_dependency; eauto using last_elem_of.
Qed.

(** What [parse] adds to the store. *)
Lemma parse_parsed (h h' : heap) (text : string) (specs : list loc) :
  parse h text = Ok (specs, h') -> parsed h h' specs.
Proof.
  unfold parse. destruct (lex None text) as [toks|]; [|discriminate].
  rewrite bind_ok. unfold do_parse.
  destruct (do_parse_loop _ _ _ _) as [[sp hh]|e] eqn:E.
  - intros E'. injection E' as <- <-.
    eapply do_parse_loop_parsed; [apply parsed_refl | exact E].
  - destruct (issubclass _ _); [destruct e |]; discriminate.
Qed.
(** X8: [parse] leaves every object of the store as it was; the specs
    it returns are new objects, no two of them the same. *)
Theorem parse_adds_new_objects (h h' : heap) (text : string)
    (specs : list loc) :
  parse h text = Ok (specs, h') ->
  (forall l, l < List.length h -> h' !! l = h !! l)
  /\ NoDup specs
  /\ forall l, l ∈ specs -> List.length h <= l < List.length h'.
Proof.
  intros E. apply parse_parsed in E as (_ & A & N & B & _). auto.
Qed.

Lemma parse_adds_new_objects_witness :
  exists h',
    parse mpileaks_heap "libdwarf libelf@0.8.12" = Ok ([3; 4], h')
    /\ (forall l, l < 3 -> h' !! l = mpileaks_heap !! l)
    /\ NoDup [3; 4]
    /\ forall l, l ∈ [3; 4] -> 3 <= l < List.length h'.
Proof.
  eexists. split; [vm_compute; reflexivity |].
  eapply (parse_adds_new_objects mpileaks_heap _ "libdwarf libelf@0.8.12").
  vm_compute. reflexivity.
Defined.

(** X9: the parser keeps invariant 2 of the data model: when every
    dependency of the store refers to an object and every edge has its
    back-reference, the same holds of the store [parse] returns, the
    edges of the new specs included. *)
Theorem parse_keeps_back_references (h h' : heap) (text : string)
    (specs : list loc) :
  closed h ->
  back_referenced h ->
  parse h text = Ok (specs, h') ->
  closed h' /\ back_referenced h'.
Proof.
  intros Hclosed Hinv E.
  apply parse_parsed in E as (L & A & N & B & HS & C).
  assert (Hold : forall a b, a < List.length h -> edge h' a b ->
            edge h a b /\ b < List.length h).
  { intros a b Ha (sa & n & Hsa & Hn). rewrite A in Hsa by exact Ha.
    assert (Hedge : edge h a b) by (exists sa, n; auto).
    split; [exact Hedge |].
    destruct (Hclosed a b Hedge) as [sb Hsb].
    eapply lookup_lt_Some; exact Hsb. }
  assert (Hnew : forall a b sa, List.length h <= a -> edge h' a b ->
            h' !! a = Some sa ->
            exists sb, h' !! b = Some sb /\ dependents sb = {[name sa := a]}).
  { intros a b sa Ha (sa' & n & Hsa & Hn) Hsa'.
    assert (sa' = sa) as -> by congruence.
    destruct (decide (a ∈ specs)) as [Hin|Hnin].
    - destruct (HS a sa Hin Hsa) as (_ & Hch).
      destruct (Hch n b Hn) as (_ & _ & sb & Hsb & _ & _ & Hdep). eauto.
    - rewrite (C a sa Ha Hnin Hsa), lookup_empty in Hn. discriminate. }
  split.
  - intros a b Hedge. destruct (decide (a < List.length h)) as [Ha|Ha].
    + destruct (Hold a b Ha Hedge) as (He & Hb). rewrite A by exact Hb.
      apply (Hclosed a b He).
    + pose proof Hedge as (sa & n & Hsa & _).
      destruct (Hnew a b sa) as (sb & Hsb & _); [lia | exact Hedge | exact Hsa |].
      eauto.
  - intros a b sa sb Hedge Hsa Hsb.
    destruct (decide (a < List.length h)) as [Ha|Ha].
    + destruct (Hold a b Ha Hedge) as (He & Hb).
      rewrite A in Hsa by exact Ha. rewrite A in Hsb by exact Hb.
      eapply Hinv; eassumption.
    + destruct (Hnew a b sa) as (sb' & Hsb' & Hdep);
        [lia | exact Hedge | exact Hsa |].
      assert (sb' = sb) as -> by congruence.
      rewrite Hdep. apply lookup_singleton_eq.
Qed.

Lemma parse_keeps_back_references_witness :
  exists h',
    parse mpileaks_heap "dyninst ^libdwarf ^libelf" = Ok ([3], h')
    /\ closed h' /\ back_referenced h'.
Proof.
  eexists. split; [vm_compute; reflexivity |].
  eapply (parse_keeps_back_references mpileaks_heap _
            "dyninst ^libdwarf ^libelf").
  - apply (dag_check_sound mpileaks_heap flat_rank). vm_compute. reflexivity.
  - apply back_referenced_check_sound. vm_compute. reflexivity.
  - vm_compute. reflexivity.
Defined.

(** X10: what [parse] builds is flat: every dependency hangs off one of
    the specs returned (in the source, the last one read before it), is
    an object of its own that is not among the specs returned, bears
    the name it is filed under, and has no dependencies. *)
Theorem parse_is_flat (h h' : heap) (text : string) (specs : list loc) :
  parse h text = Ok (specs, h') ->
  forall a b, List.length h <= a -> edge h' a b ->
    a ∈ specs /\ (b ∉ specs) /\ List.length h <= b
    /\ exists sa sb, h' !! a = Some sa /\ h' !! b = Some sb
         /\ dependencies sa !! name sb = Some b
         /\ dependencies sb = ∅.
Proof.
  intros E a b Ha (sa & n & Hsa & Hn).
  apply parse_parsed in E as (L & A & N & B & HS & C).
  destruct (decide (a ∈ specs)) as [Hin|Hnin].
  - destruct (HS a sa Hin Hsa) as (_ & Hch).
    destruct (Hch n b Hn) as (Hb1 & Hb2 & sb & Hsb & Hname & Hdeps & _).
    split; [exact Hin |]. split; [exact Hb2 |]. split; [exact Hb1 |].
    exists sa, sb. rewrite Hname. auto.
  - rewrite (C a sa Ha Hnin Hsa), lookup_empty in Hn. discriminate.
Qed.

Lemma parse_is_flat_witness :
  exists h',
    parse [] "mpileaks ^callpath ^mpich2 libdwarf" = Ok ([0; 3], h')
    /\ edge h' 0 1 /\ edge h' 0 2
    /\ forall a b, edge h' a b ->
         a ∈ [0; 3] /\ (b ∉ [0; 3]) /\ 0 <= b
         /\ exists sa sb, h' !! a = Some sa /\ h' !! b = Some sb
              /\ dependencies sa !! name sb = Some b
              /\ dependencies sb = ∅.
Proof.
  eexists. split; [vm_compute; reflexivity |].
  split; [eexists _, "callpath"; split; vm_compute; reflexivity |].
  split; [eexists _, "mpich2"; split; vm_compute; reflexivity |].
  intros a b Hedge.
  eapply (parse_is_flat [] _ "mpileaks ^callpath ^mpich2 libdwarf");
    [vm_compute; reflexivity | simpl; lia | exact Hedge].
Defined.
(** ** [Spec.root] *)

Lemma all_roots_are_true (root_of : loc -> result loc) (r : loc)
    (ds : list loc) :
  all_roots_are root_of r ds = Ok true ->
  forall d, d ∈ ds -> root_of d = Ok r.
Proof.
  induction ds as [|x ds IH]; intros E d Hd; [inversion Hd |].
  cbn [all_roots_are] in E.
  destruct (root_of x) as [rx|] eqn:Ex; [|discriminate].
  rewrite bind_ok in E. case_bool_decide as Hr; [|discriminate].
  subst rx. apply elem_of_cons in Hd as [->|Hd]; [exact Ex | auto].
Qed.

Lemma dependent_values (h : heap) (a b : loc) (sa : Spec) :
  h !! a = Some sa ->
  dependent h a b <-> b ∈ (map_to_list (dependents sa)).*2.
Proof.
  intros Ha. rewrite list_elem_of_fmap. split.
  - intros (s & n & Hs & Hn). assert (s = sa) as -> by congruence.
    exists (n, b). split; [reflexivity |].
    apply elem_of_map_to_list. exact Hn.
  - intros ([n b'] & -> & Hin). apply elem_of_map_to_list in Hin.
    exists sa, n. auto.
Qed.

Lemma values_nil_empty (m : DependencyMap) :
  (map_to_list m).*2 = [] -> m = ∅.
Proof.
  intros E. apply fmap_nil_inv in E. apply map_to_list_empty_iff. exact E.
Qed.

(** X11: when [root] returns, it returns a spec without dependents that
    is reached from [self] along dependents, and the only such spec:
    every chain of dependents from [self] that ends at a spec without
    dependents ends at the one returned. *)
Theorem root_is_the_only_top (depth_left : nat) (h : heap) (self r : loc) :
  root depth_left h self = Ok r ->
  (exists sr, h !! r = Some sr /\ dependents sr = ∅)
  /\ rtc (dependent h) self r
  /\ forall t st, rtc (dependent h) self t -> h !! t = Some st ->
                  dependents st = ∅ -> t = r.
Proof.
  revert self r. induction depth_left as [|n IH]; intros self r E;
    [discriminate |].
  cbn [root] in E. unfold deref in E.
  destruct (h !! self) as [s|] eqn:Hs; [|discriminate].
  rewrite bind_ok in E.
  destruct ((map_to_list (dependents s)).*2) as [|first rest] eqn:Hv.
  - injection E as <-. apply values_nil_empty in Hv.
    split; [eauto |]. split; [apply rtc_refl |].
    intros t st Hchain _ _. destruct Hchain as [|x y z Hxy _]; [reflexivity |].
    destruct Hxy as (sx & k & Hsx & Hk).
    assert (sx = s) as -> by congruence.
    rewrite Hv, lookup_empty in Hk. discriminate.
  - destruct (root n h first) as [fr|] eqn:Ef; [|discriminate].
    rewrite bind_ok in E.
    destruct (all_roots_are (root n h) fr rest) as [same|] eqn:Ea;
      [|discriminate].
    rewrite bind_ok in E. destruct same; [|discriminate].
    injection E as <-.
    assert (Hall : forall d, dependent h self d -> root n h d = Ok fr).
    { intros d Hd. apply (dependent_values h self d s Hs) in Hd.
      rewrite Hv in Hd. apply elem_of_cons in Hd as [->|Hd]; [exact Ef |].
      eapply all_roots_are_true; eassumption. }
    assert (Hfirst : dependent h self first).
    { apply (dependent_values h self first s Hs). rewrite Hv. left. }
    destruct (IH first fr Ef) as (Htop & Hchain & _).
    split; [exact Htop |].
    split; [eapply rtc_l; eassumption |].
    intros t st Ht Hst Hdep. destruct Ht as [|x y z Hxy Hyz].
    + exfalso. assert (st = s) as -> by congruence.
      rewrite Hdep in Hv. rewrite map_to_list_empty in Hv. discriminate.
    + destruct (IH y fr (Hall y Hxy)) as (_ & _ & Huniq).
      eapply Huniq; eassumption.
Qed.

Lemma root_is_the_only_top_witness :
  root 2 mpileaks_heap 2 = Ok 0
  /\ (exists sr, mpileaks_heap !! 0 = Some sr /\ dependents sr = ∅)
  /\ rtc (dependent mpileaks_heap) 2 0
  /\ forall t st, rtc (dependent mpileaks_heap) 2 t ->
                  mpileaks_heap !! t = Some st ->
                  dependents st = ∅ -> t = 0.
Proof.
  split; [vm_compute; reflexivity |].
  apply (root_is_the_only_top 2 mpileaks_heap 2 0).
  vm_compute. reflexivity.
Defined.

(** ** [Spec.__init__] on a string *)

Lemma Spec_init_string (n : nat) (h h' : heap) (text : string) (self : loc) :
  Spec_init n h (PyStr text) [] = Ok (self, h') ->
  exists other h1 o,
    parse h text = Ok ([other], h1)
    /\ h1 !! other = Some o
    /\ self = List.length h1 /\ h' = h1 ++ [o].
Proof.
  unfold Spec_init, Spec_init_head.
  destruct (parse h text) as [[spec_list h1]|]; [|discriminate].
  rewrite bind_ok. cbv beta iota.
  destruct spec_list as [|other [|x rest]]; [discriminate | | discriminate].
  cbn [List.length]. change ((1 <? 1)%nat) with false. cbv beta iota.
  unfold deref. destruct (h1 !! other) as [o|] eqn:Ho; [|discriminate].
  rewrite !bind_ok. unfold alloc. cbv beta iota zeta. rewrite bind_ok.
  cbn [foldl]. rewrite bind_ok. intros E. injection E as <- <-.
  exists other, h1, o. auto.
Qed.

(** X12: [Spec(string)] takes the attributes of the object the parser
    made, so the dependencies of the new [Spec] keep that object as
    their dependent: for every dependency [c] of the [Spec] constructed,
    [c.dependents] holds, under the name of the spec, another object
    with the same attributes, [c.root] is that object, and invariant 2
    of the data model fails on the constructed [Spec]. *)
Theorem Spec_from_string_back_references (n : nat) (h h' : heap)
    (text : string) (self : loc) (s : Spec) (k : string) (c : loc) :
  Spec_init n h (PyStr text) [] = Ok (self, h') ->
  h' !! self = Some s ->
  dependencies s !! k = Some c ->
  exists other sc,
    other <> self
    /\ h' !! other = Some s
    /\ h' !! c = Some sc
    /\ dependents sc = {[name s := other]}
    /\ root 2 h' c = Ok other
    /\ ~ back_references h' self.
Proof.
  intros E Hs Hk.
  apply Spec_init_string in E as (other & h1 & o & Ep & Ho & -> & ->).
  rewrite list_lookup_middle in Hs by reflexivity. injection Hs as <-.
  apply parse_parsed in Ep as (L & A & N & B & HS & C).
  assert (Hin : other ∈ [other]) by left.
  pose proof (B other Hin) as Hb.
  destruct (HS other o Hin Ho) as (Hdep & Hch).
  destruct (Hch k c Hk) as (_ & _ & sc & Hsc & _ & _ & Hscdep).
  pose proof (lookup_lt_Some _ _ _ Hsc) as Hclt.
  assert (Ho' : (h1 ++ [o]) !! other = Some o)
    by (rewrite lookup_app_l by lia; exact Ho).
  assert (Hsc' : (h1 ++ [o]) !! c = Some sc)
    by (rewrite lookup_app_l by lia; exact Hsc).
  exists other, sc.
  split; [lia |]. split; [exact Ho' |]. split; [exact Hsc' |].
  split; [exact Hscdep |]. split.
  - cbn [root]. rewrite (deref_Some _ _ _ Hsc'), bind_ok.
    rewrite Hscdep, map_to_list_singleton. cbn [fmap list_fmap snd].
    rewrite (deref_Some _ _ _ Ho'), bind_ok.
    rewrite Hdep, map_to_list_empty. reflexivity.
  - intros Hback.
    specialize (Hback (List.length h1) c o sc (rtc_refl _ _)).
    rewrite Hscdep, lookup_singleton_eq in Hback.
    assert (Some other = Some (List.length h1)) as Heq.
    { apply Hback; [|apply list_lookup_middle; reflexivity | exact Hsc'].
      exists o, k. split; [apply list_lookup_middle; reflexivity | exact Hk]. }
    injection Heq as Heq. lia.
Qed.

Lemma Spec_from_string_back_references_witness :
  exists h' s other sc,
    Spec_init 0 [] (PyStr "mpileaks ^callpath") [] = Ok (2, h')
    /\ h' !! 2 = Some s
    /\ dependencies s !! "callpath" = Some 1
    /\ other <> 2
    /\ h' !! other = Some s
    /\ h' !! 1 = Some sc
    /\ dependents sc = {[name s := other]}
    /\ root 2 h' 1 = Ok other
    /\ ~ back_references h' 2.
Proof.
  eexists _, _.
  assert (E : Spec_init 0 [] (PyStr "mpileaks ^callpath") [] = Ok (2, _))
    by (vm_compute; reflexivity).
  match type of E with
  | _ = Ok (_, ?h0) =>
      destruct (Spec_from_string_back_references 0 [] h0 "mpileaks ^callpath"
                  2 _ "callpath" 1 E eq_refl eq_refl)
        as (other & sc & H1 & H2 & H3 & H4 & H5 & H6)
  end.
  exists other, sc.
  split; [exact E |]. split; [reflexivity |]. split; [reflexivity |].
  repeat split; assumption.
Defined.
(** ** The depths the traversal reports *)

Lemma visit_children_depths {K : Type} `{Countable K} (h : heap)
    (rec : gset K -> loc -> result (list (nat * loc) * gset K))
    (d : nat) (cs : list loc) :
  (forall V c ys V', c ∈ cs -> rec V c = Ok (ys, V') ->
     forall dl, dl ∈ ys -> exists k, dl.1 = d + k /\ path h k c dl.2) ->
  forall V ys V',
    visit_children rec cs V = Ok (ys, V') ->
    forall dl, dl ∈ ys ->
      exists c k, c ∈ cs /\ dl.1 = d + k /\ path h k c dl.2.
Proof.
  induction cs as [|c cs IH]; intros Hrec V ys V' E dl Hdl.
  - injection E as <- <-. inversion Hdl.
  - cbn [visit_children] in E.
    destruct (rec V c) as [[ys1 V1]|] eqn:E1; [|discriminate].
    rewrite bind_ok in E. cbv beta iota in E.
    destruct (visit_children rec cs V1) as [[ys2 V2]|] eqn:E2; [|discriminate].
    rewrite bind_ok in E. injection E as <- <-.
    apply elem_of_app in Hdl as [Hdl|Hdl].
    + destruct (Hrec V c ys1 V1 ltac:(left) E1 dl Hdl) as (k & Hk & Hp).
      exists c, k. split; [left | auto].
    + destruct (IH (fun V0 c0 ys0 V0' Hc0 => Hrec V0 c0 ys0 V0' ltac:(right; exact Hc0))
                  V1 ys2 V2 E2 dl Hdl) as (c0 & k & Hc0 & Hk & Hp).
      exists c0, k. split; [right; exact Hc0 | auto].
Qed.

(** What the traversal yields is reached along a path whose length is
    the depth it is yielded with. *)
Lemma traversal_yields_paths {K : Type} `{Countable K}
    (key_fun : loc -> Spec -> K) (yield_root : bool) (cover : string)
    (h : heap) (depth_left : nat) :
  forall visited d self ys V',
    preorder_traversal key_fun yield_root cover depth_left h visited d self
    = Ok (ys, V') ->
    forall depth node, (depth, node) ∈ ys ->
      exists k, depth = d + k /\ path h k self node.
Proof.
  induction depth_left as [|n IH]; intros visited d self ys V' E depth node Hin;
    [discriminate |].
  cbn [preorder_traversal] in E.
  destruct (negb _); [discriminate |].
  unfold deref in E. destruct (h !! self) as [s|] eqn:Hs; [|discriminate].
  rewrite bind_ok in E. cbv zeta in E.
  assert (Hhere : forall here : list (nat * loc),
            here = (if yield_root || (0 <? d)%nat then [(d, self)] else []) ->
            (depth, node) ∈ here ->
            exists k, depth = d + k /\ path h k self node).
  { intros here -> Hh. destruct (yield_root || (0 <? d)%nat);
      [|inversion Hh].
    apply list_elem_of_singleton in Hh. injection Hh as -> ->.
    exists 0. split; [lia | constructor]. }
  destruct (_ && bool_decide (cover = "nodes")).
  { injection E as <- <-. inversion Hin. }
  destruct (_ && bool_decide (cover = "edges")).
  { injection E as <- <-. eapply Hhere; [reflexivity | exact Hin]. }
  destruct (visit_children _ _ _) as [[zs V1]|] eqn:Ev; [|discriminate].
  rewrite bind_ok in E. injection E as <- <-.
  apply elem_of_app in Hin as [Hin|Hin].
  { eapply Hhere; [reflexivity | exact Hin]. }
  destruct (visit_children_depths h _ (S d) (sorted_children s)
              (fun V0 c ys0 V0' _ Ec dl Hdl =>
                 IH V0 (S d) c ys0 V0' Ec dl.1 dl.2
                    ltac:(destruct dl; exact Hdl))
              _ _ _ Ev (depth, node) Hin) as (c & k & Hc & Hk & Hp).
  simpl in Hk, Hp. apply elem_of_sorted_children in Hc as [nm Hnm].
  exists (S k). split; [lia |].
  econstructor; [|exact Hp]. exists s, nm. auto.
Qed.

(** X13: for every key function and every value of [cover] and [root],
    a pair [(depth, node)] the traversal yields tells the length of a
    path of dependencies from the node the traversal started at to that
    node: the depth is the starting depth plus the number of edges. *)
Theorem traversal_depth_is_path_length {K : Type} `{Countable K}
    (key_fun : loc -> Spec -> K) (yield_root : bool) (cover : string)
    (h : heap) (depth_left : nat) (visited : gset K) (d : nat) (self : loc)
    (ys : list (nat * loc)) (V' : gset K) :
  preorder_traversal key_fun yield_root cover depth_left h visited d self
  = Ok (ys, V') ->
  forall depth node, (depth, node) ∈ ys ->
    exists k, depth = d + k /\ path h k self node.
Proof. apply traversal_yields_paths. Qed.

Lemma traversal_depth_is_path_length_witness :
  preorder_traversal by_id true "paths" 3 diamond ∅ 0 0
  = Ok ([(0, 0); (1, 1); (2, 3); (1, 2); (2, 3)], {[0; 1; 2; 3]})
  /\ exists k, 2 = 0 + k /\ path diamond k 0 3.
Proof.
  assert (E : preorder_traversal by_id true "paths" 3 diamond ∅ 0 0
              = Ok ([(0, 0); (1, 1); (2, 3); (1, 2); (2, 3)], {[0; 1; 2; 3]})).
  { vm_compute. reflexivity. }
  split; [exact E |].
  apply (traversal_depth_is_path_length by_id true "paths" diamond 3
           ∅ 0 0 _ _ E 2 3).
  set_solver.
Defined.
(** ** The exceptions of the parser *)

Ltac raised_here :=
  unfold parse_error; eexists _, _; (split; [reflexivity | left]).

Lemma expect_raises (ty : toktype) (toks : tokens) (e : exn) :
  expect ty toks = Raise e -> raised_as [ParseError] e.
Proof.
  unfold expect. destruct (accept ty toks); [discriminate |].
  destruct toks; intros E; injection E as <-; raised_here.
Qed.

Lemma check_identifier_raises (v : string) (e : exn) :
  check_identifier v = Raise e -> raised_as [ParseError] e.
Proof.
  unfold check_identifier. destruct (string_contains _ _); [|discriminate].
  intros E; injection E as <-; raised_here.
Qed.

Lemma version_raises (toks : tokens) (e : exn) :
  version toks = Raise e -> raised_as [ParseError] e.
Proof.
  unfold version. destruct (accept ID toks) as [[v r]|];
    (destruct (accept COLON _) as [[c r2]|];
     [destruct (accept ID r2) as [[v2 r3]|]; discriminate |]);
    (destruct (to_version _); [discriminate |]);
    intros E; injection E as <-; raised_here.
Qed.

Lemma version_list_rest_raises (rounds : nat) :
  forall vlist toks e,
    version_list_rest rounds vlist toks = Raise e ->
    e = loop_bound_error \/ raised_as [ParseError] e.
Proof.
  induction rounds as [|n IH]; intros vlist toks e; cbn [version_list_rest].
  - intros E; injection E as <-. left. reflexivity.
  - destruct (accept COMMA toks) as [[c t1]|]; [|discriminate].
    destruct (version t1) as [[v t2]|e1] eqn:Ev;
      rewrite ?bind_ok, ?bind_raise.
    + cbv beta iota. apply IH.
    + intros E; injection E as <-. right. eapply version_raises; exact Ev.
Qed.

Lemma version_list_raises (toks : tokens) (e : exn) :
  version_list toks = Raise e ->
  e = loop_bound_error \/ raised_as [ParseError] e.
Proof.
  unfold version_list. destruct (version toks) as [[v t1]|e1] eqn:Ev;
    rewrite ?bind_ok, ?bind_raise.
  - cbv beta iota. apply version_list_rest_raises.
  - intros E; injection E as <-. right. eapply version_raises; exact Ev.
Qed.

Lemma parse_variant_raises (toks : tokens) (e : exn) :
  parse_variant toks = Raise e -> raised_as [ParseError] e.
Proof.
  unfold parse_variant. destruct (expect ID toks) as [[v t1]|e1] eqn:Ee;
    rewrite ?bind_ok, ?bind_raise.
  - cbv beta iota. destruct (check_identifier v) as [[]|e1] eqn:Ec;
      rewrite ?bind_ok, ?bind_raise; [discriminate |].
    intros E; injection E as <-. eapply check_identifier_raises; exact Ec.
  - intros E; injection E as <-. eapply expect_raises; exact Ee.
Qed.

Lemma parse_compiler_raises (toks : tokens) (e : exn) :
  parse_compiler toks = Raise e ->
  e = loop_bound_error \/ raised_as [ParseError] e.
Proof.
  unfold parse_compiler. destruct (expect ID toks) as [[v t1]|e1] eqn:Ee;
    rewrite ?bind_ok, ?bind_raise.
  - cbv beta iota. destruct (check_identifier v) as [[]|e1] eqn:Ec;
      rewrite ?bind_ok, ?bind_raise.
    + cbv zeta. destruct (accept AT t1) as [[a t2]|]; [|discriminate].
      destruct (version_list t2) as [[vl t3]|e1] eqn:Ev;
        rewrite ?bind_ok, ?bind_raise; [discriminate |].
      intros E; injection E as <-. eapply version_list_raises; exact Ev.
    + intros E; injection E as <-. right.
      eapply check_identifier_raises; exact Ec.
  - intros E; injection E as <-. right. eapply expect_raises; exact Ee.
Qed.

Lemma raised_as_mono (cs ds : list error_class) (e : exn) :
  cs ⊆ ds -> raised_as cs e -> raised_as ds e.
Proof. intros Hsub (c & msg & -> & Hc). exists c, msg. split; [reflexivity | auto]. Qed.

Ltac raised_now :=
  eexists _, _; split; [reflexivity | unfold clause_errors; set_solver].

Ltac raised_from H :=
  eapply raised_as_mono; [|exact H]; unfold clause_errors; set_solver.

Lemma spec_clause_raises (spec : Spec) (added : bool) (toks : tokens)
    (e : exn) :
  spec_clause spec added toks = Raise e ->
  e = loop_bound_error \/ raised_as clause_errors e.
Proof.
  unfold spec_clause.
  destruct (accept AT toks) as [[? t1]|].
  { destruct (version_list t1) as [[vl t2]|e1] eqn:Ev;
      rewrite ?bind_ok, ?bind_raise; [discriminate |].
    intros E; injection E as <-.
    destruct (version_list_raises _ _ Ev) as [->|Hr]; [left | right];
      [reflexivity | raised_from Hr]. }
  destruct (accept ON toks) as [[? t1]|].
  { destruct (parse_variant t1) as [[v t2]|e1] eqn:Ev;
      rewrite ?bind_ok, ?bind_raise.
    - cbv beta iota. unfold _add_variant.
      destruct (bool_decide _); rewrite ?bind_ok, ?bind_raise; [|discriminate].
      intros E; injection E as <-. right. raised_now.
    - intros E; injection E as <-. right.
      pose proof (parse_variant_raises _ _ Ev) as Hr. raised_from Hr. }
  destruct (accept OFF toks) as [[? t1]|].
  { destruct (parse_variant t1) as [[v t2]|e1] eqn:Ev;
      rewrite ?bind_ok, ?bind_raise.
    - cbv beta iota. unfold _add_variant.
      destruct (bool_decide _); rewrite ?bind_ok, ?bind_raise; [|discriminate].
      intros E; injection E as <-. right. raised_now.
    - intros E; injection E as <-. right.
      pose proof (parse_variant_raises _ _ Ev) as Hr. raised_from Hr. }
  destruct (accept PCT toks) as [[? t1]|].
  { destruct (parse_compiler t1) as [[c t2]|e1] eqn:Ev;
      rewrite ?bind_ok, ?bind_raise.
    - cbv beta iota. unfold _set_compiler.
      destruct (bool_decide _); rewrite ?bind_ok, ?bind_raise; [|discriminate].
      intros E; injection E as <-. right. raised_now.
    - intros E; injection E as <-.
      destruct (parse_compiler_raises _ _ Ev) as [->|Hr]; [left | right];
        [reflexivity | raised_from Hr]. }
  destruct (accept EQ toks) as [[? t1]|]; [|discriminate].
  unfold parse_architecture.
  destruct (expect ID t1) as [[a t2]|e1] eqn:Ev;
    rewrite ?bind_ok, ?bind_raise.
  - cbv beta iota. unfold _set_architecture.
    destruct (arch_truthy _); rewrite ?bind_ok, ?bind_raise; [|discriminate].
    intros E; injection E as <-. right. raised_now.
  - intros E; injection E as <-. right.
    pose proof (expect_raises _ _ _ Ev) as Hr. raised_from Hr.
Qed.

Lemma spec_loop_raises (rounds : nat) :
  forall spec added toks e,
    spec_loop rounds spec added toks = Raise e ->
    e = loop_bound_error \/ raised_as clause_errors e.
Proof.
  induction rounds as [|n IH]; intros spec added toks e; cbn [spec_loop].
  - intros E; injection E as <-. left. reflexivity.
  - destruct toks as [|t toks]; [discriminate |].
    destruct (spec_clause spec added (t :: toks)) as [[[[s1 a1] t1]|]|e1] eqn:Hc;
      rewrite ?bind_ok, ?bind_raise.
    + apply IH.
    + discriminate.
    + intros E; injection E as <-. eapply spec_clause_raises; exact Hc.
Qed.

Lemma parse_spec_raises (n : string) (toks : tokens) (e : exn) :
  parse_spec n toks = Raise e ->
  e = loop_bound_error \/ raised_as clause_errors e.
Proof.
  unfold parse_spec. destruct (check_identifier n) as [[]|e1] eqn:Ec;
    rewrite ?bind_ok, ?bind_raise.
  - destruct (spec_loop _ _ _ _) as [[[s1 a1] t1]|e1] eqn:El;
      rewrite ?bind_ok, ?bind_raise; [discriminate |].
    intros E; injection E as <-. eapply spec_loop_raises; exact El.
  - intros E; injection E as <-. right.
    pose proof (check_identifier_raises _ _ Ec) as Hr. raised_from Hr.
Qed.

Lemma do_parse_loop_raises (h0 : heap) (rounds : nat) :
  forall h specs toks e,
    parsed h0 h specs ->
    do_parse_loop rounds h specs toks = Raise e ->
    e = loop_bound_error
    \/ raised_as (DuplicateDependencyError :: clause_errors) e.
Proof.
  induction rounds as [|n IH]; intros h specs toks e Hp; cbn [do_parse_loop].
  { intros E; injection E as <-. left. reflexivity. }
  destruct toks as [|t toks]; [discriminate |].
  destruct (accept ID (t :: toks)) as [[v t1]|].
  { destruct (parse_spec v t1) as [[d t2]|e1] eqn:Hd;
      rewrite ?bind_ok, ?bind_raise.
    - cbv beta iota. unfold alloc. cbv beta iota zeta.
      apply parse_spec_links in Hd as [Hd1 Hd2].
      apply IH. apply parsed_spec; assumption.
    - intros E; injection E as <-.
      destruct (parse_spec_raises _ _ _ Hd) as [->|Hr]; [left; reflexivity |].
      right. raised_from Hr. }
  destruct (accept DEP (t :: toks)) as [[v t1]|];
    [|intros E; injection E as <-; right; raised_now].
  destruct (last specs) as [parent|] eqn:Hlast;
    [|intros E; injection E as <-; right; raised_now].
  destruct (expect ID t1) as [[v2 t2]|e1] eqn:Ee;
    rewrite ?bind_ok, ?bind_raise;
    [|intros E; injection E as <-; right;
      pose proof (expect_raises _ _ _ Ee) as Hr; raised_from Hr].
  cbv beta iota.
  destruct (parse_spec v2 t2) as [[d t3]|e1] eqn:Hd;
    rewrite ?bind_ok, ?bind_raise.
  - cbv beta iota. unfold alloc. cbv beta iota zeta.
    apply parse_spec_links in Hd as [Hd1 Hd2].
    pose proof (last_elem_of _ _ Hlast) as Hin.
    destruct (_add_dependency _ _ _) as [h2|e1] eqn:Ea;
      rewrite ?bind_ok, ?bind_raise.
    + apply IH. eapply parsed_dependency; eauto.
    + intros E; injection E as <-. right.
      destruct Hp as (_ & _ & _ & B & _).
      destruct (lookup_lt_is_Some_2 h parent) as [sp Hsp];
        [apply B in Hin; lia |].
      rewrite (add_dependency_fresh h parent sp d Hsp Hd1) in Ea.
      destruct (bool_decide _); [|discriminate].
      injection Ea as <-. raised_now.
  - intros E; injection E as <-.
    destruct (parse_spec_raises _ _ _ Hd) as [->|Hr]; [left; reflexivity |].
    right. raised_from Hr.
Qed.

(** X14: whatever the tokens, an exception of [do_parse] is a
    [SpecParseError] or one of the four [Duplicate...Error]s, all of
    them [SpecError]s: no [ParseError] of the base parser gets out. *)
Theorem do_parse_raises_spec_errors (h : heap) (toks : tokens) (e : exn) :
  do_parse h toks = Raise e ->
  class_of e ∈ [SpecParseError; DuplicateDependencyError;
                DuplicateVariantError; DuplicateCompilerError;
                DuplicateArchitectureError]
  /\ issubclass (class_of e) SpecError = true
  /\ issubclass (class_of e) ParseError = false.
Proof.
  unfold do_parse. intros E.
  assert (Hcls : class_of e ∈ [SpecParseError; DuplicateDependencyError;
                               DuplicateVariantError; DuplicateCompilerError;
                               DuplicateArchitectureError]).
  { destruct (do_parse_loop _ _ _ _) as [r|e1] eqn:El; [discriminate |].
    pose proof (do_parse_loop_ends (S (List.length toks)) h [] toks
                  ltac:(lia)) as Hends.
    destruct (do_parse_loop_raises h _ _ _ _ _ (parsed_refl h) El)
      as [->|(c & msg & -> & Hc)];
      [rewrite El in Hends; contradiction |].
    cbn [class_of] in E. unfold clause_errors in Hc.
    repeat (apply elem_of_cons in Hc as [->|Hc]);
      try (injection E as <-; cbn [class_of]; set_solver).
    inversion Hc. }
  split; [exact Hcls |].
  repeat (apply elem_of_cons in Hcls as [->|Hcls]);
    try (split; reflexivity).
  inversion Hcls.
Qed.

Lemma do_parse_raises_spec_errors_witness :
  do_parse [] [Token DEP "^"; Token ID "callpath"]
  = Raise (Exception SpecParseError "Dependency has no package")
  /\ issubclass SpecParseError SpecError = true.
Proof.
  split; [reflexivity |].
  apply (do_parse_raises_spec_errors [] [Token DEP "^"; Token ID "callpath"]
           (Exception SpecParseError "Dependency has no package")).
  reflexivity.
Defined.
(** ** [Spec.constrain] on one node *)

Lemma raise_not_Ok {A} (e : result exn) (a : A) : raise e <> Ok a.
Proof. destruct e; discriminate. Qed.

(** What a [constrain] that returns has done to [self]. *)
Lemma constrain_node_Ok (h h1 : heap) (self other : loc) :
  constrain_node h self other = Ok h1 ->
  exists s o s',
    h !! self = Some s /\ h !! other = Some o
    /\ h1 = <[self := s']> h
    /\ name s' = name s /\ name o = name s
    /\ VersionList.overlaps (versions s) (versions o) = true
    /\ versions s' = VersionList.intersect (versions s) (versions o)
    /\ variants s' = variants o ∪ variants s
    /\ variant_conflict (variants s) (map_to_list (variants o)) = None
    /\ architecture s'
       = (if arch_truthy (architecture s) then architecture s
          else architecture o)
    /\ dependents s' = dependents s
    /\ dependencies s' = dependencies s.
Proof.
  unfold constrain_node, deref. intros E.
  destruct (h !! self) as [s|] eqn:Hs; [|discriminate].
  destruct (h !! other) as [o|] eqn:Ho; [|discriminate].
  rewrite !bind_ok in E.
  destruct (bool_decide (name s = name o)) eqn:Hn;
    [|exfalso; eapply raise_not_Ok; exact E].
  apply bool_decide_eq_true in Hn. cbn [negb] in E.
  destruct (VersionList.overlaps (versions s) (versions o)) eqn:Hv;
    [|exfalso; eapply raise_not_Ok; exact E].
  cbn [negb] in E.
  destruct (variant_conflict _ _) as [[mine theirs]|] eqn:Hc;
    [exfalso; eapply raise_not_Ok; exact E |].
  match type of E with
  | ?m ≫= _ = _ => destruct m as [[]|] eqn:Ha; [|discriminate]
  end.
  rewrite bind_ok in E.
  match type of E with
  | ?m ≫= _ = _ => destruct m as [c|] eqn:Hcomp; [|discriminate]
  end.
  rewrite bind_ok in E. injection E as <-.
  eexists s, o, _. split; [reflexivity |]. split; [reflexivity |].
  split; [reflexivity |]. simpl. repeat split; auto.
Qed.

Section flat_facts.
Context `{Packages}.
Variable validate_dependencies : string -> result unit.
Variable spec_text : loc -> string.

(** With no dependencies of its own, [constrain] stops after the node. *)
Lemma constrain_without_dependencies (n : nat) (h h1 : heap)
    (self other : loc) (s : Spec) :
  h !! self = Some s ->
  dependencies s = ∅ ->
  constrain n h self other true = Ok h1 ->
  constrain_node h self other = Ok h1.
Proof.
  intros Hs Hd. unfold constrain.
  destruct (constrain_node h self other) as [h2|] eqn:E; [|discriminate].
  rewrite bind_ok.
  destruct (constrain_node_Ok _ _ _ _ E)
    as (s0 & o & s' & Hs0 & Ho & -> & _ & _ & _ & _ & _ & _ & _ & _ & Hdeps).
  assert (s0 = s) as -> by congruence.
  pose proof (lookup_lt_Some _ _ _ Hs) as Hlt.
  unfold _constrain_dependencies.
  rewrite (deref_Some _ self s') by (apply list_lookup_insert_eq; exact Hlt).
  rewrite bind_ok.
  destruct (deref _ other) as [o'|]; [|discriminate].
  rewrite bind_ok, Hdeps, Hd. unfold dict_truthy at 1.
  rewrite map_to_list_empty. cbn [negb orb]. auto.
Qed.

Lemma copy_shallow (n : nat) (h : heap) (l : loc) (s : Spec) :
  h !! l = Some s ->
  copy (S n) false h l
  = Ok (List.length h,
        <[List.length h := {| name := name s; versions := versions s;
                              variants := VariantMap.copy (variants s);
                              architecture := architecture s;
                              compiler := Compiler.copy <$> compiler s;
                              dependents := ∅; dependencies := ∅ |}]>
          (h ++ [new_Spec ""])).
Proof.
  intros Hl. unfold copy, copy_with, alloc. cbn [_dup].
  rewrite (deref_Some (h ++ [new_Spec ""]) l s)
    by (rewrite lookup_app_l; [exact Hl | eapply lookup_lt_Some, Hl]).
  reflexivity.
Qed.

Lemma flat_copies_step (n : nat) (h0 h1 h2 : heap) (m m2 : DependencyMap)
    (l : loc) :
  flat_copies h0 h1 m ->
  flat_dependencies_step n (Ok (m, h1)) l = Ok (m2, h2) ->
  flat_copies h0 h2 m2
  /\ (forall k, is_Some (m !! k) -> is_Some (m2 !! k))
  /\ exists s, h1 !! l = Some s /\ is_Some (m2 !! name s).
Proof.
  intros (L & A & C) E. unfold flat_dependencies_step in E.
  rewrite bind_ok in E. cbv beta iota in E. unfold deref in E.
  destruct (h1 !! l) as [s|] eqn:Hl; [|discriminate].
  rewrite bind_ok in E.
  destruct (m !! name s) as [mine|] eqn:Hm.
  - destruct (constrain n h1 mine l true) as [h3|] eqn:Ec; [|discriminate].
    rewrite bind_ok in E. injection E as <- <-.
    destruct (C _ _ Hm) as (Hge & sc & Hsc & Hname & Hdeps & Hdnts).
    apply (constrain_without_dependencies n h1 h3 mine l sc Hsc Hdeps) in Ec.
    destruct (constrain_node_Ok _ _ _ _ Ec)
      as (s0 & o & s' & Hs0 & Ho & -> & Hn' & _ & _ & _ & _ & _ & _ & Hd1 & Hd2).
    assert (s0 = sc) as -> by congruence.
    pose proof (lookup_lt_Some _ _ _ Hsc) as Hlt.
    split; [|split; [auto | exists s; split; [reflexivity | eauto]]].
    split; [rewrite length_insert; exact L |].
    split; [intros x Hx; rewrite list_lookup_insert_ne by lia; auto |].
    intros k c Hk. destruct (C _ _ Hk) as (Hgec & sc' & Hsc' & Hrest).
    split; [exact Hgec |].
    destruct (decide (c = mine)) as [->|Hne].
    + exists s'. split; [apply list_lookup_insert_eq; exact Hlt |].
      assert (sc' = sc) as -> by congruence.
      destruct Hrest as (Hk1 & Hk2 & Hk3).
      rewrite Hn', Hd1, Hd2. auto.
    + exists sc'. split; [|exact Hrest].
      rewrite list_lookup_insert_ne by congruence. exact Hsc'.
  - destruct n as [|n]; [discriminate |].
    rewrite (copy_shallow n h1 l s Hl), bind_ok in E.
    injection E as <- <-.
    split; [|split].
    + split; [rewrite length_insert, length_app; simpl; lia |].
      split.
      { intros x Hx. rewrite list_lookup_insert_ne by lia.
        rewrite lookup_app_l by lia. auto. }
      intros k c Hk. destruct (decide (k = name s)) as [->|Hne].
      * rewrite lookup_insert_eq in Hk. injection Hk as <-.
        split; [exact L |]. eexists. split.
        -- apply list_lookup_insert_eq. rewrite length_app. simpl. lia.
        -- simpl. auto.
      * rewrite lookup_insert_ne in Hk by congruence.
        destruct (C _ _ Hk) as (Hgec & sc' & Hsc' & Hrest).
        split; [exact Hgec |]. exists sc'. split; [|exact Hrest].
        pose proof (lookup_lt_Some _ _ _ Hsc') as Hlt.
        rewrite list_lookup_insert_ne by lia.
        rewrite lookup_app_l by lia. exact Hsc'.
    + intros k [c Hk]. destruct (decide (k = name s)) as [->|Hne];
        [rewrite lookup_insert_eq | rewrite lookup_insert_ne by congruence];
        eauto.
    + exists s. split; [reflexivity |]. rewrite lookup_insert_eq. eauto.
Qed.

Lemma flat_dependencies_step_raise (n : nat) (e : exn) (ls : list loc) :
  foldl (flat_dependencies_step n) (Raise e) ls = Raise e.
Proof. induction ls as [|l ls IH]; [reflexivity | exact IH]. Qed.

Lemma flat_copies_fold (n : nat) (h0 : heap) (ls : list loc) :
  forall h1 m h2 m2,
    flat_copies h0 h1 m ->
    foldl (flat_dependencies_step n) (Ok (m, h1)) ls = Ok (m2, h2) ->
    flat_copies h0 h2 m2
    /\ (forall k, is_Some (m !! k) -> is_Some (m2 !! k)).
Proof.
  induction ls as [|l ls IH]; intros h1 m h2 m2 Hf E.
  - injection E as <- <-. auto.
  - cbn [foldl] in E.
    destruct (flat_dependencies_step n (Ok (m, h1)) l) as [[m1 h3]|e] eqn:Es;
      [|rewrite flat_dependencies_step_raise in E; discriminate].
    destruct (flat_copies_step n h0 h1 h3 m m1 l Hf Es) as (Hf1 & Hk1 & _).
    destruct (IH h3 m1 h2 m2 Hf1 E) as (Hf2 & Hk2). auto.
Qed.

Lemma flat_dependencies_Ok (n : nat) (h h' : heap) (self : loc)
    (m : DependencyMap) :
  flat_dependencies validate_dependencies spec_text n h self = Ok (m, h') ->
  flat_copies h h' m
  /\ exists s, h !! self = Some s /\ is_Some (m !! name s).
Proof.
  unfold flat_dependencies, deref. intros E.
  destruct (h !! self) as [s|] eqn:Hs; [|discriminate].
  rewrite bind_ok in E.
  match type of E with
  | ?c ≫= _ = _ => destruct c as [[]|]; [|discriminate]
  end.
  rewrite bind_ok in E.
  rewrite (traverse_root_first n h self) in E by eauto.
  destruct (traverse_deps n h self) as [deps|e];
    rewrite ?bind_ok, ?bind_raise in E;
    [|destruct (issubclass _ _); discriminate].
  cbn [foldl] in E.
  match type of E with
  | match ?f with _ => _ end = _ =>
      destruct f as [[m2 h2]|e] eqn:Ef;
        [|destruct (issubclass _ _); discriminate]
  end.
  injection E as <- <-.
  assert (Hf0 : flat_copies h h ∅).
  { split; [lia |]. split; [auto |]. intros k c Hk.
    rewrite lookup_empty in Hk. discriminate. }
  destruct (flat_dependencies_step n (Ok (∅, h)) self) as [[m1 h1]|e] eqn:Es;
    [|rewrite flat_dependencies_step_raise in Ef; discriminate].
  destruct (flat_copies_step n h h h1 ∅ m1 self Hf0 Es)
    as (Hf1 & _ & s1 & Hs1 & Hin).
  assert (s1 = s) as -> by congruence.
  destruct (flat_copies_fold n h deps h1 m1 h2 m2 Hf1 Ef) as (Hf2 & Hk).
  split; [exact Hf2 |]. exists s. auto.
Qed.

End flat_facts.

(** X15: when [flat_dependencies] returns, every object of the store it
    was called on has the name, the versions, the variants, the
    architecture, the dependencies and the dependents it had; every
    value of the map is a new object that bears the name it is filed
    under and has neither dependencies nor dependents; and the map has
    an entry for the name of the spec itself: the traversal starts at
    the root.  Nothing is said of the compilers: [constrain] may hand
    the [Compiler] object of a node to a copy and narrow it later. *)
Theorem flat_dependencies_copies `{Packages}
    (validate_dependencies : string -> result unit)
    (spec_text : loc -> string)
    (n : nat) (h h' : heap) (self : loc) (m : DependencyMap) :
  flat_dependencies validate_dependencies spec_text n h self = Ok (m, h') ->
  (forall l y, h !! l = Some y ->
     exists y', h' !! l = Some y'
                /\ name y' = name y /\ versions y' = versions y
                /\ variants y' = variants y
                /\ architecture y' = architecture y
                /\ dependencies y' = dependencies y
                /\ dependents y' = dependents y)
  /\ (forall k c, m !! k = Some c ->
        List.length h <= c
        /\ exists sc, h' !! c = Some sc /\ name sc = k
             /\ dependencies sc = ∅ /\ dependents sc = ∅)
  /\ exists s, h !! self = Some s /\ is_Some (m !! name s).
Proof.
  intros E. apply flat_dependencies_Ok in E as ((_ & A & C) & Hs).
  split; [|auto].
  intros l y Hl. exists y. rewrite A by (eapply lookup_lt_Some; exact Hl).
  auto 10.
Qed.

(** X16: after [flatten], the spec has a dependency of its own name:
    a copy of itself that is another object, without dependencies and
    without dependents. *)
Theorem flatten_self_dependency `{Packages}
    (validate_dependencies : string -> result unit)
    (spec_text : loc -> string)
    (n : nat) (h h' : heap) (self : loc) :
  flatten validate_dependencies spec_text n h self = Ok h' ->
  exists s c sc,
    h' !! self = Some s
    /\ dependencies s !! name s = Some c
    /\ c <> self
    /\ h' !! c = Some sc
    /\ name sc = name s
    /\ dependencies sc = ∅ /\ dependents sc = ∅.
Proof.
  unfold flatten. intros E.
  destruct (flat_dependencies _ _ n h self) as [[m h1]|] eqn:Ef;
    [|discriminate].
  rewrite bind_ok in E. cbv beta iota in E.
  apply flat_dependencies_Ok in Ef as ((L & A & C) & s0 & Hs0 & [c Hc]).
  pose proof (lookup_lt_Some _ _ _ Hs0) as Hlt.
  rewrite (deref_Some h1 self s0) in E by (rewrite A by exact Hlt; exact Hs0).
  rewrite bind_ok in E. injection E as <-.
  destruct (C _ _ Hc) as (Hge & sc & Hsc & Hname & Hd1 & Hd2).
  exists (set_dependencies s0 m), c, sc.
  split; [apply list_lookup_insert_eq; lia |].
  split; [exact Hc |]. split; [lia |].
  split; [rewrite list_lookup_insert_ne by lia; exact Hsc |].
  auto.
Qed.
Lemma flat_dependencies_copies_witness :
  exists m h',
    @flat_dependencies mock_packages (fun _ => Ok ()) (fun _ => "")
      3 mpileaks_heap 0 = Ok (m, h')
    /\ (forall l y, mpileaks_heap !! l = Some y ->
          exists y', h' !! l = Some y'
                     /\ name y' = name y /\ versions y' = versions y
                     /\ variants y' = variants y
                     /\ architecture y' = architecture y
                     /\ dependencies y' = dependencies y
                     /\ dependents y' = dependents y)
    /\ (forall k c, m !! k = Some c ->
          List.length mpileaks_heap <= c
          /\ exists sc, h' !! c = Some sc /\ name sc = k
               /\ dependencies sc = ∅ /\ dependents sc = ∅)
    /\ exists s, mpileaks_heap !! 0 = Some s /\ is_Some (m !! name s).
Proof.
  destruct (@flat_dependencies mock_packages (fun _ => Ok ()) (fun _ => "")
              3 mpileaks_heap 0) as [[m h']|e] eqn:E;
    [|vm_compute in E; discriminate].
  exists m, h'. split; [reflexivity |].
  exact (@flat_dependencies_copies mock_packages (fun _ => Ok ())
           (fun _ => "") 3 mpileaks_heap h' 0 m E).
Defined.

Lemma flatten_self_dependency_witness :
  exists h' s c sc,
    @flatten mock_packages (fun _ => Ok ()) (fun _ => "") 3 mpileaks_heap 0
    = Ok h'
    /\ h' !! 0 = Some s
    /\ dependencies s !! name s = Some c
    /\ c <> 0
    /\ h' !! c = Some sc
    /\ name sc = name s
    /\ dependencies sc = ∅ /\ dependents sc = ∅.
Proof.
  destruct (@flatten mock_packages (fun _ => Ok ()) (fun _ => "")
              3 mpileaks_heap 0) as [h'|e] eqn:E;
    [|vm_compute in E; discriminate].
  destruct (@flatten_self_dependency mock_packages (fun _ => Ok ())
              (fun _ => "") 3 mpileaks_heap h' 0 E) as (s & c & sc & Hrest).
  exists h', s, c, sc. split; [reflexivity | exact Hrest].
Defined.
(** ** What [copy] adds to the store *)

Lemma extends_refl (h : heap) : extends h h.
Proof. split; [lia | auto]. Qed.

Lemma extends_trans (h0 h1 h2 : heap) :
  extends h0 h1 -> extends h1 h2 -> extends h0 h2.
Proof.
  intros (L1 & A1) (L2 & A2). split; [lia |].
  intros l Hl. rewrite A2 by lia. apply A1. exact Hl.
Qed.

Lemma sorted_children_values (s : Spec) :
  sorted_children s ≡ₚ (map_to_list (dependencies s)).*2.
Proof.
  unfold sorted_children, sorted_names.
  rewrite sorted_strings_perm.
  assert (G : forall l : list (string * loc),
            (forall kv, kv ∈ l -> dependencies s !! kv.1 = Some kv.2) ->
            omap (fun n => dependencies s !! n) (map fst l) = l.*2).
  { induction l as [|[k v] l IH]; intros Hl; [reflexivity |].
    cbn [map omap list_omap fmap list_fmap].
    rewrite (Hl (k, v)) by left. simpl. f_equal.
    apply IH. intros kv Hkv. apply Hl. right. exact Hkv. }
  rewrite G; [reflexivity |].
  intros [k v] Hkv. apply elem_of_map_to_list. exact Hkv.
Qed.

Lemma copy_values_count (h : heap)
    (copy_one : heap -> loc -> result (loc * heap)) (f : loc -> nat)
    (P : loc -> Prop) (items : list (string * loc)) :
  (forall h1 k v v' h2, (k, v) ∈ items -> extends h h1 ->
     copy_one h1 v = Ok (v', h2) ->
     P v /\ extends h1 h2 /\ List.length h2 = List.length h1 + f v) ->
  forall h1 m h2,
    extends h h1 ->
    copy_values copy_one items h1 = Ok (m, h2) ->
    (forall k v, (k, v) ∈ items -> P v)
    /\ extends h1 h2
    /\ List.length h2 = List.length h1 + sum_list_with f items.*2.
Proof.
  induction items as [|[k v] items IH]; intros Hone h1 m h2 Hext E.
  - injection E as <- <-. split; [intros k v Hin; inversion Hin |].
    split; [apply extends_refl | simpl; lia].
  - cbn [copy_values] in E.
    destruct (copy_one h1 v) as [[v' h3]|] eqn:E1; [|discriminate].
    rewrite bind_ok in E. cbv beta iota in E.
    destruct (copy_values copy_one items h3) as [[m' h4]|] eqn:E2;
      [|discriminate].
    rewrite bind_ok in E. injection E as <- <-.
    destruct (Hone h1 k v v' h3 ltac:(left) Hext E1) as (Pv & X1 & L1).
    destruct (IH (fun h5 k0 v0 v0' h6 Hin =>
                    Hone h5 k0 v0 v0' h6 ltac:(right; exact Hin))
                h3 m' h4 (extends_trans _ _ _ Hext X1) E2)
      as (Pall & X2 & L2).
    split.
    { intros k0 v0 Hin. apply elem_of_cons in Hin as [Heq|Hin];
        [injection Heq as -> ->; exact Pv | eapply Pall; exact Hin]. }
    split; [eapply extends_trans; eassumption |].
    cbn [fmap list_fmap sum_list_with snd]. simpl in *. lia.
Qed.

Lemma copy_counts_paths (h : heap) :
  closed h ->
  forall n h1 a c h2,
    extends h h1 ->
    a < List.length h ->
    copy n true h1 a = Ok (c, h2) ->
    deep_enough n h a
    /\ extends h1 h2
    /\ List.length h2 = List.length h1 + paths_from n h a.
Proof.
  intros Hclosed. induction n as [|n IH]; intros h1 a c h2 Hext Ha E.
  { unfold copy, copy_with, alloc in E. simpl in E. discriminate. }
  unfold copy, copy_with, alloc in E. cbn [_dup] in E.
  destruct Hext as (L & A).
  destruct (lookup_lt_is_Some_2 h a Ha) as [s Hs].
  rewrite (deref_Some (h1 ++ [new_Spec ""]) a s) in E
    by (rewrite lookup_app_l by lia; rewrite A by lia; exact Hs).
  rewrite bind_ok in E.
  destruct (copy_values _ _ _) as [[m h3]|] eqn:Ev; [|discriminate].
  rewrite ?bind_ok in E. cbv beta iota in E. rewrite ?bind_ok in E.
  injection E as <- <-.
  assert (X0 : extends h (h1 ++ [new_Spec ""])).
  { split; [rewrite length_app; simpl; lia |].
    intros l Hl. rewrite lookup_app_l by lia. apply A. exact Hl. }
  destruct (copy_values_count h (copy_with (_dup n true)) (paths_from n h)
              (deep_enough n h) (map_to_list (dependencies s)))
    with (h1 := h1 ++ [new_Spec ""]) (m := m) (h2 := h3)
    as (Pall & (L3 & A3) & Len); [|exact X0 | exact Ev |].
  { intros h4 k v v' h5 Hin X4 E4.
    apply elem_of_map_to_list in Hin.
    assert (Hv : v < List.length h).
    { destruct (Hclosed a v) as [sv Hsv]; [exists s, k; auto |].
      eapply lookup_lt_Some; exact Hsv. }
    exact (IH h4 v v' h5 X4 Hv E4). }
  rewrite length_app in L3, Len. simpl in L3, Len.
  split.
  { exists s. split; [exact Hs |]. intros k v Hk.
    apply (Pall k v). apply elem_of_map_to_list. exact Hk. }
  split.
  { split; [rewrite length_insert; lia |].
    intros l Hl. rewrite list_lookup_insert_ne by lia.
    rewrite A3 by (rewrite length_app; simpl; lia).
    apply lookup_app_l. exact Hl. }
  rewrite length_insert. cbn [paths_from]. rewrite Hs. lia.
Qed.

Lemma visit_children_count {K : Type} `{Countable K}
    (rec : gset K -> loc -> result (list (nat * loc) * gset K))
    (f : loc -> nat) (cs : list loc) :
  (forall V c, c ∈ cs ->
     exists ys V', rec V c = Ok (ys, V') /\ List.length ys = f c) ->
  forall V, exists ys V',
    visit_children rec cs V = Ok (ys, V')
    /\ List.length ys = sum_list_with f cs.
Proof.
  induction cs as [|c cs IH]; intros Hrec V.
  - exists [], V. split; reflexivity.
  - destruct (Hrec V c ltac:(left)) as (ys1 & V1 & E1 & L1).
    destruct (IH (fun V0 c0 Hc0 => Hrec V0 c0 ltac:(right; exact Hc0)) V1)
      as (ys2 & V2 & E2 & L2).
    exists (ys1 ++ ys2), V2. cbn [visit_children].
    rewrite E1, bind_ok. cbv beta iota. rewrite E2, bind_ok.
    split; [reflexivity |]. rewrite length_app. simpl. lia.
Qed.

Lemma traversal_counts_paths {K : Type} `{Countable K}
    (key_fun : loc -> Spec -> K) (h : heap) :
  forall n a, deep_enough n h a ->
    forall V d, exists ys V',
      preorder_traversal key_fun true "paths" n h V d a = Ok (ys, V')
      /\ List.length ys = paths_from n h a.
Proof.
  induction n as [|n IH]; intros a Hdeep V d; [destruct Hdeep |].
  destruct Hdeep as (s & Hs & Hch).
  cbn [preorder_traversal paths_from]. rewrite Hs.
  rewrite bool_decide_true by set_solver. cbn [negb].
  rewrite (deref_Some _ _ _ Hs), bind_ok. cbv zeta.
  rewrite (bool_decide_false ("paths" = "nodes")) by discriminate.
  rewrite (bool_decide_false ("paths" = "edges")) by discriminate.
  rewrite !andb_false_r.
  destruct (visit_children_count
              (fun v child =>
                 preorder_traversal key_fun true "paths" n h v (S d) child)
              (paths_from n h) (sorted_children s)) with
    (V := {[key_fun a s]} ∪ V) as (ys & V' & Ev & Len).
  { intros V0 c Hc. apply elem_of_sorted_children in Hc as [k Hk].
    apply (IH c (Hch k c Hk)). }
  rewrite Ev, bind_ok. eexists _, _. split; [reflexivity |].
  cbn [orb]. rewrite length_app. simpl. rewrite Len.
  rewrite sorted_children_values. reflexivity.
Qed.

(** X17: a copy that returns has added one object for every path of
    dependencies from the spec, as many as the traversal with
    [cover='paths'] yields: a dependency that is reached along two
    paths is copied twice, and the clone of a DAG is a tree. *)
Theorem copy_adds_one_object_per_path (h h' : heap) (n : nat) (a c : loc) :
  closed h ->
  a < List.length h ->
  copy n true h a = Ok (c, h') ->
  exists ys V,
    preorder_traversal by_id true "paths" n h ∅ 0 a = Ok (ys, V)
    /\ List.length h' = List.length h + List.length ys.
Proof.
  intros Hclosed Ha E.
  destruct (copy_counts_paths h Hclosed n h a c h' (extends_refl h) Ha E)
    as (Hdeep & _ & Len).
  destruct (traversal_counts_paths by_id h n a Hdeep ∅ 0)
    as (ys & V & Et & Lt).
  exists ys, V. split; [exact Et | lia].
Qed.

Lemma copy_adds_one_object_per_path_witness :
  exists h' ys V,
    copy 3 true diamond 0 = Ok (4, h')
    /\ preorder_traversal by_id true "paths" 3 diamond ∅ 0 0 = Ok (ys, V)
    /\ List.length h' = 4 + List.length ys
    /\ List.length h' = 9.
Proof.
  eexists.
  assert (E : copy 3 true diamond 0 = Ok (4, _)) by (vm_compute; reflexivity).
  match type of E with
  | _ = Ok (_, ?h0) =>
      destruct (copy_adds_one_object_per_path diamond h0 3 0 4)
        as (ys & V & Et & L);
        [apply (dag_check_sound diamond diamond_rank); vm_compute; reflexivity
        | simpl; lia | exact E |]
  end.
  exists ys, V. split; [exact E |]. split; [exact Et |].
  split; [exact L | vm_compute; reflexivity].
Defined.
(** ** [Spec.concrete] *)

Lemma all_concrete_true (concrete_of : loc -> result bool) (ds : list loc) :
  all_concrete concrete_of ds = Ok true ->
  forall d, d ∈ ds -> concrete_of d = Ok true.
Proof.
  induction ds as [|x ds IH]; intros E d Hd; [inversion Hd |].
  cbn [all_concrete] in E.
  destruct (concrete_of x) as [[]|] eqn:Ex; rewrite ?bind_ok in E;
    try discriminate.
  apply elem_of_cons in Hd as [->|Hd]; [exact Ex | auto].
Qed.

(** X18: a spec that is concrete is concrete all the way down: every
    node that is reached from it along dependencies is an object of
    the store that is not virtual and has a concrete version, an
    architecture, and a compiler with a concrete version. *)
Theorem concrete_all_the_way_down `{Packages} (n : nat) (h : heap) (a : loc) :
  concrete n h a = Ok true ->
  forall b, rtc (edge h) a b ->
    exists sb, h !! b = Some sb /\ concrete_node sb.
Proof.
  revert a. induction n as [|n IH]; intros a E b Hab; [discriminate |].
  cbn [concrete] in E. unfold deref in E.
  destruct (h !! a) as [s|] eqn:Hs; [|discriminate].
  rewrite bind_ok in E.
  destruct (negb (virtual s)) eqn:Hv; [|discriminate].
  destruct (VersionList.concrete (versions s)) eqn:Hver; [|discriminate].
  destruct (arch_truthy (architecture s)) eqn:Ha; [|discriminate].
  destruct (compiler s) as [c|] eqn:Hc; [|discriminate].
  destruct (Compiler.concrete c) eqn:Hcc; [|discriminate].
  cbn [andb] in E.
  destruct Hab as [|x y z Hxy Hyz].
  - exists s. split; [exact Hs |]. unfold concrete_node.
    apply negb_true_iff in Hv. rewrite Hc. eauto 10.
  - destruct Hxy as (s' & k & Hs' & Hk).
    assert (s' = s) as -> by congruence.
    apply (IH y); [|exact Hyz].
    eapply all_concrete_true; [exact E |].
    apply list_elem_of_fmap. exists (k, y). split; [reflexivity |].
    apply elem_of_map_to_list. exact Hk.
Qed.

(** ["callpath@1.0%gcc@4.5=linux ^libdwarf@0.8%gcc@4.5=linux"], the
    root is the object 0. *)
Lemma concrete_all_the_way_down_witness :
  exists h,
    parse [] "callpath@1.0%gcc@4.5=linux ^libdwarf@0.8%gcc@4.5=linux"
    = Ok ([0], h)
    /\ @concrete mock_packages 2 h 0 = Ok true
    /\ edge h 0 1
    /\ exists sb, h !! 1 = Some sb /\ @concrete_node mock_packages sb.
Proof.
  eexists. split; [vm_compute; reflexivity |].
  split; [vm_compute; reflexivity |].
  assert (Hedge : edge
            (match parse [] "callpath@1.0%gcc@4.5=linux ^libdwarf@0.8%gcc@4.5=linux"
             with Ok (_, h) => h | Raise _ => [] end) 0 1).
  { eexists _, "libdwarf". split; vm_compute; reflexivity. }
  split; [exact Hedge |].
  eapply (@concrete_all_the_way_down mock_packages 2 _ 0);
    [vm_compute; reflexivity | apply rtc_once; exact Hedge].
Defined.

(** ** [Spec.constrain] with [deps=False] *)

Lemma variant_conflict_None (mine : VariantMap.t)
    (theirs : list (string * Variant.t)) :
  variant_conflict mine theirs = None ->
  forall v x y, (v, y) ∈ theirs -> mine !! v = Some x ->
                Variant.enabled x = Variant.enabled y.
Proof.
  induction theirs as [|[k t] theirs IH]; intros E v x y Hin Hm;
    [inversion Hin |].
  cbn [variant_conflict] in E.
  apply elem_of_cons in Hin as [Heq|Hin].
  - injection Heq as <- <-. rewrite Hm in E.
    destruct (Bool.eqb (Variant.enabled x) (Variant.enabled y)) eqn:Hb;
      [|discriminate].
    apply Bool.eqb_prop. exact Hb.
  - destruct (mine !! k) as [m|].
    + destruct (negb _); [discriminate |]. eapply IH; eassumption.
    + eapply IH; eassumption.
Qed.

(** X19: when [self.constrain(other, deps=False)] returns, [self]
    keeps its name, which is the name of [other], its dependencies and
    its dependents; it has every variant of [other]; every variant it
    had is still there with the setting it had; and its variants satisfy
    those of [other].  Every other object keeps its name, its
    architecture, its dependencies and its dependents.  Nothing is said
    of the versions, the variants and the compiler of another object:
    it may share them with [self], which changes them in place. *)
Theorem constrain_merges_variants `{Packages} (n : nat) (h h' : heap)
    (self other : loc) :
  constrain n h self other false = Ok h' ->
  exists s o s',
    h !! self = Some s /\ h !! other = Some o /\ h' !! self = Some s'
    /\ (forall l y, l <> self -> h !! l = Some y ->
          exists y', h' !! l = Some y'
                     /\ name y' = name y
                     /\ architecture y' = architecture y
                     /\ dependencies y' = dependencies y
                     /\ dependents y' = dependents y)
    /\ name s' = name s /\ name o = name s
    /\ dependencies s' = dependencies s /\ dependents s' = dependents s
    /\ (forall v y, variants o !! v = Some y -> variants s' !! v = Some y)
    /\ (forall v x, variants s !! v = Some x ->
          exists y, variants s' !! v = Some y
                    /\ Variant.enabled y = Variant.enabled x)
    /\ VariantMap.satisfies (variants s') (variants o) = true.
Proof.
  unfold constrain. intros E.
  destruct (constrain_node h self other) as [h1|] eqn:Ec; [|discriminate].
  rewrite bind_ok in E. injection E as <-.
  destruct (constrain_node_Ok _ _ _ _ Ec)
    as (s & o & s' & Hs & Ho & -> & Hn & Hno & _ & _ & Hvar & Hconf & _
        & Hdnts & Hdeps).
  pose proof (lookup_lt_Some _ _ _ Hs) as Hlt.
  exists s, o, s'. split; [exact Hs |]. split; [exact Ho |].
  split; [apply list_lookup_insert_eq; exact Hlt |].
  split.
  { intros l y Hl Hy. exists y.
    rewrite list_lookup_insert_ne by congruence. auto. }
  split; [exact Hn |]. split; [exact Hno |].
  split; [exact Hdeps |]. split; [exact Hdnts |].
  assert (Hfrom_o : forall v y, variants o !! v = Some y ->
            variants s' !! v = Some y).
  { intros v y Hv. rewrite Hvar. apply lookup_union_Some_l. exact Hv. }
  split; [exact Hfrom_o |].
  split.
  - intros v x Hv. destruct (variants o !! v) as [y|] eqn:Hov.
    + exists y. split; [apply Hfrom_o; exact Hov |]. symmetry.
      eapply variant_conflict_None; [exact Hconf | | exact Hv].
      apply elem_of_map_to_list. exact Hov.
    + exists x. split; [|reflexivity]. rewrite Hvar.
      rewrite lookup_union_r by exact Hov. exact Hv.
  - apply variants_satisfies_spec. intros k x y Hx Hy.
    rewrite (Hfrom_o k y Hy) in Hx. congruence.
Qed.

Lemma constrain_merges_variants_witness :
  exists a b h h',
    two_specs "mpileaks+debug" "mpileaks~shared" = Ok (a, b, h)
    /\ @constrain mock_packages 1 h a b false = Ok h'
    /\ exists s o s',
         h !! a = Some s /\ h !! b = Some o /\ h' !! a = Some s'
         /\ (forall l y, l <> a -> h !! l = Some y ->
               exists y', h' !! l = Some y'
                          /\ name y' = name y
                          /\ architecture y' = architecture y
                          /\ dependencies y' = dependencies y
                          /\ dependents y' = dependents y)
         /\ name s' = name s /\ name o = name s
         /\ dependencies s' = dependencies s /\ dependents s' = dependents s
         /\ (forall v y, variants o !! v = Some y -> variants s' !! v = Some y)
         /\ (forall v x, variants s !! v = Some x ->
               exists y, variants s' !! v = Some y
                         /\ Variant.enabled y = Variant.enabled x)
         /\ VariantMap.satisfies (variants s') (variants o) = true.
Proof.
  eexists _, _, _, _. split; [vm_compute; reflexivity |].
  split; [vm_compute; reflexivity |].
  eapply (@constrain_merges_variants mock_packages 1).
  vm_compute. reflexivity.
Defined.
(** ** [Spec.__getitem__] *)

Lemma visit_children_objects {K : Type} `{Countable K} (h : heap)
    (rec : gset K -> loc -> result (list (nat * loc) * gset K))
    (cs : list loc) :
  (forall V c ys V', rec V c = Ok (ys, V') ->
     forall dl, dl ∈ ys -> is_Some (h !! dl.2)) ->
  forall V ys V',
    visit_children rec cs V = Ok (ys, V') ->
    forall dl, dl ∈ ys -> is_Some (h !! dl.2).
Proof.
  intros Hrec. induction cs as [|c cs IH]; intros V ys V' E dl Hdl.
  - injection E as <- <-. inversion Hdl.
  - cbn [visit_children] in E.
    destruct (rec V c) as [[ys1 V1]|] eqn:E1; [|discriminate].
    rewrite bind_ok in E. cbv beta iota in E.
    destruct (visit_children rec cs V1) as [[ys2 V2]|] eqn:E2; [|discriminate].
    rewrite bind_ok in E. injection E as <- <-.
    apply elem_of_app in Hdl as [Hdl|Hdl]; eauto.
Qed.

(** The traversal yields objects of the store. *)
Lemma traversal_yields_objects {K : Type} `{Countable K}
    (key_fun : loc -> Spec -> K) (yield_root : bool) (cover : string)
    (h : heap) (n : nat) :
  forall V d a ys V',
    preorder_traversal key_fun yield_root cover n h V d a = Ok (ys, V') ->
    forall dl, dl ∈ ys -> is_Some (h !! dl.2).
Proof.
  induction n as [|n IH]; intros V d a ys V' E dl Hdl; [discriminate |].
  cbn [preorder_traversal] in E.
  destruct (negb _); [discriminate |].
  unfold deref in E. destruct (h !! a) as [s|] eqn:Hs; [|discriminate].
  rewrite bind_ok in E. cbv zeta in E.
  assert (Hhere : dl ∈ (if yield_root || (0 <? d)%nat then [(d, a)] else []) ->
            is_Some (h !! dl.2)).
  { destruct (yield_root || (0 <? d)%nat); intros Hh; [|inversion Hh].
    apply list_elem_of_singleton in Hh. subst dl. simpl. eauto. }
  destruct (_ && bool_decide (cover = "nodes")).
  { injection E as <- <-. inversion Hdl. }
  destruct (_ && bool_decide (cover = "edges")).
  { injection E as <- <-. auto. }
  destruct (visit_children _ _ _) as [[zs V1]|] eqn:Ev; [|discriminate].
  rewrite bind_ok in E. injection E as <- <-.
  apply elem_of_app in Hdl as [Hdl|Hdl]; [auto |].
  eapply (visit_children_objects h); [|exact Ev | exact Hdl].
  intros V0 c ys0 V0' Ec. eapply IH. exact Ec.
Qed.

Lemma find_named_absent (h : heap) (n : string) (nodes : list loc) :
  (forall l, l ∈ nodes -> exists d, h !! l = Some d /\ name d <> n) ->
  find_named h n nodes = Raise (Exception KeyError ("No spec with name " +:+ n)).
Proof.
  induction nodes as [|x nodes IH]; intros Hall; [reflexivity |].
  cbn [find_named]. destruct (Hall x ltac:(left)) as (d & Hd & Hn).
  rewrite (deref_Some _ _ _ Hd), bind_ok.
  rewrite bool_decide_false by exact Hn.
  apply IH. intros l Hl. apply Hall. right. exact Hl.
Qed.

(** X20: when the traversal of a spec returns, [spec[spec.name]] is the
    spec itself, whatever its dependencies are named: the root is
    looked at first; and [spec[name]] raises [KeyError] when neither
    the spec nor a node below it bears the name. *)
Theorem getitem_finds_root_first (n : nat) (h : heap) (a : loc) (s : Spec)
    (nodes : list loc) :
  traverse n h a = Ok nodes ->
  h !! a = Some s ->
  getitem n h a (name s) = Ok a
  /\ forall nm,
       (forall l d, l ∈ nodes -> h !! l = Some d -> name d <> nm) ->
       exists msg, getitem n h a nm = Raise (Exception KeyError msg).
Proof.
  intros Et Hs. unfold getitem. rewrite Et, bind_ok. split.
  - rewrite (traverse_root_first n h a) in Et by eauto.
    destruct (traverse_deps n h a) as [deps|]; [|discriminate].
    rewrite bind_ok in Et. injection Et as <-.
    cbn [find_named]. rewrite (deref_Some _ _ _ Hs), bind_ok.
    rewrite bool_decide_true by reflexivity. reflexivity.
  - intros nm Hnone. eexists. apply find_named_absent.
    intros l Hl. unfold traverse in Et.
    destruct (preorder_traversal _ _ _ _ _ _ _ _) as [[ys V]|] eqn:Ep;
      [|discriminate].
    rewrite bind_ok in Et. injection Et as <-.
    apply list_elem_of_fmap in Hl as (dl & -> & Hdl).
    destruct (traversal_yields_objects _ _ _ _ _ _ _ _ _ _ Ep dl Hdl)
      as [d Hd].
    exists d. split; [exact Hd | eapply Hnone; [|exact Hd]].
    apply list_elem_of_fmap. eauto.
Qed.

Lemma getitem_finds_root_first_witness :
  getitem 2 self_named_heap 0 "a" = Ok 0
  /\ exists msg,
       getitem 2 self_named_heap 0 "b" = Raise (Exception KeyError msg).
Proof.
  destruct (getitem_finds_root_first 2 self_named_heap 0
              (set_dependencies (set_versions (new_Spec "a") VersionList.any)
                 {[ "a" := 1 ]})
              [0; 1]) as (Hown & Hnone);
    [vm_compute; reflexivity | vm_compute; reflexivity |].
  split; [exact Hown |].
  apply (Hnone "b"). intros l d Hl Hd.
  apply elem_of_cons in Hl as [->|Hl];
    [|apply list_elem_of_singleton in Hl; subst l];
    vm_compute in Hd; injection Hd as <-; discriminate.
Defined.
(** ** [parse_anonymous_spec] and the identifiers of the lexer *)

Lemma word_not_punctuation (c : ascii) :
  is_word c = true -> punctuation c = None.
Proof.
  destruct c as [b0 b1 b2 b3 b4 b5 b6 b7].
  destruct b0, b1, b2, b3, b4, b5, b6, b7;
    vm_compute; intros E; try reflexivity; discriminate.
Qed.

(** An identifier goes on as long as the characters are of [[\w.-]]. *)
Lemma lex_identifier (rest : string) :
  string_forall is_id_char rest = true ->
  forall w, lex (Some w) rest = Ok [Token ID (w +:+ rest)].
Proof.
  induction rest as [|c rest IH]; intros Hr w.
  - rewrite string_app_empty_r. reflexivity.
  - cbn [string_forall] in Hr. apply andb_true_iff in Hr as [Hc Hr].
    cbn [lex]. rewrite Hc. rewrite (IH Hr). rewrite string_app_snoc.
    reflexivity.
Qed.

Lemma lex_one_identifier (c : ascii) (rest : string) :
  is_word c = true ->
  string_forall is_id_char rest = true ->
  lex None (String c rest) = Ok [Token ID (String c rest)].
Proof.
  intros Hc Hr. cbn [lex]. rewrite (word_not_punctuation c Hc), Hc.
  apply lex_identifier. exact Hr.
Qed.

Lemma lex_raises (s : string) :
  forall cur e, lex cur s = Raise e -> class_of e = SpecParseError.
Proof.
  induction s as [|c s IH]; intros cur e; cbn [lex]; [destruct cur; discriminate |].
  destruct cur as [w|].
  - destruct (is_id_char c); [apply IH |].
    destruct (punctuation c).
    + destruct (lex None s) eqn:El; rewrite ?bind_ok, ?bind_raise;
        [discriminate |].
      intros E; injection E as <-. eapply IH; exact El.
    + destruct (is_space c).
      * destruct (lex None s) eqn:El; rewrite ?bind_ok, ?bind_raise;
          [discriminate |].
        intros E; injection E as <-. eapply IH; exact El.
      * intros E; injection E as <-. reflexivity.
  - destruct (punctuation c).
    + destruct (lex None s) eqn:El; rewrite ?bind_ok, ?bind_raise;
        [discriminate |].
      intros E; injection E as <-. eapply IH; exact El.
    + destruct (is_word c); [apply IH |].
      destruct (is_space c); [apply IH |].
      intros E; injection E as <-. reflexivity.
Qed.

(** A string that is one identifier parses to one spec of that name. *)
Lemma parse_one_identifier (h : heap) (c : ascii) (rest : string) :
  is_word c = true ->
  string_forall is_id_char rest = true ->
  string_contains "." (String c rest) = false ->
  parse h (String c rest)
  = Ok ([List.length h],
        h ++ [set_versions (new_Spec (String c rest)) VersionList.any]).
Proof.
  intros Hc Hr Hdot. unfold parse.
  rewrite (lex_one_identifier c rest Hc Hr), bind_ok.
  unfold do_parse. cbn [List.length do_parse_loop accept ttype value].
  rewrite bool_decide_true by reflexivity.
  unfold parse_spec, check_identifier. rewrite Hdot.
  rewrite bind_ok. cbn [List.length spec_loop]. rewrite bind_ok.
  cbv beta iota. rewrite bind_ok. unfold alloc. cbv beta iota zeta.
  reflexivity.
Qed.

Lemma Spec_init_one_identifier (n : nat) (h : heap) (c : ascii)
    (rest : string) :
  is_word c = true ->
  string_forall is_id_char rest = true ->
  string_contains "." (String c rest) = false ->
  exists h', Spec_init n h (PyStr (String c rest)) []
             = Ok (S (List.length h), h')
             /\ h' !! S (List.length h)
                = Some (set_versions (new_Spec (String c rest))
                          VersionList.any).
Proof.
  intros Hc Hr Hdot. unfold Spec_init, Spec_init_head.
  rewrite (parse_one_identifier h c rest Hc Hr Hdot), bind_ok.
  cbv beta iota. cbn [List.length]. change ((1 <? 1)%nat) with false.
  cbv beta iota.
  rewrite (deref_Some _ (List.length h)
             (set_versions (new_Spec (String c rest)) VersionList.any))
    by (apply list_lookup_middle; reflexivity).
  rewrite bind_ok. unfold alloc. cbv beta iota zeta. rewrite bind_ok.
  cbv beta iota. cbn [foldl]. rewrite bind_ok.
  eexists. split.
  - rewrite length_app. cbn [List.length]. rewrite Nat.add_1_r. reflexivity.
  - apply list_lookup_middle. rewrite length_app. cbn [List.length]. lia.
Qed.

(** A spec string that starts with [-] is no spec by itself. *)
Lemma Spec_init_dash (n : nat) (h : heap) (v : string) :
  exists e, Spec_init n h (PyStr (String "-" v)) [] = Raise e
            /\ class_of e = SpecParseError.
Proof.
  unfold Spec_init, Spec_init_head, parse. cbn [lex].
  change (punctuation "-") with (Some OFF). cbv beta iota.
  destruct (lex None v) as [toks|e] eqn:El.
  - rewrite !bind_ok. unfold do_parse.
    cbn [List.length do_parse_loop accept ttype].
    rewrite (bool_decide_false (OFF = ID)) by discriminate.
    rewrite (bool_decide_false (OFF = DEP)) by discriminate.
    unfold parse_error. cbn [class_of].
    change (issubclass ParseError ParseError) with true. cbv beta iota.
    rewrite !bind_raise. eexists. split; reflexivity.
  - rewrite !bind_raise. eexists. split; [reflexivity |].
    eapply lex_raises; exact El.
Qed.

Lemma string_forall_app (p : ascii -> bool) (a b : string) :
  string_forall p (a +:+ b) = string_forall p a && string_forall p b.
Proof.
  induction a as [|c a IH]; [reflexivity |].
  change (String c a +:+ b) with (String c (a +:+ b)).
  cbn [string_forall]. rewrite IH. apply andb_assoc.
Qed.

Lemma string_contains_app (c : ascii) (a b : string) :
  string_contains c (a +:+ b) = string_contains c a || string_contains c b.
Proof.
  induction a as [|x a IH]; [reflexivity |].
  change (String x a +:+ b) with (String x (a +:+ b)).
  cbn [string_contains]. rewrite IH. apply orb_assoc.
Qed.

Lemma string_app_longer (a : string) (c : ascii) (b : string) :
  a +:+ String c b <> a.
Proof.
  intros E. apply (f_equal String.length) in E.
  rewrite string_length_app in E. cbn [String.length] in E. lia.
Qed.

(** X21: the [-] that the lexer reads as the sign of a disabled variant
    cannot start an anonymous spec: [pkg_name + '-' + v] is one
    identifier to the lexer, so for a package name and a variant name
    made of identifier characters without a dot,
    [parse_anonymous_spec('-' + v, pkg_name)] raises [ValueError]. *)
Theorem anonymous_spec_cannot_start_with_dash (n : nat) (h : heap)
    (c : ascii) (p v : string) :
  is_word c = true ->
  string_forall is_id_char p = true ->
  string_forall is_id_char v = true ->
  string_contains "." (String c p) = false ->
  string_contains "." v = false ->
  exists msg,
    parse_anonymous_spec n h (PyStr (String "-" v)) (String c p)
    = Raise (Exception ValueError msg).
Proof.
  intros Hc Hp Hv Hdp Hdv. unfold parse_anonymous_spec.
  destruct (Spec_init_dash n h v) as (e & -> & He).
  rewrite He. change (issubclass SpecParseError SpecParseError) with true.
  cbv beta iota.
  change (String c p +:+ String "-" v) with (String c (p +:+ String "-" v)).
  destruct (Spec_init_one_identifier n h c (p +:+ String "-" v))
    as (h' & -> & Hat).
  - exact Hc.
  - rewrite string_forall_app, Hp. cbn [string_forall andb].
    rewrite Hv. reflexivity.
  - cbn [string_contains] in Hdp |- *.
    apply orb_false_iff in Hdp as [Hd1 Hd2]. rewrite Hd1.
    rewrite string_contains_app, Hd2. cbn [string_contains orb].
    rewrite Hdv. reflexivity.
  - rewrite bind_ok. cbv beta iota. rewrite (deref_Some _ _ _ Hat), bind_ok.
    cbn [name set_versions new_Spec].
    rewrite bool_decide_false.
    + cbn [negb]. rewrite bind_raise. eexists. reflexivity.
    + intros E. injection E as E. eapply string_app_longer. exact E.
Qed.

Lemma anonymous_spec_cannot_start_with_dash_witness :
  exists msg,
    parse_anonymous_spec 0 [] (PyStr "-debug") "mpileaks"
    = Raise (Exception ValueError msg).
Proof.
  apply (anonymous_spec_cannot_start_with_dash 0 [] "m" "pileaks" "debug");
    reflexivity.
Defined.
Lemma lex_identifier_then (rest : string) (c : ascii) (ty : toktype)
    (tail : string) :
  string_forall is_id_char rest = true ->
  is_id_char c = false ->
  punctuation c = Some ty ->
  forall w,
    lex (Some w) (rest +:+ String c tail)
    = (toks ← lex None tail;
       Ok (Token ID (w +:+ rest) :: Token ty (String c "") :: toks)).
Proof.
  intros Hr Hc Hp. induction rest as [|x rest IH]; intros w.
  - change ("" +:+ String c tail) with (String c tail).
    cbn [lex]. rewrite Hc, Hp, string_app_empty_r. reflexivity.
  - cbn [string_forall] in Hr. apply andb_true_iff in Hr as [Hx Hr].
    change (String x rest +:+ String c tail)
      with (String x (rest +:+ String c tail)).
    cbn [lex]. rewrite Hx. rewrite (IH Hr). rewrite string_app_snoc.
    reflexivity.
Qed.

(** A spec string that starts with [~] is no spec by itself. *)
Lemma Spec_init_tilde (n : nat) (h : heap) (v : string) :
  exists e, Spec_init n h (PyStr (String "~" v)) [] = Raise e
            /\ class_of e = SpecParseError.
Proof.
  unfold Spec_init, Spec_init_head, parse. cbn [lex].
  change (punctuation "~") with (Some OFF). cbv beta iota.
  destruct (lex None v) as [toks|e] eqn:El.
  - rewrite !bind_ok. unfold do_parse.
    cbn [List.length do_parse_loop accept ttype].
    rewrite (bool_decide_false (OFF = ID)) by discriminate.
    rewrite (bool_decide_false (OFF = DEP)) by discriminate.
    unfold parse_error. cbn [class_of].
    change (issubclass ParseError ParseError) with true. cbv beta iota.
    rewrite !bind_raise. eexists. split; reflexivity.
  - rewrite !bind_raise. eexists. split; [reflexivity |].
    eapply lex_raises; exact El.
Qed.

Lemma parse_spec_tilde (c cv : ascii) (p v : string) :
  string_contains "." (String c p) = false ->
  string_contains "." (String cv v) = false ->
  parse_spec (String c p) [Token OFF "~"; Token ID (String cv v)]
  = Ok (set_versions
          (set_variants (new_Spec (String c p))
             {[ String cv v := {| Variant.name := String cv v;
                                  Variant.enabled := false |} ]})
          VersionList.any, []).
Proof.
  intros Hdp Hdv. unfold parse_spec, check_identifier. rewrite Hdp, bind_ok.
  cbn [List.length spec_loop]. unfold spec_clause.
  cbn [accept ttype value].
  rewrite (bool_decide_false (OFF = AT)) by discriminate.
  rewrite (bool_decide_false (OFF = ON)) by discriminate.
  rewrite (bool_decide_true (OFF = OFF)) by reflexivity.
  unfold parse_variant, expect. cbn [accept ttype value].
  rewrite (bool_decide_true (ID = ID)) by reflexivity.
  rewrite !bind_ok. cbv beta iota.
  unfold check_identifier. rewrite Hdv. rewrite !bind_ok.
  unfold _add_variant. cbn [variants new_Spec].
  rewrite lookup_empty.
  rewrite (bool_decide_false (is_Some None))
    by (intros [? ?]; discriminate).
  rewrite !bind_ok. cbv beta iota. rewrite ?bind_ok. cbv beta iota.
  rewrite insert_empty. reflexivity.
Qed.

(** X22: with [~] the same anonymous spec is read as meant: for a
    package name and a variant name that are identifiers without a
    dot, [parse_anonymous_spec('~' + v, pkg_name)] returns a new spec
    of the name [pkg_name] whose only variant is [v], disabled. *)
Theorem anonymous_spec_with_tilde (n : nat) (h : heap)
    (c cv : ascii) (p v : string) :
  is_word c = true ->
  string_forall is_id_char p = true ->
  is_word cv = true ->
  string_forall is_id_char v = true ->
  string_contains "." (String c p) = false ->
  string_contains "." (String cv v) = false ->
  exists l h' s,
    parse_anonymous_spec n h (PyStr (String "~" (String cv v))) (String c p)
    = Ok (l, h')
    /\ List.length h <= l
    /\ h' !! l = Some s
    /\ name s = String c p
    /\ variants s
       = {[ String cv v := {| Variant.name := String cv v;
                              Variant.enabled := false |} ]}.
Proof.
  intros Hc Hp Hcv Hv Hdp Hdv. unfold parse_anonymous_spec.
  destruct (Spec_init_tilde n h (String cv v)) as (e & -> & He).
  rewrite He. change (issubclass SpecParseError SpecParseError) with true.
  cbv beta iota.
  assert (Hlex : lex None (String c p +:+ String "~" (String cv v))
                 = Ok [Token ID (String c p); Token OFF "~";
                       Token ID (String cv v)]).
  { change (String c p +:+ String "~" (String cv v))
      with (String c (p +:+ String "~" (String cv v))).
    cbn [lex]. rewrite (word_not_punctuation c Hc), Hc.
    rewrite (lex_identifier_then p "~" OFF (String cv v) Hp)
      by reflexivity.
    rewrite (lex_one_identifier cv v Hcv Hv), bind_ok. reflexivity. }
  set (sp := set_versions
               (set_variants (new_Spec (String c p))
                  {[ String cv v := {| Variant.name := String cv v;
                                       Variant.enabled := false |} ]})
               VersionList.any).
  assert (Hparse : parse h (String c p +:+ String "~" (String cv v))
                   = Ok ([List.length h], h ++ [sp])).
  { unfold parse. rewrite Hlex, bind_ok. unfold do_parse.
    change (do_parse_loop (S (List.length [Token ID (String c p); Token OFF "~";
                                            Token ID (String cv v)])) h []
              [Token ID (String c p); Token OFF "~"; Token ID (String cv v)])
      with ('(spec, toks2) ← parse_spec (String c p)
                               [Token OFF "~"; Token ID (String cv v)];
            let '(l, h1) := alloc h spec in
            do_parse_loop 3 h1 ([] ++ [l]) toks2).
    rewrite (parse_spec_tilde c cv p v Hdp Hdv), bind_ok. reflexivity. }
  unfold Spec_init, Spec_init_head. rewrite Hparse, !bind_ok.
  cbv beta iota. cbn [List.length]. change ((1 <? 1)%nat) with false.
  cbv beta iota.
  rewrite (deref_Some (h ++ [sp]) (List.length h) sp)
    by (apply list_lookup_middle; reflexivity).
  rewrite !bind_ok. unfold alloc. cbv beta iota zeta. rewrite ?bind_ok.
  cbv beta iota. cbn [foldl]. rewrite ?bind_ok. cbv beta iota.
  assert (Hat : ((h ++ [sp]) ++ [sp]) !! List.length (h ++ [sp]) = Some sp)
    by (apply list_lookup_middle; reflexivity).
  rewrite (deref_Some _ _ _ Hat), ?bind_ok.
  assert (Hname : name sp = String c p) by reflexivity.
  rewrite Hname, (bool_decide_true (String c p = String c p)) by reflexivity.
  cbn [negb]. rewrite ?bind_ok. cbv beta iota.
  rewrite (deref_Some _ _ _ Hat), ?bind_ok.
  rewrite Hname, (bool_decide_true (String c p = String c p)) by reflexivity.
  cbn [negb].
  eexists _, _, sp. split; [reflexivity |].
  split; [rewrite length_app; lia |]. split; [exact Hat |].
  split; [exact Hname |]. reflexivity.
Qed.

Lemma anonymous_spec_with_tilde_witness :
  exists l h' s,
    parse_anonymous_spec 0 [] (PyStr "~debug") "mpileaks" = Ok (l, h')
    /\ 0 <= l
    /\ h' !! l = Some s
    /\ name s = "mpileaks"
    /\ variants s
       = {[ "debug" := {| Variant.name := "debug";
                          Variant.enabled := false |} ]}.
Proof.
  apply (anonymous_spec_with_tilde 0 [] "m" "d" "pileaks" "ebug");
    reflexivity.
Defined.
(** ** [Spec.__init__] on a [Spec] *)

(** X23: [Spec(a, *dep_like)] for a [Spec] object [a] returns after the
    copy: what is given as [dep_like] is not looked at.  On an acyclic
    store and with enough recursion depth the result is the copy of
    [a], a new object that has the name of [a] and dependencies under
    the names [a] has them under, and no others. *)
Theorem Spec_of_spec_ignores_dep_like (h : heap) (rank : loc -> nat)
    (n : nat) (a : loc) (x : Spec) (dep_like : list pyobject) :
  closed h ->
  acyclic h rank ->
  h !! a = Some x ->
  rank a < n ->
  exists h' y,
    Spec_init n h (PySpec a) dep_like = Ok (List.length h, h')
    /\ copy n true h a = Ok (List.length h, h')
    /\ h' !! List.length h = Some y
    /\ name y = name x
    /\ forall k, is_Some (dependencies y !! k)
                 <-> is_Some (dependencies x !! k).
Proof.
  intros Hclosed Hacyclic Hx Hr.
  destruct (copy_spec h rank Hclosed Hacyclic n h a x Hr Hx
              (fresh_region_refl h))
    as (h2 & y & Ec & _ & _ & Hy & Hn & Hd).
  exists h2, y. unfold Spec_init, Spec_init_head.
  rewrite Ec, ?bind_ok. cbv beta iota. rewrite ?bind_ok. cbv beta iota. auto.
Qed.

Lemma Spec_of_spec_ignores_dep_like_witness :
  exists h' y,
    Spec_init 2 mpileaks_heap (PySpec 0) [PyStr "libelf"; PySpec 1]
    = Ok (3, h')
    /\ copy 2 true mpileaks_heap 0 = Ok (3, h')
    /\ h' !! 3 = Some y
    /\ name y = "mpileaks"
    /\ forall k, is_Some (dependencies y !! k)
                 <-> is_Some (({[ "mpich2" := 1; "callpath" := 2 ]}
                               : DependencyMap) !! k).
Proof.
  destruct (dag_check_sound mpileaks_heap flat_rank) as [Hc Ha];
    [vm_compute; reflexivity |].
  exact (Spec_of_spec_ignores_dep_like mpileaks_heap flat_rank 2 0 _
           [PyStr "libelf"; PySpec 1] Hc Ha eq_refl ltac:(simpl; lia)).
Defined.

(** ** [Spec.__contains__] *)

Lemma any_satisfies_true (sat : loc -> result bool) (nodes : list loc) :
  any_satisfies sat nodes = Ok true ->
  exists s, s ∈ nodes /\ sat s = Ok true.
Proof.
  induction nodes as [|x nodes IH]; intros E; [discriminate |].
  cbn [any_satisfies] in E.
  destruct (sat x) as [[]|] eqn:Ex; rewrite ?bind_ok in E; try discriminate.
  - exists x. split; [left | exact Ex].
  - destruct (IH E) as (s & Hs & Es). exists s. split; [right; exact Hs | exact Es].
Qed.

Lemma path_rtc (h : heap) (k : nat) (a b : loc) :
  path h k a b -> rtc (edge h) a b.
Proof.
  induction 1 as [|k a b c Hab _ IH]; [apply rtc_refl |].
  eapply rtc_l; eassumption.
Qed.

(** X24: [spec in self] looks at the root as well as at the
    dependencies: when the traversal of [self] returns and [self]
    itself satisfies [spec], the answer is [True]; and an answer
    [True] means that some node reached from [self] along
    dependencies, possibly [self], satisfies [spec]. *)
Theorem contains_looks_at_the_root `{Packages} (n : nat) (h : heap)
    (self spec : loc) (nodes : list loc) :
  traverse n h self = Ok nodes ->
  (satisfies n h self spec true = Ok true ->
   contains n h self spec = Ok true)
  /\ (contains n h self spec = Ok true ->
      exists s, rtc (edge h) self s
                /\ satisfies n h s spec true = Ok true).
Proof.
  intros Et. unfold contains. rewrite Et, bind_ok. split.
  - intros Hsat.
    assert (Hsome : is_Some (h !! self)).
    { destruct n as [|n]; [discriminate |].
      cbn [satisfies] in Hsat. unfold deref in Hsat.
      destruct (h !! self); [eauto | discriminate]. }
    rewrite (traverse_root_first n h self Hsome) in Et.
    destruct (traverse_deps n h self) as [deps|]; [|discriminate].
    rewrite bind_ok in Et. injection Et as <-.
    cbn [any_satisfies]. rewrite Hsat, bind_ok. reflexivity.
  - intros E. apply any_satisfies_true in E as (s & Hs & Es).
    exists s. split; [|exact Es].
    unfold traverse in Et.
    destruct (preorder_traversal _ _ _ _ _ _ _ _) as [[ys V]|] eqn:Ep;
      [|discriminate].
    rewrite bind_ok in Et. injection Et as <-.
    apply list_elem_of_fmap in Hs as ([d l] & -> & Hdl).
    destruct (traversal_yields_paths _ _ _ _ _ _ _ _ _ _ Ep d l Hdl)
      as (k & _ & Hp).
    eapply path_rtc. exact Hp.
Qed.

Lemma contains_looks_at_the_root_witness :
  traverse 3 mpileaks_heap 0 = Ok [0; 2; 1]
  /\ @contains mock_packages 3 mpileaks_heap 2 2 = Ok true
  /\ @contains mock_packages 3 mpileaks_heap 0 2 = Ok true
  /\ exists s, rtc (edge mpileaks_heap) 0 s
               /\ @satisfies mock_packages 3 mpileaks_heap s 2 true = Ok true.
Proof.
  split; [vm_compute; reflexivity |].
  destruct (@contains_looks_at_the_root mock_packages 3 mpileaks_heap 2 2 [2])
    as (Hroot & _); [vm_compute; reflexivity |].
  split; [apply Hroot; vm_compute; reflexivity |].
  destruct (@contains_looks_at_the_root mock_packages 3 mpileaks_heap 0 2
              [0; 2; 1]) as (_ & Hsome); [vm_compute; reflexivity |].
  split; [vm_compute; reflexivity |].
  apply Hsome. vm_compute. reflexivity.
Defined.
(** ** [Spec._replace_with] *)

Lemma replace_round (n : string) (concrete : loc) (h1 h2 : heap)
    (k : string) (p : loc) :
  replace_in_dependent n concrete (Ok h1) (k, p) = Ok h2 ->
  round_keeps h1 h2 p concrete
  /\ exists yp yc,
       h2 !! p = Some yp /\ h1 !! concrete = Some yc
       /\ dependencies yp !! name yc = Some concrete
       /\ (name yc <> n -> dependencies yp !! n = None).
Proof.
  unfold replace_in_dependent. rewrite bind_ok. cbn [snd]. unfold deref.
  destruct (h1 !! p) as [d|] eqn:Hd; [|discriminate].
  rewrite bind_ok. destruct (bool_decide _); [|discriminate].
  pose proof (lookup_lt_Some _ _ _ Hd) as Hltp.
  set (d0 := set_dependencies d (delete n (dependencies d))).
  intros E. apply add_dependency_Ok in E as (s & c & Hs & Hc & Hnew & ->).
  rewrite list_lookup_insert_eq in Hs by exact Hltp. injection Hs as <-.
  assert (Hname : name c = name (default c (h1 !! concrete))
                  /\ is_Some (h1 !! concrete)).
  { destruct (decide (concrete = p)) as [->|Hne].
    - rewrite list_lookup_insert_eq in Hc by exact Hltp. injection Hc as <-.
      rewrite Hd. simpl. eauto.
    - rewrite list_lookup_insert_ne in Hc by congruence. rewrite Hc. eauto. }
  destruct Hname as (Hname & [yc Hyc]). rewrite Hyc in Hname. simpl in Hname.
  pose proof (lookup_lt_Some _ _ _ Hyc) as Hltc.
  set (d1 := set_dependencies d0 (<[name c := concrete]> (dependencies d0))).
  set (c1 := set_dependents (if decide (p = concrete) then d1 else c)
               (<[name d0 := p]> (dependents c))).
  assert (Hat : forall l,
            (<[concrete := c1]> (<[p := d1]> (<[p := d0]> h1))) !! l
            = if decide (l = concrete) then Some c1
              else if decide (l = p) then Some d1 else h1 !! l).
  { intros l. destruct (decide (l = concrete)) as [->|N1].
    - apply list_lookup_insert_eq. rewrite !length_insert. exact Hltc.
    - rewrite list_lookup_insert_ne by congruence.
      destruct (decide (l = p)) as [->|N2].
      + apply list_lookup_insert_eq. rewrite length_insert. exact Hltp.
      + rewrite !list_lookup_insert_ne by congruence. reflexivity. }
  split.
  - split; [rewrite !length_insert; reflexivity |].
    intros l y1 Hl. rewrite Hat.
    destruct (decide (l = concrete)) as [->|N1].
    + exists c1. split; [reflexivity |]. unfold c1.
      destruct (decide (p = concrete)) as [->|N2].
      * assert (y1 = d) as -> by congruence.
        split; [reflexivity |]. split; intros; congruence.
      * assert (c = y1) as ->.
        { rewrite list_lookup_insert_ne in Hc by congruence. congruence. }
        split; [reflexivity |]. split; [reflexivity | intros; congruence].
    + destruct (decide (l = p)) as [->|N2].
      * exists d1. assert (y1 = d) as -> by congruence.
        split; [reflexivity |]. split; [reflexivity |].
        split; intros; congruence.
      * exists y1. auto.
  - rewrite Hat. destruct (decide (p = concrete)) as [->|N].
    + exists c1, yc. split; [reflexivity |]. split; [exact Hyc |].
      unfold c1, d1.
      cbn [dependencies set_dependents set_dependencies].
      rewrite <- Hname. split; [apply lookup_insert_eq |].
      intros Hne. rewrite lookup_insert_ne by exact Hne.
      apply lookup_delete_eq.
    + rewrite decide_True by reflexivity.
      exists d1, yc. split; [reflexivity |]. split; [exact Hyc |].
      unfold d1. cbn [dependencies set_dependencies]. rewrite <- Hname.
      split; [apply lookup_insert_eq |].
      intros Hne. rewrite lookup_insert_ne by exact Hne.
      apply lookup_delete_eq.
Qed.

Lemma replace_round_raise (n : string) (concrete : loc) (e : exn)
    (items : list (string * loc)) :
  foldl (replace_in_dependent n concrete) (Raise e) items = Raise e.
Proof. induction items as [|i items IH]; [reflexivity | exact IH]. Qed.

Lemma replace_rounds (n : string) (concrete : loc)
    (items : list (string * loc)) :
  forall h h',
    foldl (replace_in_dependent n concrete) (Ok h) items = Ok h' ->
    (forall l y, h !! l = Some y ->
       exists y', h' !! l = Some y' /\ name y' = name y
                  /\ ((forall k, (k, l) ∉ items) -> l <> concrete -> y' = y))
    /\ forall k p yc, (k, p) ∈ items -> h !! concrete = Some yc ->
         exists yp, h' !! p = Some yp
                    /\ dependencies yp !! name yc = Some concrete
                    /\ (name yc <> n -> dependencies yp !! n = None).
Proof.
  induction items as [|[k0 p0] items IH] using rev_ind; intros h h' E.
  - injection E as <-. split.
    + intros l y Hl. exists y. auto.
    + intros k p yc Hin. inversion Hin.
  - rewrite foldl_snoc in E.
    destruct (foldl (replace_in_dependent n concrete) (Ok h) items)
      as [h1|e] eqn:E1; [|discriminate].
    destruct (IH h h1 E1) as (Hkeep & Hdone).
    destruct (replace_round n concrete h1 h' k0 p0 E)
      as ((Hlen & Hround) & yp & yc1 & Hyp & Hyc1 & Hedge & Hgone).
    split.
    + intros l y Hl. destruct (Hkeep l y Hl) as (y1 & Hy1 & Hn1 & Hsame1).
      destruct (Hround l y1 Hy1) as (y2 & Hy2 & Hn2 & _ & Hsame2).
      exists y2. split; [exact Hy2 |]. split; [congruence |].
      intros Hnot Hc. rewrite Hsame2; [apply Hsame1 | | exact Hc].
      * intros k Hin. apply (Hnot k). apply elem_of_app. left. exact Hin.
      * exact Hc.
      * intros ->. apply (Hnot k0). apply elem_of_app. right.
        apply list_elem_of_singleton. reflexivity.
    + intros k p yc Hin Hyc.
      destruct (Hkeep concrete yc Hyc) as (yc' & Hyc' & Hnc & _).
      assert (yc1 = yc') as -> by congruence.
      destruct (decide (p = p0)) as [->|Hne].
      * exists yp. rewrite <- Hnc. auto.
      * apply elem_of_app in Hin as [Hin|Hin];
          [|apply list_elem_of_singleton in Hin; congruence].
        destruct (Hdone k p yc Hin Hyc) as (yp1 & Hyp1 & He1 & Hg1).
        destruct (Hround p yp1 Hyp1) as (yp2 & Hyp2 & _ & Hdeps & _).
        exists yp2. rewrite (Hdeps Hne). auto.
Qed.

Lemma add_dependency_attributes (h h' : heap) (self spec : loc) :
  _add_dependency h self spec = Ok h' ->
  forall l y, h !! l = Some y ->
    exists y', h' !! l = Some y'
               /\ name y' = name y /\ versions y' = versions y
               /\ variants y' = variants y
               /\ architecture y' = architecture y
               /\ compiler y' = compiler y.
Proof.
  intros E l y Hl.
  apply add_dependency_Ok in E as (s & d & Hs & Hd & _ & ->).
  pose proof (lookup_lt_Some _ _ _ Hs) as Hlts.
  pose proof (lookup_lt_Some _ _ _ Hd) as Hltd.
  destruct (decide (l = spec)) as [->|Hne1].
  - eexists. split;
      [apply list_lookup_insert_eq; rewrite length_insert; exact Hltd |].
    assert (y = d) as -> by congruence.
    destruct (decide (self = spec)) as [->|Hne2]; simpl;
      [|repeat split; reflexivity].
    assert (d = s) as -> by congruence. repeat split; reflexivity.
  - rewrite list_lookup_insert_ne by congruence.
    destruct (decide (l = self)) as [->|Hne2].
    + eexists. split; [apply list_lookup_insert_eq; exact Hlts |].
      assert (y = s) as -> by congruence. simpl. repeat split; reflexivity.
    + exists y. rewrite list_lookup_insert_ne by congruence.
      repeat split; [exact Hl | reflexivity ..].
Qed.

Lemma replace_round_attributes (n : string) (concrete : loc) (h1 h2 : heap)
    (item : string * loc) :
  replace_in_dependent n concrete (Ok h1) item = Ok h2 ->
  forall l y, h1 !! l = Some y ->
    exists y', h2 !! l = Some y'
               /\ name y' = name y /\ versions y' = versions y
               /\ variants y' = variants y
               /\ architecture y' = architecture y
               /\ compiler y' = compiler y.
Proof.
  unfold replace_in_dependent. rewrite bind_ok. unfold deref.
  destruct (h1 !! item.2) as [d|] eqn:Hd; [|discriminate].
  rewrite bind_ok. destruct (bool_decide _); [|discriminate].
  intros E l y Hl.
  pose proof (lookup_lt_Some _ _ _ Hd) as Hltp.
  destruct (decide (l = item.2)) as [->|Hne].
  - destruct (add_dependency_attributes _ _ _ _ E item.2 _
                (list_lookup_insert_eq _ _ _ Hltp))
      as (y' & Hy' & Hrest).
    exists y'. split; [exact Hy' |].
    assert (y = d) as -> by congruence. exact Hrest.
  - apply (add_dependency_attributes _ _ _ _ E l y).
    rewrite list_lookup_insert_ne by congruence. exact Hl.
Qed.

Lemma replace_rounds_attributes (n : string) (concrete : loc)
    (items : list (string * loc)) :
  forall h h',
    foldl (replace_in_dependent n concrete) (Ok h) items = Ok h' ->
    forall l y, h !! l = Some y ->
      exists y', h' !! l = Some y'
                 /\ name y' = name y /\ versions y' = versions y
                 /\ variants y' = variants y
                 /\ architecture y' = architecture y
                 /\ compiler y' = compiler y.
Proof.
  induction items as [|i items IH]; intros h h' E l y Hl.
  - injection E as <-. exists y. repeat split; [exact Hl | reflexivity ..].
  - cbn [foldl] in E.
    destruct (replace_in_dependent n concrete (Ok h) i) as [h1|e] eqn:E1;
      [|rewrite replace_round_raise in E; discriminate].
    destruct (replace_round_attributes _ _ _ _ _ E1 l y Hl)
      as (y1 & Hy1 & A1 & A2 & A3 & A4 & A5).
    destruct (IH _ _ E l y1 Hy1) as (y2 & Hy2 & B1 & B2 & B3 & B4 & B5).
    exists y2. split; [exact Hy2 |]. repeat split; congruence.
Qed.

(** X25: when [_replace_with] returns, every dependent of [self] has
    the spec [concrete] among its dependencies, under the name of
    [concrete], and has no dependency under the name of [self] any more
    unless that is the name of [concrete]; every object keeps its name,
    its versions, its variants, its architecture and its compiler:
    [_replace_with] writes to [dependencies] and [dependents] only. *)
Theorem replace_with_moves_dependents `{Packages} (h h' : heap)
    (self concrete : loc) (s yc : Spec) :
  h !! self = Some s ->
  h !! concrete = Some yc ->
  _replace_with h self concrete = Ok h' ->
  (forall k p, dependents s !! k = Some p ->
     exists yp, h' !! p = Some yp
                /\ dependencies yp !! name yc = Some concrete
                /\ (name yc <> name s -> dependencies yp !! name s = None))
  /\ (forall l y, h !! l = Some y ->
        exists y', h' !! l = Some y'
                   /\ name y' = name y /\ versions y' = versions y
                   /\ variants y' = variants y
                   /\ architecture y' = architecture y
                   /\ compiler y' = compiler y).
Proof.
  intros Hs Hyc. unfold _replace_with.
  rewrite (deref_Some _ _ _ Hs), bind_ok.
  destruct (negb (virtual s)); [discriminate |]. intros E.
  destruct (replace_rounds _ _ _ _ _ E) as (_ & Hdone).
  split.
  - intros k p Hk. apply (Hdone k p yc); [|exact Hyc].
    apply elem_of_map_to_list. exact Hk.
  - apply (replace_rounds_attributes _ _ _ _ _ E).
Qed.

(** The specs ["callpath ^mpi"] and ["mpich2"]: the virtual [mpi], the
    object 1, is replaced by [mpich2], the object 2. *)
Lemma replace_with_moves_dependents_witness :
  exists h h',
    parse [] "callpath ^mpi mpich2" = Ok ([0; 2], h)
    /\ @_replace_with mock_packages h 1 2 = Ok h'
    /\ (exists yp, h' !! 0 = Some yp
                   /\ dependencies yp !! "mpich2" = Some 2
                   /\ dependencies yp !! "mpi" = None)
    /\ exists y', h' !! 1 = Some y' /\ name y' = "mpi"
                  /\ versions y' = VersionList.any.
Proof.
  destruct (parse [] "callpath ^mpi mpich2") as [[specs h]|e] eqn:Ep;
    [|vm_compute in Ep; discriminate].
  assert (Hh : specs = [0; 2]
               /\ h !! 0 = Some (set_dependencies
                                   (set_versions (new_Spec "callpath")
                                      VersionList.any) {[ "mpi" := 1 ]})
               /\ h !! 1 = Some (set_dependents
                                   (set_versions (new_Spec "mpi")
                                      VersionList.any) {[ "callpath" := 0 ]})
               /\ h !! 2 = Some (set_versions (new_Spec "mpich2")
                                   VersionList.any)).
  { vm_compute in Ep. injection Ep as <- <-. repeat split. }
  destruct Hh as (-> & H0 & H1 & H2).
  destruct (@_replace_with mock_packages h 1 2) as [h'|e] eqn:E.
  2: { exfalso. vm_compute in Ep. injection Ep as <-.
       vm_compute in E. discriminate. }
  destruct (@replace_with_moves_dependents mock_packages h h' 1 2 _ _ H1 H2 E)
    as (Hmoved & Hkept).
  exists h, h'. split; [reflexivity |]. split; [exact E |]. split.
  - destruct (Hmoved "callpath" 0 eq_refl) as (yp & Hyp & He & Hg).
    exists yp. split; [exact Hyp |]. split; [exact He |].
    apply Hg. discriminate.
  - destruct (Hkept 1 _ H1) as (y' & Hy' & Hn & Hv & _).
    exists y'. split; [exact Hy' |]. split; [exact Hn | exact Hv].
Defined.
